(** * Pinch-to-zoom summarizer: scoring, diff and gesture core

    A shallow embedding of the word-scoring services
    (server/utils/textProcessor.js, the TF-IDF engine, the priority
    calculator), the word matcher, the client-side diff re-projection, the
    state manager, the pinch mapping and the animation parameters, with the
    properties the specification states about them, followed by further
    properties of the same code: tokens and text structure, TF-IDF and
    priorities, the two diff paths and their re-projection, the state
    manager's calls, the buttons and the sampling of animated words.

    Conventions.
    - A JavaScript string is its sequence of UTF-16 code units ([list N]).
    - [String.prototype.toLowerCase] is a built-in; the functions that call
      it take it as a parameter.  [JS.ascii_toLowerCase] is the instance used
      in the worked examples (it agrees with the built-in on ASCII text).
    - Numbers that the code only adds, multiplies, compares and divides by
      non-zero constants are exact rationals ([Q]); the scoring functions,
      whose point is to avoid NaN and Infinity, use [JS.num], rationals
      extended with the IEEE special values.
    - Where a rounded result decides something discrete (how many elements
      a [slice] takes, whether a difference overflows, on which side of a
      bound an average falls) the operations are those of binary64:
      [JS.add64], [JS.sub64], [JS.mul64] and [JS.div64] round the exact
      result to the nearest double, ties to even, with gradual underflow
      and overflow to an infinity ([JS.round64], [JS.double]).  The
      functions concerned are [normalizeTFIDF], [extractTopKeywords],
      [selectWordsToRemove], [identifyCoreKeywords],
      [calculatePriorityStats] and [filterAndSampleWords]; a numeric
      argument of theirs that the statements take as a rational stands for
      the double the caller passes. *)

From Stdlib Require Import Ascii String QArith Qround Qabs Qminmax Lqa Qpower.
From Stdlib Require Floats.SpecFloat.
From stdpp Require Import base decidable option list numbers strings gmap sets sorting.

Open Scope Z_scope.
Open Scope nat_scope.

(** ** JavaScript values used by the code *)

Module JS.

(** A string, as UTF-16 code units. *)
Abbreviation jsstring := (list N).

(** An ASCII literal as a JavaScript string. *)
Definition lit (s : string) : jsstring :=
  (fun a => N_of_ascii a) <$> String.list_ascii_of_string s.

(** [\s] of a regular expression, which is also what [trim] strips:
    WhiteSpace and LineTerminator of ECMAScript. *)
Definition is_ws (c : N) : bool :=
  bool_decide (c ∈ [9; 10; 11; 12; 13; 32; 160; 5760; 8232; 8233; 8239;
                     8287; 12288; 65279]%N)
  || ((8192 <=? c)%N && (c <=? 8202)%N).

Fixpoint trimStart (s : jsstring) : jsstring :=
  match s with
  | c :: s' => if is_ws c then trimStart s' else s
  | [] => []
  end.
Definition trim (s : jsstring) : jsstring := reverse (trimStart (reverse (trimStart s))).

(** [s.split(/\s+/)]: the pieces between maximal runs of white space; a
    run at either end leaves an empty piece there, and the empty string
    gives one empty piece. [cur] is the piece being read, [in_ws] tells
    that the previous code unit was white space. *)
Fixpoint split_ws_from (s cur : jsstring) (in_ws : bool) : list jsstring :=
  match s with
  | [] => [cur]
  | c :: s' =>
      if is_ws c
      then (if in_ws then split_ws_from s' [] true
            else cur :: split_ws_from s' [] true)
      else split_ws_from s' (cur ++ [c]) false
  end.

Definition split_ws (s : jsstring) : list jsstring := split_ws_from s [] false.

(** A string is truthy when it is not empty. *)
Definition truthy (s : jsstring) : bool :=
  match s with [] => false | _ => true end.

(** [text.split(/\s+/).filter(w => w.trim())] *)
Definition words_of (text : jsstring) : list jsstring :=
  filter (fun w => truthy (trim w) = true) (split_ws text).

(** Lower-casing of the letters A-Z only. *)
Definition ascii_lower (c : N) : N :=
  if ((65 <=? c)%N && (c <=? 90)%N) then (c + 32)%N else c.
Definition ascii_toLowerCase (s : jsstring) : jsstring := ascii_lower <$> s.

(** [a.includes(x)] on an array of strings. *)
Definition includes (a : list jsstring) (x : jsstring) : bool := bool_decide (x ∈ a).

(** [s.endsWith(t)] *)
Definition endsWith (s t : jsstring) : bool := bool_decide (t `suffix_of` s).

(** [arr.forEach((x, index) => ...)] with the state the callback
    updates threaded through; [i] is the index of the head of [l]. *)
Fixpoint forEach_indexed {A S : Type} (f : S -> A -> nat -> S)
    (l : list A) (i : nat) (s : S) : S :=
  match l with
  | [] => s
  | x :: l' => forEach_indexed f l' (Datatypes.S i) (f s x i)
  end.

(** [arr.findIndex(p)], [None] standing for -1. *)
Fixpoint findIndex_from {A : Type} (p : A -> bool) (l : list A) (i : nat) : option nat :=
  match l with
  | [] => None
  | x :: l' => if p x then Some i else findIndex_from p l' (Datatypes.S i)
  end.
Definition findIndex {A : Type} (p : A -> bool) (l : list A) : option nat :=
  findIndex_from p l 0.

(** [arr.slice(start, end)] for integer arguments: a negative argument
    counts from the end, and both are clipped to the array. *)
Definition slice_bound (len : nat) (k : Z) : nat :=
  if (k <? 0)%Z then Z.to_nat (Z.max (Z.of_nat len + k) 0)
  else Nat.min (Z.to_nat k) len.
Definition slice {A : Type} (l : list A) (start stop : Z) : list A :=
  let from := slice_bound (length l) start in
  let to := slice_bound (length l) stop in
  take (to - from) (drop from l).

(** A [Set] of strings keeps its members in insertion order;
    [Array.from(set)] and [set.forEach] follow that order. *)
Definition set_add (s : list jsstring) (x : jsstring) : list jsstring :=
  if bool_decide (x ∈ s) then s else s ++ [x].
Definition set_has (s : list jsstring) (x : jsstring) : bool := bool_decide (x ∈ s).
Definition new_Set (l : list jsstring) : list jsstring := foldl set_add [] l.

(** *** Numbers

    Rationals and the IEEE special values. The operations [add], [sub],
    [mul] and [div] are exact: a finite result is a result the code
    computes without dividing by zero or taking the logarithm of a
    non-positive number, up to rounding. The rounded operations of the
    doubles follow below; the sign of zero is left out. *)
Inductive num := Num (q : Q) | PInf | NInf | NaN.

Definition finite (x : num) : Prop := match x with Num _ => True | _ => False end.

(** Equality of values ([Q] has several fractions for one rational). *)
Definition num_eqv (x y : num) : Prop :=
  match x, y with
  | Num a, Num b => a == b
  | PInf, PInf | NInf, NInf | NaN, NaN => True
  | _, _ => False
  end.

Definition of_nat (n : nat) : num := Num (inject_Z (Z.of_nat n)).

Definition neg (x : num) : num :=
  match x with Num q => Num (- q) | PInf => NInf | NInf => PInf | NaN => NaN end.

Definition add (x y : num) : num :=
  match x, y with
  | NaN, _ | _, NaN => NaN
  | Num a, Num b => Num (a + b)
  | PInf, NInf | NInf, PInf => NaN
  | PInf, _ | _, PInf => PInf
  | NInf, _ | _, NInf => NInf
  end.

Definition sub (x y : num) : num := add x (neg y).

(** The sign of a rational: used for products and quotients with an
    infinity. *)
Definition sgn (q : Q) : comparison := (q ?= 0)%Q.

Definition inf_of_sign (c : comparison) : num :=
  match c with Gt => PInf | Lt => NInf | Eq => NaN end.

Definition mul (x y : num) : num :=
  match x, y with
  | NaN, _ | _, NaN => NaN
  | Num a, Num b => Num (a * b)
  | Num a, PInf | PInf, Num a => inf_of_sign (sgn a)
  | Num a, NInf | NInf, Num a => inf_of_sign (CompOpp (sgn a))
  | PInf, PInf | NInf, NInf => PInf
  | PInf, NInf | NInf, PInf => NInf
  end.

Definition div (x y : num) : num :=
  match x, y with
  | NaN, _ | _, NaN => NaN
  | Num a, Num b =>
      if Qeq_bool b 0 then inf_of_sign (sgn a) else Num (a / b)
  | Num _, (PInf | NInf) => Num 0
  | PInf, Num b => if Qle_bool 0 b then PInf else NInf
  | NInf, Num b => if Qle_bool 0 b then NInf else PInf
  | (PInf | NInf), (PInf | NInf) => NaN
  end.

(** [x < y]: false as soon as one side is NaN. *)
Definition lt (x y : num) : bool :=
  match x, y with
  | NaN, _ | _, NaN => false
  | Num a, Num b => negb (Qle_bool b a)
  | NInf, (Num _ | PInf) => true
  | Num _, PInf => true
  | _, _ => false
  end.
Definition gt (x y : num) : bool := lt y x.

(** [x === y] *)
Definition strict_eq (x y : num) : bool :=
  match x, y with
  | Num a, Num b => Qeq_bool a b
  | PInf, PInf | NInf, NInf => true
  | _, _ => false
  end.

(** [Math.max(x, y)] and [Math.min(x, y)]: NaN if an argument is NaN. *)
Definition max2 (x y : num) : num :=
  match x, y with
  | NaN, _ | _, NaN => NaN
  | _, _ => if lt x y then y else x
  end.
Definition min2 (x y : num) : num :=
  match x, y with
  | NaN, _ | _, NaN => NaN
  | _, _ => if lt y x then y else x
  end.

(** [Math.max(...l)] and [Math.min(...l)]: -Infinity and Infinity on no
    argument. *)
Definition Math_max (l : list num) : num := foldl max2 NInf l.
Definition Math_min (l : list num) : num := foldl min2 PInf l.

(** [x || 0] on a number: 0 and NaN are falsy. *)
Definition or_zero (x : num) : num :=
  match x with
  | Num q => if Qeq_bool q 0 then Num 0 else x
  | NaN => Num 0
  | _ => x
  end.

(** [Math.round] of a rational. *)
Definition Math_round (q : Q) : Z := Qfloor (q + (1 # 2)).

(** [x <= y] and [x >= y]: false as soon as one side is NaN. *)
Definition le (x y : num) : bool :=
  match x, y with
  | NaN, _ | _, NaN => false
  | Num a, Num b => Qle_bool a b
  | NInf, _ | _, PInf => true
  | _, _ => false
  end.
Definition ge (x y : num) : bool := le y x.

(** *** Doubles

    Where a rounded result decides a count, or can leave the range of the
    doubles, the operations are those of IEEE 754 binary64: the exact
    result rounded to the nearest double, ties to even, and an infinity
    from 2^1024 on. A finite double is the rational it stands for. *)

(** The exponent of the leading bit of a positive rational. *)
Definition ilog2 (q : Q) : Z :=
  let k := (Z.log2 (Qnum q) - Z.log2 (Z.pos (Qden q)))%Z in
  if Qle_bool (2 ^ k)%Q q then k else (k - 1)%Z.

(** The nearest integer, ties to even. *)
Definition rne (x : Q) : Z :=
  let f := Qfloor x in
  match Qcompare (x - inject_Z f)%Q (1 # 2)%Q with
  | Lt => f
  | Gt => (f + 1)%Z
  | Eq => if Z.even f then f else (f + 1)%Z
  end.

(** The exponent of the last place of the doubles around a positive
    rational: 52 places below the leading bit, and -1074 among the
    subnormal numbers. *)
Definition binade (q : Q) : Z := Z.max (-1074) (ilog2 q - 52).

(** A positive rational rounded to 53 significant bits. *)
Definition round_pos (q : Q) : Q :=
  (inject_Z (rne (q / 2 ^ binade q)) * 2 ^ binade q)%Q.

Definition round64 (q : Q) : Q :=
  match Qcompare q 0%Q with
  | Eq => 0%Q
  | Gt => round_pos q
  | Lt => (- round_pos (- q))%Q
  end.

(** The double an exact result becomes. *)
Definition double (q : Q) : num :=
  let r := round64 q in
  if Qle_bool (2 ^ 1024)%Q r then PInf
  else if Qle_bool r (- 2 ^ 1024)%Q then NInf
  else Num r.

Definition rounded (x : num) : num :=
  match x with Num q => double q | _ => x end.

(** [x + y], [x - y], [x * y] and [x / y] on doubles. *)
Definition add64 (x y : num) : num := rounded (add x y).
Definition sub64 (x y : num) : num := rounded (sub x y).
Definition mul64 (x y : num) : num := rounded (mul x y).
Definition div64 (x y : num) : num := rounded (div x y).

(** [Math.floor(x)] and [Math.ceil(x)] on doubles. *)
Definition Math_floor_num (x : num) : num :=
  match x with Num q => Num (inject_Z (Qfloor q)) | _ => x end.
Definition Math_ceil_num (x : num) : num :=
  match x with Num q => Num (inject_Z (Qceiling q)) | _ => x end.

(** [arr.slice(start, end)] for numbers: NaN counts as 0, a fraction is
    cut off, an infinity is the end it points to. *)
Definition Qtrunc (q : Q) : Z := if Qle_bool 0%Q q then Qfloor q else Qceiling q.
Definition slice_bound_num (len : nat) (k : num) : nat :=
  match k with
  | Num q => slice_bound len (Qtrunc q)
  | PInf => len
  | NInf | NaN => 0
  end.
Definition slice_num {A : Type} (l : list A) (start stop : num) : list A :=
  let from := slice_bound_num (length l) start in
  let to := slice_bound_num (length l) stop in
  take (to - from) (drop from l).
Definition slice_from_num {A : Type} (l : list A) (start : num) : list A :=
  drop (slice_bound_num (length l) start) l.

(** [s.includes(t)] on strings: [t] starts at some position of [s]. *)
Fixpoint str_includes (s t : jsstring) : bool :=
  bool_decide (t `prefix_of` s)
  || match s with
     | [] => false
     | _ :: s' => str_includes s' t
     end.

(** [s.match(/[...]+/g) || []]: the maximal runs of code units of a class
    [p], from left to right. [cur] is the run being read. *)
Fixpoint match_runs_from (p : N -> bool) (s cur : jsstring) : list jsstring :=
  match s with
  | [] => if truthy cur then [cur] else []
  | c :: s' =>
      if p c then match_runs_from p s' (cur ++ [c])
      else if truthy cur then cur :: match_runs_from p s' []
      else match_runs_from p s' []
  end.
Definition match_runs (p : N -> bool) (s : jsstring) : list jsstring :=
  match_runs_from p s [].

(** [arr.sort(compare)], a stable sort: [before y x] tells that the
    comparator puts [y] strictly before [x]; elements it does not order
    (a tie, or a NaN result) keep their order. *)
Fixpoint insert_sorted {A : Type} (before : A -> A -> bool) (x : A) (l : list A)
  : list A :=
  match l with
  | [] => [x]
  | y :: l' => if before y x then y :: insert_sorted before x l' else x :: l
  end.
Definition sort_stable {A : Type} (before : A -> A -> bool) (l : list A) : list A :=
  foldr (insert_sorted before) [] l.

End JS.

Import JS.

(** ** The client utilities: text statistics *)

Module Utils.

Record TextStats := mkStats {
  wordCount : nat;
  sentenceCount : nat;
  charCount : nat
}.

(** [/[.!?]/] *)
Definition is_sentence_end (c : N) : bool :=
  bool_decide (c ∈ [46; 33; 63]%N).

(** [text.match(/\S+/g) || []] and [text.match(/[.!?]+/g) || []] are
    counted; an empty text gives zeros. *)
Definition calculateTextStats (text : jsstring) : TextStats :=
  if negb (truthy text) then mkStats 0 0 0
  else
    let words := match_runs (fun c => negb (is_ws c)) text in
    let sentences := match_runs is_sentence_end text in
    mkStats (length words) (length sentences) (length text).

End Utils.

(** ** server/utils/textProcessor.js *)

Module TextProcessor.

Inductive PosTag := NOUN | VERB | ADJ | ADV | ADP | DET | CONJ | NUM.

#[export] Instance PosTag_eq_dec : EqDecision PosTag.
Proof. solve_decision. Defined.

(** [/^[a-zA-Z]+$/] *)
Definition is_ascii_letter (c : N) : bool :=
  ((65 <=? c)%N && (c <=? 90)%N) || ((97 <=? c)%N && (c <=? 122)%N).
Definition all_letters (w : jsstring) : bool :=
  truthy w && forallb is_ascii_letter w.

(** [/^\d+$/] *)
Definition is_digit (c : N) : bool := (48 <=? c)%N && (c <=? 57)%N.
Definition all_digits (w : jsstring) : bool :=
  truthy w && forallb is_digit w.

(** [/[은는이가을를에게서와과도만]/]: some code unit of the word is one of
    these particles. *)
Definition koreanParticles : list N :=
  [51008; 45716; 51060; 44032; 51012; 47484; 50640; 44172; 49436; 50752;
   44284; 46020; 47564]%N.
Definition has_koreanParticle (w : jsstring) : bool :=
  existsb (fun c => bool_decide (c ∈ koreanParticles)) w.

(** [/(다|요|ㅂ니다|습니다|세요|하다|되다|이다)$/] *)
Definition koreanEndings : list jsstring :=
  [[45796]; [50836]; [12610; 45768; 45796]; [49845; 45768; 45796];
   [49464; 50836]; [54616; 45796]; [46104; 45796]; [51060; 45796]]%N.
Definition has_koreanEnding (w : jsstring) : bool :=
  existsb (endsWith w) koreanEndings.

Definition conjunctions : list jsstring :=
  lit <$> ["and"; "or"; "but"; "yet"; "so"; "for"; "nor"]%string.
Definition prepositions : list jsstring :=
  lit <$> ["in"; "on"; "at"; "by"; "with"; "from"; "to"; "of"]%string.
Definition determiners : list jsstring :=
  lit <$> ["a"; "an"; "the"; "this"; "that"; "these"; "those"]%string.

Section WithLowerCase.
Variable toLowerCase : jsstring -> jsstring.

Definition estimatePOS (word : jsstring) : PosTag :=
  let lowerWord := toLowerCase word in
  if all_letters word then
    if includes conjunctions lowerWord then CONJ
    else if includes prepositions lowerWord then ADP
    else if includes determiners lowerWord then DET
    else if endsWith lowerWord (lit "ly") then ADV
    else if endsWith lowerWord (lit "ing") || endsWith lowerWord (lit "ed") then VERB
    else NOUN
  else if has_koreanParticle word then ADP
  else if has_koreanEnding word then VERB
  else if all_digits word then NUM
  else NOUN.

(** [text.split(/\n\n+/)]: the pieces between runs of two or more line
    feeds. [in_sep] tells that such a run is being skipped. *)
Fixpoint split_blank_from (s cur : jsstring) (in_sep : bool) : list jsstring :=
  match s with
  | [] => [cur]
  | c :: s' =>
      if in_sep
      then (if (c =? 10)%N then split_blank_from s' [] true
            else split_blank_from s' [c] false)
      else if (c =? 10)%N && bool_decide (head s' = Some 10%N)
      then cur :: split_blank_from s' [] true
      else split_blank_from s' (cur ++ [c]) false
  end.

Definition parseParagraphs (text : jsstring) : list jsstring :=
  filter (fun p => 0 < length p) (trim <$> split_blank_from text [] false).

(** The sentence and word tokenizers of the [natural] package. *)
Variable sentenceTokenizer : jsstring -> list jsstring.
Variable tokenizer : jsstring -> list jsstring.

Definition tokenizeSentences (text : jsstring) : list jsstring :=
  filter (fun s => 0 < length (trim s)) (sentenceTokenizer text).

(** [/[a-zA-Z가-힣0-9]/] *)
Definition is_word_char (c : N) : bool :=
  is_ascii_letter c || ((44032 <=? c)%N && (c <=? 55203)%N) || is_digit c.

Definition tokenizeWords (text : jsstring) (lowercase removeSpecialChars : bool)
  : list jsstring :=
  let words := tokenizer text in
  let words :=
    if removeSpecialChars
    then filter (fun w => existsb is_word_char w = true) words else words in
  if lowercase then toLowerCase <$> words else words.

Record Word := mkWord {
  text : jsstring;
  position : nat;
  sentence : nat;
  paragraph : nat;
  pos : PosTag
}.

Record SentenceInfo := mkSentence {
  s_text : jsstring;
  s_index : nat;
  s_paragraph : nat;
  s_wordCount : nat
}.

Record Structured := mkStructured {
  originalText : jsstring;
  paragraphs : list jsstring;
  sentences : list SentenceInfo;
  words : list Word;
  paragraphCount : nat;
  sentenceCount : nat;
  wordCount : nat;
  charCount : nat
}.

(** The counters and arrays the nested [forEach] loops of
    [structureText] update. *)
Record Builder := mkBuilder {
  wordPosition : nat;
  sentenceIndex : nat;
  allSentences : list SentenceInfo;
  allWords : list Word
}.

Definition push_word (paragraphIndex : nat) (b : Builder) (word : jsstring) : Builder :=
  mkBuilder (S (wordPosition b)) (sentenceIndex b) (allSentences b)
    (allWords b ++
       [mkWord word (wordPosition b) (sentenceIndex b) paragraphIndex
          (estimatePOS word)]).

Definition push_sentence (paragraphIndex : nat) (b : Builder) (sentence : jsstring)
  : Builder :=
  let ws := tokenizeWords sentence false false in
  let b := foldl (push_word paragraphIndex) b ws in
  mkBuilder (wordPosition b) (S (sentenceIndex b))
    (allSentences b ++
       [mkSentence sentence (sentenceIndex b) paragraphIndex (length ws)])
    (allWords b).

Definition push_paragraph (b : Builder) (paragraph : jsstring) (paragraphIndex : nat)
  : Builder :=
  foldl (push_sentence paragraphIndex) b (tokenizeSentences paragraph).

Definition structureText (text : jsstring) : Structured :=
  let paragraphs := parseParagraphs text in
  let b := forEach_indexed push_paragraph paragraphs 0 (mkBuilder 0 0 [] []) in
  mkStructured text paragraphs (allSentences b) (allWords b)
    (length paragraphs) (length (allSentences b)) (length (allWords b))
    (length text).

End WithLowerCase.

End TextProcessor.

(** ** The TF-IDF engine *)

Module Tfidf.

Definition KOREAN_STOPWORDS : list jsstring :=
  [[51008]; [45716]; [51060]; [44032]; [51012]; [47484]; [50640];
   [51032]; [50752]; [44284]; [46020]; [47196]; [51004; 47196]; [47564];
   [50640; 49436]; [44760; 49436]; [48512; 53552]; [44620; 51648];
   [54620]; [44536]; [51200]; [51060; 47088]; [44536; 47088];
   [51200; 47088]; [44163]; [49688]; [46321]; [48143]; [46608; 45716];
   [44536; 47532; 44256]; [54616; 51648; 47564]; [44536; 47084; 45208];
   [44536; 47000; 49436]]%N.

Definition ENGLISH_STOPWORDS : list jsstring :=
  lit <$> ["the"; "a"; "an"; "and"; "or"; "but"; "in"; "on"; "at"; "to";
           "for"; "of"; "with"; "by"; "from"; "as"; "is"; "was"; "are";
           "be"; "been"; "have"; "has"; "had"; "do"; "does"; "did";
           "will"; "would"; "should"; "could"; "may"; "might"; "must";
           "this"; "that"; "these"; "those"; "i"; "you"; "he"; "she";
           "it"; "we"; "they"; "my"; "your"; "his"; "her"; "its"; "our";
           "their"]%string.

Definition ALL_STOPWORDS : list jsstring := KOREAN_STOPWORDS ++ ENGLISH_STOPWORDS.

Record Item := mkItem {
  word : jsstring;
  tf : num;
  idf : num;
  tfidf : num;
  frequency : nat;
  normalizedTfidf : option num   (* absent until [normalizeTFIDF] sets it *)
}.

(** A [Map] from words to items, in insertion order. *)
Abbreviation TfidfMap := (list (jsstring * Item)).

Definition map_set (m : TfidfMap) (k : jsstring) (v : Item) : TfidfMap :=
  if bool_decide (k ∈ m.*1)
  then (fun kv => if bool_decide (kv.1 = k) then (k, v) else kv) <$> m
  else m ++ [(k, v)].

Definition map_get (m : TfidfMap) (k : jsstring) : option Item :=
  (fun r => r.2.2) <$> list_find (fun kv => kv.1 = k) m.

Section WithBuiltins.
Variable toLowerCase : jsstring -> jsstring.
(** [Math.log] on the positive rationals. *)
Variable ln : Q -> Q.

Definition Math_log (x : num) : num :=
  match x with
  | Num q => match (q ?= 0)%Q with
             | Gt => Num (ln q)
             | Eq => NInf
             | Lt => NaN
             end
  | PInf => PInf
  | _ => NaN
  end.

Definition isStopword (word : jsstring) : bool :=
  includes ALL_STOPWORDS (toLowerCase word).

Definition count_eq (word : jsstring) (ws : list jsstring) : nat :=
  length (filter (fun w => w = word) ws).

Definition calculateTF (word : jsstring) (words : list jsstring) : num :=
  let wordCount := count_eq word words in
  let totalWords := length words in
  if bool_decide (totalWords = 0) then Num 0
  else div (of_nat wordCount) (of_nat totalWords).

Definition calculateIDF (word : jsstring) (documents : list (list jsstring)) : num :=
  let totalDocuments := length documents in
  let documentsWithWord := length (filter (fun doc => word ∈ doc) documents) in
  if bool_decide (documentsWithWord = 0) then Num 0
  else Math_log (div (of_nat totalDocuments) (of_nat documentsWithWord)).


Variable sentenceTokenizer : jsstring -> list jsstring.
Variable tokenizer : jsstring -> list jsstring.

Definition splitIntoDocuments (text : jsstring) : list (list jsstring) :=
  (fun p => TextProcessor.tokenizeWords toLowerCase tokenizer p true false)
    <$> TextProcessor.parseParagraphs text.

Definition computeTFIDFForText (text : jsstring)
    (removeStopwords : bool) (minWordLength : nat) : TfidfMap :=
  let documents := splitIntoDocuments text in
  let allWords := TextProcessor.tokenizeWords toLowerCase tokenizer text true false in
  let uniqueWords := new_Set allWords in
  let uniqueWords :=
    if removeStopwords
    then filter (fun w => isStopword w = false) uniqueWords else uniqueWords in
  let uniqueWords := filter (fun w => minWordLength <= length w) uniqueWords in
  foldl (fun m word =>
           let tf := calculateTF word allWords in
           let idf := calculateIDF word documents in
           map_set m word
             (mkItem word tf idf (mul tf idf) (count_eq word allWords) None))
        [] uniqueWords.

Definition set_normalized (v : num) (it : Item) : Item :=
  mkItem (word it) (tf it) (idf it) (tfidf it) (frequency it) (Some v).

Definition normalizeTFIDF (tfidfMap : TfidfMap) : TfidfMap :=
  let scores := (fun kv => tfidf kv.2) <$> tfidfMap in
  let maxScore := Math_max scores in
  let minScore := Math_min scores in
  let range := sub64 maxScore minScore in
  if strict_eq range (Num 0)
  then (fun kv => (kv.1, set_normalized (Num (1 # 2)) kv.2)) <$> tfidfMap
  else (fun kv =>
          (kv.1, set_normalized (div64 (sub64 (tfidf kv.2) minScore) range) kv.2))
         <$> tfidfMap.

End WithBuiltins.

(** [topN] is [None] when the option is absent; 0 is as good as absent.
    The sort puts the higher score first and keeps the order of equal
    scores. *)
Definition extractTopKeywords (tfidfMap : TfidfMap) (topN : option Z) (topPercent : Q)
  : list Item :=
  let sortedWords := sort_stable (fun y x => lt (tfidf x) (tfidf y)) (snd <$> tfidfMap) in
  let count :=
    Math_ceil_num
      (mul64 (of_nat (length sortedWords)) (div64 (Num topPercent) (Num 100))) in
  match topN with
  | Some n =>
      if (n =? 0)%Z then slice_num sortedWords (Num 0) count
      else slice sortedWords 0 n
  | None => slice_num sortedWords (Num 0) count
  end.

End Tfidf.


(** ** server/services/priorityCalculator.js *)

Module PriorityCalculator.
Import TextProcessor.

Definition POS_WEIGHTS (pos : PosTag) : Q :=
  match pos with
  | NOUN => 1
  | VERB => 9 # 10
  | NUM => 85 # 100
  | ADJ => 6 # 10
  | ADV => 4 # 10
  | ADP => 2 # 10
  | DET => 1 # 10
  | CONJ => 5 # 100
  end.

(** [POS_WEIGHTS[pos] || 0.5] *)
Definition calculatePOSScore (pos : PosTag) : num :=
  let w := POS_WEIGHTS pos in
  if Qeq_bool w 0 then Num (1 # 2) else Num w.

(** A word of [structureText] with the TF-IDF fields added. *)
Record EnrichedWord := mkEnriched {
  base : Word;
  tfidf : num;
  normalizedTfidf : num
}.

Inductive PriorityGroup := Immediate | Middle | Late.

Record PrioritizedWord := mkPrioritized {
  enriched : EnrichedWord;
  priority : num;
  priorityGroup : PriorityGroup
}.

Definition calculateSyntaxScore (word : EnrichedWord) (sentence : list EnrichedWord)
  : num :=
  let sentenceLength := length sentence in
  let relativePosition := div (of_nat (position (base word))) (of_nat sentenceLength) in
  match pos (base word) with
  | NOUN =>
      if lt relativePosition (Num (3 # 10)) then Num 1
      else if gt relativePosition (Num (5 # 10)) then Num (8 # 10)
      else Num (6 # 10)
  | VERB => Num (9 # 10)
  | ADJ | ADV => Num (3 # 10)
  | ADP | CONJ => Num (1 # 10)
  | _ => Num (5 # 10)
  end.

Definition calculateLocationScore (position sentenceLength : nat) : num :=
  if bool_decide (sentenceLength <= 1) then Num 1
  else sub (Num 1) (div (of_nat position) (of_nat sentenceLength)).

(** The location score [calculateWordPriority] computes for a word: the
    [position] field of the word against the sentence length. *)
Definition locationScore_of (word : EnrichedWord) (sentenceLength : nat) : num :=
  calculateLocationScore (position (base word)) sentenceLength.

Definition calculateWordPriority (word : EnrichedWord)
    (sentenceWords : list EnrichedWord) (sentenceLength : nat) : num :=
  let tfidfScore := or_zero (normalizedTfidf word) in
  let posScore := calculatePOSScore (pos (base word)) in
  let syntaxScore := calculateSyntaxScore word sentenceWords in
  let locationScore := locationScore_of word sentenceLength in
  let priority :=
    add (add (add (mul (Num (4 # 10)) tfidfScore) (mul (Num (3 # 10)) posScore))
             (mul (Num (2 # 10)) syntaxScore))
        (mul (Num (1 # 10)) locationScore) in
  max2 (Num 0) (min2 (Num 1) priority).

Definition getPriorityGroup (priority : num) : PriorityGroup :=
  if lt priority (Num (3 # 10)) then Immediate
  else if lt priority (Num (6 # 10)) then Middle
  else Late.

Section WithBuiltins.
Variable toLowerCase : jsstring -> jsstring.
Variable ln : Q -> Q.
Variable sentenceTokenizer : jsstring -> list jsstring.
Variable tokenizer : jsstring -> list jsstring.

Definition enrich (normalizedTfidfMap : Tfidf.TfidfMap) (word : Word) : EnrichedWord :=
  match Tfidf.map_get normalizedTfidfMap (toLowerCase (text word)) with
  | Some tfidfInfo =>
      mkEnriched word (Tfidf.tfidf tfidfInfo)
        (default (Num 0) (Tfidf.normalizedTfidf tfidfInfo))
  | None => mkEnriched word (Num 0) (Num 0)
  end.

(** [wordsBySentence]: the words of each sentence, in order. *)
Definition group_by_sentence (ws : list EnrichedWord) : gmap nat (list EnrichedWord) :=
  foldl (fun m w =>
           let k := sentence (base w) in
           <[k := default [] (m !! k) ++ [w]]> m)
        ∅ ws.

Definition prioritize (wordsBySentence : gmap nat (list EnrichedWord))
    (word : EnrichedWord) : PrioritizedWord :=
  let sentenceWords := default [] (wordsBySentence !! sentence (base word)) in
  let sentenceLength := length sentenceWords in
  let priority := calculateWordPriority word sentenceWords sentenceLength in
  mkPrioritized word priority (getPriorityGroup priority).

(** The array [wordsWithPriority] of [calculatePrioritiesForText], in
    document order, before it is sorted. *)
Definition wordsWithPriority (text : jsstring) : list PrioritizedWord :=
  let structured := structureText toLowerCase sentenceTokenizer tokenizer text in
  let tfidfMap :=
    Tfidf.computeTFIDFForText toLowerCase ln tokenizer text true 2 in
  let normalizedTfidfMap := Tfidf.normalizeTFIDF tfidfMap in
  let enrichedWords := enrich normalizedTfidfMap <$> words structured in
  let wordsBySentence := group_by_sentence enrichedWords in
  prioritize wordsBySentence <$> enrichedWords.

(** [wordsWithPriority.sort((a, b) => a.priority - b.priority)]: a stable
    sort, lowest priority first; a comparison with NaN counts as a tie. *)
Fixpoint insert_by_priority (x : PrioritizedWord) (l : list PrioritizedWord)
  : list PrioritizedWord :=
  match l with
  | [] => [x]
  | y :: l' =>
      if lt (priority y) (priority x) then y :: insert_by_priority x l'
      else x :: l
  end.

Definition sort_by_priority (l : list PrioritizedWord) : list PrioritizedWord :=
  foldr insert_by_priority [] l.

Definition calculatePrioritiesForText (text : jsstring) : list PrioritizedWord :=
  sort_by_priority (wordsWithPriority text).

(** The location score that enters the priority of each word of the
    text, in document order. *)
Definition locationScores (text : jsstring) : list (jsstring * num) :=
  let structured := structureText toLowerCase sentenceTokenizer tokenizer text in
  let tfidfMap :=
    Tfidf.computeTFIDFForText toLowerCase ln tokenizer text true 2 in
  let normalizedTfidfMap := Tfidf.normalizeTFIDF tfidfMap in
  let enrichedWords := enrich normalizedTfidfMap <$> words structured in
  let wordsBySentence := group_by_sentence enrichedWords in
  (fun w =>
     (TextProcessor.text (base w),
      locationScore_of w
        (length (default [] (wordsBySentence !! sentence (base w))))))
    <$> enrichedWords.

End WithBuiltins.

(** [words] is sorted by ascending priority by the caller. *)
Definition selectWordsToRemove {A : Type} (words : list A) (targetCompressionRate : Q)
  : list A * list A :=
  let totalWords := of_nat (length words) in
  let targetWordCount := Math_floor_num (mul64 totalWords (Num targetCompressionRate)) in
  let removeCount := sub64 totalWords targetWordCount in
  let toRemove := slice_num words (Num 0) removeCount in
  let toKeep := slice_from_num words removeCount in
  (toKeep, toRemove).


Record Groups := mkGroups {
  immediate : list PrioritizedWord;
  middle : list PrioritizedWord;
  late : list PrioritizedWord
}.

(** [groups[word.priorityGroup].push(word)] *)
Definition push_group (groups : Groups) (word : PrioritizedWord) : Groups :=
  match priorityGroup word with
  | Immediate => mkGroups (immediate groups ++ [word]) (middle groups) (late groups)
  | Middle => mkGroups (immediate groups) (middle groups ++ [word]) (late groups)
  | Late => mkGroups (immediate groups) (middle groups) (late groups ++ [word])
  end.

Definition groupWordsByPriority (words : list PrioritizedWord) : Groups :=
  foldl push_group (mkGroups [] [] []) words.

Record PriorityStats := mkPriorityStats {
  stats_count : nat;
  stats_average : num;
  stats_min : num;
  stats_max : num;
  stats_median : option num   (* [undefined] when there is no word *)
}.

Definition calculatePriorityStats (words : list PrioritizedWord) : PriorityStats :=
  let priorities := priority <$> words in
  mkPriorityStats (length words)
    (div64 (foldl add64 (Num 0) priorities) (of_nat (length priorities)))
    (Math_min priorities)
    (Math_max priorities)
    (sort_stable lt priorities !! (length priorities / 2)).

(** The sort puts the higher priority first. *)
Definition identifyCoreKeywords (words : list PrioritizedWord) (topPercent : Q)
  : list PrioritizedWord :=
  let sortedByPriority := sort_stable (fun y x => lt (priority x) (priority y)) words in
  let count :=
    Math_ceil_num (mul64 (of_nat (length words)) (div64 (Num topPercent) (Num 100))) in
  slice_num sortedByPriority (Num 0) count.

End PriorityCalculator.

(** ** The word matcher (fast path) *)

Module WordMatcher.

Record Morph := mkMorph {
  source : jsstring;
  target : jsstring;
  similarity : Q
}.

Record TransitionDiff := mkDiff {
  kept : list jsstring;
  removed : list jsstring;
  added : list jsstring;
  morphed : list Morph
}.

Section WithLowerCase.
Variable toLowerCase : jsstring -> jsstring.

Definition findExactMatches (sourceWords targetWords : list jsstring) : list jsstring :=
  let sourceSet := new_Set (toLowerCase <$> sourceWords) in
  let targetSet := new_Set (toLowerCase <$> targetWords) in
  foldl (fun matches word =>
           if set_has targetSet word then set_add matches word else matches)
        [] sourceSet.

(** The words of one text that are not exact matches, each once. *)
Definition unmatched (exactMatchesSet ws : list jsstring) : list jsstring :=
  foldl (fun acc w =>
           if negb (set_has exactMatchesSet w) then set_add acc w else acc)
        [] ws.

Definition analyzeDifference (sourceText targetText : jsstring) : TransitionDiff :=
  let sourceWords := toLowerCase <$> words_of sourceText in
  let targetWords := toLowerCase <$> words_of targetText in
  let exactMatchesSet := findExactMatches sourceWords targetWords in
  let kept := exactMatchesSet in
  let removed := unmatched exactMatchesSet sourceWords in
  let added := unmatched exactMatchesSet targetWords in
  mkDiff kept removed added [].

End WithLowerCase.

(** *** Similar words and the detailed path *)

(** One entry of [findSimilarMatches]. *)
Record SimilarMatch := mkSimilar {
  sm_source : jsstring;
  sm_target : jsstring;
  sm_similarity : num
}.

(** A source word of the detailed path with its index in the source. *)
Record IndexedWord := mkIndexed {
  iw_word : TextProcessor.Word;
  originalIndex : nat
}.

Record DetailedMorph := mkDetailedMorph {
  dm_from : IndexedWord;
  dm_to : TextProcessor.Word;
  dm_similarity : num
}.

Record DetailedDiff := mkDetailed {
  d_kept : list IndexedWord;
  d_removed : list IndexedWord;
  d_added : list TextProcessor.Word;
  d_morphed : list DetailedMorph
}.

(** The loop of [calculateSemanticSimilarity] that counts the leading
    positions at which the two words agree. *)
Fixpoint commonPrefix (w1 w2 : jsstring) : nat :=
  match w1, w2 with
  | c1 :: w1', c2 :: w2' => if bool_decide (c1 = c2) then S (commonPrefix w1' w2') else 0
  | _, _ => 0
  end.

Section Similarity.
Variable toLowerCase : jsstring -> jsstring.
(** [natural.LevenshteinDistance] *)
Variable levenshteinDistance : jsstring -> jsstring -> nat.

Definition calculateLevenshteinSimilarity (word1 word2 : jsstring) : num :=
  let distance := levenshteinDistance word1 word2 in
  let maxLength := Nat.max (length word1) (length word2) in
  if bool_decide (maxLength = 0) then Num 1
  else sub (Num 1) (div (of_nat distance) (of_nat maxLength)).

Definition calculateSemanticSimilarity (word1 word2 : jsstring) : num :=
  let w1 := toLowerCase word1 in
  let w2 := toLowerCase word2 in
  if bool_decide (w1 = w2) then Num 1
  else if str_includes w1 w2 || str_includes w2 w1 then
    let shorter := Nat.min (length w1) (length w2) in
    let longer := Nat.max (length w1) (length w2) in
    div (of_nat shorter) (of_nat longer)
  else
    let commonPrefix := commonPrefix w1 w2 in
    if bool_decide (3 <= commonPrefix)
    then div (of_nat commonPrefix) (of_nat (Nat.max (length w1) (length w2)))
    else Num 0.

Definition calculateWordSimilarity (word1 word2 : jsstring) : num :=
  let levenshteinSim := calculateLevenshteinSimilarity word1 word2 in
  let semanticSim := calculateSemanticSimilarity word1 word2 in
  add (mul (Num (4 # 10)) levenshteinSim) (mul (Num (6 # 10)) semanticSim).

(** The inner loop over the target words: the best candidate so far and
    its similarity. [text] reads the string of a candidate. *)
Definition best_step {T : Type} (text : T -> jsstring) (threshold : num)
    (srcWord : jsstring) (best : option T * num) (tgtWord : T) : option T * num :=
  let similarity := calculateWordSimilarity srcWord (text tgtWord) in
  if gt similarity best.2 && ge similarity threshold
  then (Some tgtWord, similarity)
  else best.

Definition best_match {T : Type} (text : T -> jsstring) (threshold : num)
    (srcWord : jsstring) (targetWords : list T) : option T * num :=
  foldl (best_step text threshold srcWord) (None, Num 0) targetWords.

(** [if (bestMatch)]: a target that is the empty string is dropped. *)
Definition findSimilarMatches (sourceWords targetWords : list jsstring) (threshold : num)
  : list SimilarMatch :=
  foldl (fun matches srcWord =>
           match best_match id threshold srcWord targetWords with
           | (Some bestMatch, maxSimilarity) =>
               if truthy bestMatch
               then matches ++ [mkSimilar srcWord bestMatch maxSimilarity]
               else matches
           | (None, _) => matches
           end)
        [] sourceWords.

(** The three arrays the loop over the source words fills. *)
Definition detailed_step (exactMatches : list jsstring)
    (targetWords : list TextProcessor.Word)
    (acc : list IndexedWord * list IndexedWord * list DetailedMorph)
    (word : TextProcessor.Word) (index : nat)
  : list IndexedWord * list IndexedWord * list DetailedMorph :=
  let '(kept, removed, morphed) := acc in
  let wordText := toLowerCase (TextProcessor.text word) in
  if set_has exactMatches wordText
  then (kept ++ [mkIndexed word index], removed, morphed)
  else
    match best_match TextProcessor.text (Num (6 # 10)) (TextProcessor.text word)
            targetWords with
    | (Some bestMatch, maxSimilarity) =>
        (kept, removed,
         morphed ++ [mkDetailedMorph (mkIndexed word index) bestMatch maxSimilarity])
    | (None, _) => (kept, removed ++ [mkIndexed word index], morphed)
    end.

(** [sourceWords] and [targetWords] are the [words] of the two structured
    texts. *)
Definition analyzeDetailedDifference (sourceWords targetWords : list TextProcessor.Word)
  : DetailedDiff :=
  let sourceTexts := (fun w => toLowerCase (TextProcessor.text w)) <$> sourceWords in
  let targetTexts := (fun w => toLowerCase (TextProcessor.text w)) <$> targetWords in
  let exactMatches := findExactMatches toLowerCase sourceTexts targetTexts in
  let '(kept, removed, morphed) :=
    forEach_indexed (detailed_step exactMatches targetWords) sourceWords 0 ([], [], []) in
  let keptTexts :=
    new_Set ((fun w => toLowerCase (TextProcessor.text (iw_word w))) <$> kept) in
  let morphedTargetTexts :=
    new_Set ((fun m => toLowerCase (TextProcessor.text (dm_to m))) <$> morphed) in
  let added :=
    filter (fun word =>
              let wordText := toLowerCase (TextProcessor.text word) in
              negb (set_has keptTexts wordText)
              && negb (set_has morphedTargetTexts wordText) = true)
           targetWords in
  mkDetailed kept removed added morphed.

End Similarity.

End WordMatcher.

(** ** The client: re-projection of a diff on the rendered words *)

Module App.
Import WordMatcher.

(** A value stored under a key of a counter object: a number, or text
    that is not a number (what [+ 1] makes of an inherited function or
    object). *)
Inductive propval := PNum (n : Z) | PText.

(** The property names every object inherits from [Object.prototype]. *)
Definition Object_prototype_keys : list jsstring :=
  lit <$> ["constructor"; "__proto__"; "hasOwnProperty"; "isPrototypeOf";
           "propertyIsEnumerable"; "toLocaleString"; "toString"; "valueOf";
           "__defineGetter__"; "__defineSetter__"; "__lookupGetter__";
           "__lookupSetter__"]%string.

(** [o[k]] on an object created by [{}]: an own property, else an
    inherited one (a function or an object), else [undefined]. *)
Definition obj_get (o : gmap jsstring propval) (k : jsstring) : option propval :=
  match o !! k with
  | Some v => Some v
  | None => if bool_decide (k ∈ Object_prototype_keys) then Some PText else None
  end.

(** [o[k] = v]: the setter of [__proto__] ignores a value that is not an
    object. *)
Definition obj_set (o : gmap jsstring propval) (k : jsstring) (v : propval)
  : gmap jsstring propval :=
  if bool_decide (k = lit "__proto__") then o else <[k := v]> o.

(** [(x || 0) + 1] *)
Definition or0_plus1 (x : option propval) : propval :=
  match x with
  | None => PNum 1
  | Some (PNum n) => PNum (n + 1)
  | Some PText => PText
  end.

(** [x > 0] *)
Definition gt0 (x : option propval) : bool :=
  match x with
  | Some (PNum n) => (0 <? n)%Z
  | _ => false
  end.

(** [o[k]--] *)
Definition obj_decr (o : gmap jsstring propval) (k : jsstring) : gmap jsstring propval :=
  match obj_get o k with
  | Some (PNum n) => obj_set o k (PNum (n - 1))
  | _ => o
  end.

Record WordRef := mkRef {
  word : jsstring;
  index : nat
}.

Record MorphRef := mkMorphRef {
  from : WordRef;
  to : WordRef;
  m_similarity : Q
}.

Record Transformed := mkTransformed {
  t_kept : list WordRef;
  t_removed : list WordRef;
  t_added : list WordRef;
  t_morphed : list MorphRef
}.

(** The state of one matching walk: the remaining counts, the used
    indices and the references pushed so far. *)
Record Walk := mkWalk {
  counts : gmap jsstring propval;
  used : gset nat;
  out : list WordRef
}.

Section WithLowerCase.
Variable toLowerCase : jsstring -> jsstring.

(** One entry of a list of the diff:
    [counts[word] = (counts[word] || 0) + 1]. *)
Definition count_step (counts : gmap jsstring propval) (w : jsstring)
  : gmap jsstring propval :=
  let word := toLowerCase w in
  obj_set counts word (or0_plus1 (obj_get counts word)).

(** The per-word counts of a list of the diff. *)
Definition wordCounts (l : list jsstring) : gmap jsstring propval :=
  foldl count_step ∅ l.

Definition match_step (st : Walk) (word : jsstring) (index : nat) : Walk :=
  let lowerWord := toLowerCase word in
  if gt0 (obj_get (counts st) lowerWord) && negb (bool_decide (index ∈ used st))
  then mkWalk (obj_decr (counts st) lowerWord) ({[index]} ∪ used st)
         (out st ++ [mkRef word index])
  else st.

(** One category: count the words of the diff's list, then walk the
    rendered words. *)
Definition match_words (diffList rendered : list jsstring) (usedIndices : gset nat)
  : Walk :=
  forEach_indexed match_step rendered 0 (mkWalk (wordCounts diffList) usedIndices []).

Definition transform_morph (fromWords toWords : list jsstring)
    (acc : list MorphRef) (morph : Morph) : list MorphRef :=
  let sourceWordLower := toLowerCase (source morph) in
  let targetWordLower := toLowerCase (target morph) in
  if negb (truthy sourceWordLower) || negb (truthy targetWordLower) then acc
  else
    match findIndex (fun w => bool_decide (toLowerCase w = sourceWordLower)) fromWords,
          findIndex (fun w => bool_decide (toLowerCase w = targetWordLower)) toWords with
    | Some fromIdx, Some toIdx =>
        acc ++ [mkMorphRef (mkRef (default [] (fromWords !! fromIdx)) fromIdx)
                           (mkRef (default [] (toWords !! toIdx)) toIdx)
                           (similarity morph)]
    | _, _ => acc
    end.

(** The server's fast path answers with arrays of strings. *)
Definition transformDiffData (diffData : TransitionDiff) (fromText toText : jsstring)
  : Transformed :=
  let fromWords := words_of fromText in
  let toWords := words_of toText in
  let keptWalk := match_words (kept diffData) toWords ∅ in
  let addedWalk := match_words (added diffData) toWords (used keptWalk) in
  let removedWalk := match_words (removed diffData) fromWords ∅ in
  mkTransformed (out keptWalk) (out removedWalk) (out addedWalk)
    (foldl (transform_morph fromWords toWords) [] (morphed diffData)).

End WithLowerCase.


(** *** The words [displayText] renders *)

(** Whether the run of white space at the head of [s] has a line feed. *)
Fixpoint ws_run_has_lf (s : jsstring) : bool :=
  match s with
  | [] => false
  | c :: s' => if (c =? 10)%N then true else if is_ws c then ws_run_has_lf s' else false
  end.

(** [text.split(/\n\s*\n/)]: a separator runs from a line feed to the last
    line feed of the white space that follows it. [in_sep] tells that a
    separator is being skipped. *)
Fixpoint split_paragraphs_from (s cur : jsstring) (in_sep : bool) : list jsstring :=
  match s with
  | [] => [cur]
  | c :: s' =>
      if in_sep
      then (if ws_run_has_lf s then split_paragraphs_from s' [] true
            else split_paragraphs_from s' [c] false)
      else if (c =? 10)%N && ws_run_has_lf s'
      then cur :: split_paragraphs_from s' [] true
      else split_paragraphs_from s' (cur ++ [c]) false
  end.

(** The words of the [span] elements in document order: the span of the
    word at position [i] of this list carries [data-index = i]. *)
Definition displayText_words (text : jsstring) : list jsstring :=
  let paragraphs := split_paragraphs_from text [] false in
  foldl (fun rendered paragraph =>
           if truthy (trim paragraph)
           then rendered ++ filter (fun word => truthy (trim word) = true) (split_ws paragraph)
           else rendered)
        [] paragraphs.

End App.

(** ** The client state manager *)

Module StateManager.

Inductive Event :=
| LevelChange (oldLevel newLevel : Z)
| TextChange (level : Z) (text : jsstring)
| AnimationStateChange (isAnimating : bool).

(** One call of [notifyListeners]: the event and the registered callbacks
    it is handed to, in order. The callbacks are the caller's: what they
    do is not part of the state manager. *)
Record Notice := mkNotice {
  n_event : Event;
  n_callbacks : list nat
}.

Record Listeners := mkListeners {
  levelChange : list nat;
  textChange : list nat;
  animationStateChange : list nat
}.

Record AppState := mkAppState {
  currentLevel : Z;
  texts : gmap Z jsstring;
  metadata : gmap Z jsstring;
  isAnimating : bool;
  viewportAnchor : option jsstring * Z;
  cache : gmap jsstring jsstring;
  originalText : option jsstring;
  listeners : Listeners
}.

Definition getLevel (st : AppState) : Z := currentLevel st.

Definition set_currentLevel (newLevel : Z) (st : AppState) : AppState :=
  mkAppState newLevel (texts st) (metadata st) (isAnimating st)
    (viewportAnchor st) (cache st) (originalText st) (listeners st).

Definition notify_levelChange (st : AppState) (oldLevel newLevel : Z) : list Notice :=
  [mkNotice (LevelChange oldLevel newLevel) (levelChange (listeners st))].

Section WithParseInt.
(** The argument of [setLevel] is whatever the caller passes; the
    built-in [parseInt] makes an integer of it, or NaN or an infinity
    ([None]). *)
Variable Arg : Type.
Variable parseInt : Arg -> option Z.

(** [[0, 1, 2, 3].includes(newLevel)] *)
Definition valid_level (newLevel : option Z) : bool :=
  match newLevel with
  | Some n => bool_decide (n ∈ [0; 1; 2; 3]%Z)
  | None => false
  end.

(** The result, the state after the call and the notifications sent
    during it. *)
Definition setLevel (level : Arg) (st : AppState) : bool * AppState * list Notice :=
  let newLevel := parseInt level in
  if negb (valid_level newLevel) then (false, st, [])
  else
    match newLevel with
    | Some newLevel =>
        if bool_decide (currentLevel st = newLevel) then (false, st, [])
        else
          let oldLevel := currentLevel st in
          let st := set_currentLevel newLevel st in
          (true, st, notify_levelChange st oldLevel newLevel)
    | None => (false, st, [])
    end.

End WithParseInt.

Arguments setLevel {Arg} parseInt level st.

(** [parseInt(s)] of a string, without a radix: leading white space, a
    sign, an optional [0x] prefix, then the longest run of digits. *)
Definition digit_value (radix : Z) (c : N) : option Z :=
  let v :=
    if (48 <=? c)%N && (c <=? 57)%N then Some (Z.of_N c - 48)%Z
    else if (97 <=? c)%N && (c <=? 122)%N then Some (Z.of_N c - 87)%Z
    else if (65 <=? c)%N && (c <=? 90)%N then Some (Z.of_N c - 55)%Z
    else None in
  match v with
  | Some d => if (d <? radix)%Z then Some d else None
  | None => None
  end.

Fixpoint parse_digits (radix : Z) (s : jsstring) (acc : option Z) : option Z :=
  match s with
  | [] => acc
  | c :: s' =>
      match digit_value radix c with
      | Some d => parse_digits radix s' (Some (default 0 acc * radix + d)%Z)
      | None => acc
      end
  end.

Definition parseInt_string (s : jsstring) : option Z :=
  let s := trimStart s in
  let '(sign, s) :=
    match s with
    | 45%N :: s' => ((-1)%Z, s')
    | 43%N :: s' => (1%Z, s')
    | _ => (1%Z, s)
    end in
  let '(radix, s) :=
    match s with
    | 48%N :: (120%N | 88%N) :: s' => (16%Z, s')
    | _ => (10%Z, s)
    end in
  (fun n => (sign * n)%Z) <$> parse_digits radix s None.


(** *** The other operations of the state manager *)

(** [parseInt(n)] of an integer-valued number: the number itself while its
    decimal form has no exponent (below 10^21), its leading digit
    otherwise. *)
Fixpoint leading_digit (fuel : nat) (n : Z) : Z :=
  match fuel with
  | O => n
  | S fuel' => if (n <? 10)%Z then n else leading_digit fuel' (n / 10)%Z
  end.

Definition parseInt_number (n : Z) : option Z :=
  if (Z.abs n <? 10 ^ 21)%Z then Some n
  else Some (Z.sgn n * leading_digit (Z.to_nat (Z.log2 (Z.abs n))) (Z.abs n))%Z.

(** An argument that should be a string. *)
Inductive TextArg := TString (s : jsstring) | TOther.

(** An argument that should be a function; functions are told apart by an
    identifier. *)
Inductive CallbackArg := Fn (id : nat) | NotFn.

(** A call either returns, leaving a state, or throws a TypeError. *)
Inductive Outcome := Done (st : AppState) | Throws.

(** [texts.get(level) || null]: an empty text reads as none. *)
Definition getText (level : Z) (st : AppState) : option jsstring :=
  match texts st !! level with
  | Some text => if truthy text then Some text else None
  | None => None
  end.

Definition getCurrentText (st : AppState) : option jsstring :=
  getText (currentLevel st) st.

(** [metadata] is [None] for a call without metadata (or with null). *)
Definition setText (level : Z) (text : TextArg) (metadata : option jsstring)
    (st : AppState) : bool * AppState * list Notice :=
  match text with
  | TOther => (false, st, [])
  | TString text =>
      let st :=
        mkAppState (currentLevel st) (<[level := text]> (texts st))
          (match metadata with
           | Some m => <[level := m]> (StateManager.metadata st)
           | None => StateManager.metadata st
           end)
          (isAnimating st) (viewportAnchor st) (cache st) (originalText st)
          (listeners st) in
      (true, st, [mkNotice (TextChange level text) (textChange (listeners st))])
  end.

Definition setOriginalText (text : jsstring) (st : AppState) : AppState * list Notice :=
  let st :=
    mkAppState (currentLevel st) (texts st) (metadata st) (isAnimating st)
      (viewportAnchor st) (cache st) (Some text) (listeners st) in
  let '(_, st, notices) := setText 0 (TString text) None st in
  (st, notices).

Definition getOriginalText (st : AppState) : option jsstring := originalText st.

Definition getMetadata (level : Z) (st : AppState) : option jsstring :=
  metadata st !! level.

Definition setAnimating (animating : bool) (st : AppState) : AppState * list Notice :=
  let wasAnimating := isAnimating st in
  let st :=
    mkAppState (currentLevel st) (texts st) (metadata st) animating
      (viewportAnchor st) (cache st) (originalText st) (listeners st) in
  if negb (eqb wasAnimating (isAnimating st))
  then (st, [mkNotice (AnimationStateChange (isAnimating st))
               (animationStateChange (listeners st))])
  else (st, []).

Definition setViewportAnchor (word : jsstring) (offset : Z) (st : AppState) : AppState :=
  mkAppState (currentLevel st) (texts st) (metadata st) (isAnimating st)
    (Some word, offset) (cache st) (originalText st) (listeners st).

Definition clearViewportAnchor (st : AppState) : AppState :=
  mkAppState (currentLevel st) (texts st) (metadata st) (isAnimating st)
    (None, 0%Z) (cache st) (originalText st) (listeners st).

Definition with_cache (c : gmap jsstring jsstring) (st : AppState) : AppState :=
  mkAppState (currentLevel st) (texts st) (metadata st) (isAnimating st)
    (viewportAnchor st) c (originalText st) (listeners st).

Definition setCache (key value : jsstring) (st : AppState) : AppState :=
  with_cache (<[key := value]> (cache st)) st.
Definition getCache (key : jsstring) (st : AppState) : option jsstring := cache st !! key.
Definition hasCache (key : jsstring) (st : AppState) : bool :=
  bool_decide (is_Some (cache st !! key)).
Definition clearCache (st : AppState) : AppState := with_cache ∅ st.

(** [AppState.listeners[event]]: one of the three arrays, a property every
    object inherits (truthy, but no array), or nothing. *)
Inductive ListenerSlot := Slot (callbacks : list nat) | Inherited | Missing.

Definition listeners_get (l : Listeners) (event : jsstring) : ListenerSlot :=
  if bool_decide (event = lit "levelChange") then Slot (levelChange l)
  else if bool_decide (event = lit "textChange") then Slot (textChange l)
  else if bool_decide (event = lit "animationStateChange")
  then Slot (animationStateChange l)
  else if bool_decide (event ∈ App.Object_prototype_keys) then Inherited
  else Missing.

(** The array under [event] replaced; [event] is one of the three names. *)
Definition listeners_set (l : Listeners) (event : jsstring) (callbacks : list nat)
  : Listeners :=
  if bool_decide (event = lit "levelChange")
  then mkListeners callbacks (textChange l) (animationStateChange l)
  else if bool_decide (event = lit "textChange")
  then mkListeners (levelChange l) callbacks (animationStateChange l)
  else mkListeners (levelChange l) (textChange l) callbacks.

Definition with_listeners (l : Listeners) (st : AppState) : AppState :=
  mkAppState (currentLevel st) (texts st) (metadata st) (isAnimating st)
    (viewportAnchor st) (cache st) (originalText st) l.

Definition addEventListener (event : jsstring) (callback : CallbackArg) (st : AppState)
  : Outcome :=
  match listeners_get (listeners st) event with
  | Missing => Done st
  | slot =>
      match callback with
      | NotFn => Done st
      | Fn id =>
          match slot with
          | Slot callbacks =>
              Done (with_listeners
                      (listeners_set (listeners st) event (callbacks ++ [id])) st)
          | _ => Throws
          end
      end
  end.

(** [callbacks.indexOf(callback)] and [callbacks.splice(index, 1)] *)
Fixpoint remove_first (id : nat) (callbacks : list nat) : list nat :=
  match callbacks with
  | [] => []
  | c :: callbacks' => if bool_decide (c = id) then callbacks' else c :: remove_first id callbacks'
  end.

Definition removeEventListener (event : jsstring) (callback : CallbackArg) (st : AppState)
  : Outcome :=
  match listeners_get (listeners st) event with
  | Missing => Done st
  | Inherited => Throws
  | Slot callbacks =>
      match callback with
      | NotFn => Done st
      | Fn id =>
          Done (with_listeners
                  (listeners_set (listeners st) event (remove_first id callbacks)) st)
      end
  end.

Definition resetState (st : AppState) : AppState :=
  mkAppState 0 ∅ ∅ false (None, 0%Z) ∅ None (listeners st).

Definition canGoToNextLevel (st : AppState) : bool :=
  (currentLevel st <? 3)%Z && negb (isAnimating st).

Definition canGoToPreviousLevel (st : AppState) : bool :=
  (0 <? currentLevel st)%Z && negb (isAnimating st).

End StateManager.

(** ** The gesture controller: the pinch mapping *)

Module Gestures.
#[local] Open Scope Q_scope.

Definition minScale : Q := 5 # 10.
Definition maxScale : Q := 2.
Definition threshold : Q := 15 # 100.

(** The continuous level of a scale. *)
Definition rawLevel (scale : Q) : Q :=
  let clampedScale := Qmax minScale (Qmin maxScale scale) in
  let normalized := (clampedScale - minScale) / (maxScale - minScale) in
  3 - normalized * 3.

(** [currentLevel] is what [StateManager.getLevel()] answers. *)
Definition scaleToLevel (scale : Q) (currentLevel : Z) : Z :=
  let rawLevel := rawLevel scale in
  let levelDiff := Qabs (rawLevel - inject_Z currentLevel) in
  if Qle_bool threshold levelDiff then Math_round rawLevel
  else currentLevel.


(** *** The inverse mapping and the buttons *)

Definition levelToScale (level : Q) : Q :=
  let normalized := (3 - level) / 3 in
  minScale + normalized * (maxScale - minScale).

(** The level is passed on as a number. *)
Definition changeLevelWithAnimation (newLevel : Z) (st : StateManager.AppState)
  : StateManager.AppState * list StateManager.Notice :=
  if StateManager.isAnimating st then (st, [])
  else
    let currentLevel := StateManager.getLevel st in
    if (newLevel =? currentLevel)%Z then (st, [])
    else
      let '(_, st, notices) :=
        StateManager.setLevel StateManager.parseInt_number newLevel st in
      (st, notices).

(** A click on "+" and on "-": the cooldown flag after the click, the state
    and the notifications. The flag is cleared by a timer 300 ms later. *)
Definition handleLevelUp (buttonCooldown : bool) (st : StateManager.AppState)
  : bool * StateManager.AppState * list StateManager.Notice :=
  if buttonCooldown then (buttonCooldown, st, [])
  else
    let currentLevel := StateManager.getLevel st in
    let newLevel := Z.min 3 (currentLevel + 1) in
    if negb (newLevel =? currentLevel)%Z
    then let '(st, notices) := changeLevelWithAnimation newLevel st in
         (true, st, notices)
    else (buttonCooldown, st, []).

Definition handleLevelDown (buttonCooldown : bool) (st : StateManager.AppState)
  : bool * StateManager.AppState * list StateManager.Notice :=
  if buttonCooldown then (buttonCooldown, st, [])
  else
    let currentLevel := StateManager.getLevel st in
    let newLevel := Z.max 0 (currentLevel - 1) in
    if negb (newLevel =? currentLevel)%Z
    then let '(st, notices) := changeLevelWithAnimation newLevel st in
         (true, st, notices)
    else (buttonCooldown, st, []).

End Gestures.

(** ** client/js/animator.js: the parameters of a transition *)

Module Animator.
#[local] Open Scope Q_scope.

Definition largeTransitionThreshold : nat := 3000%nat.
Definition samplingRate_large : Q := 5 # 10.
Definition stagger_amount : Q := 4 # 10.

(** The re-projected diff as the animator receives it; a list may be
    missing. *)
Record DiffData := mkDiffData {
  added : option (list App.WordRef);
  kept : option (list App.WordRef);
  removed : option (list App.WordRef)
}.

(** [l?.length || 0] *)
Definition length_or0 {A : Type} (l : option (list A)) : nat :=
  match l with Some l => length l | None => 0%nat end.

Definition isLargeTransition (diffData : DiffData) : bool :=
  let totalWords := (length_or0 (added diffData) + length_or0 (kept diffData))%nat in
  bool_decide (largeTransitionThreshold <= totalWords)%nat.

Inductive Direction := Out | In.

Record TimelineParams := mkParams {
  addedSamplingRate : Q;
  keptSamplingRate : Q;
  totalAnimatedWords : nat;
  durationMultiplier : Q;
  adjustedStaggerAmount : Q
}.

(** The numbers [executeTimeline] derives from the diff and the direction
    before it builds the timeline. *)
Definition executeTimeline_params (diffData : DiffData) (direction : Direction)
  : TimelineParams :=
  let isZoomOut := match direction with Out => true | In => false end in
  let '(addedSamplingRate, keptSamplingRate) :=
    if isLargeTransition diffData
    then (if isZoomOut then (1, 7 # 10) else (samplingRate_large, 0))
    else (1, 0) in
  let totalAnimatedWords :=
    (length_or0 (added diffData) + length_or0 (kept diffData)
     + length_or0 (removed diffData))%nat in
  let durationMultiplier :=
    Qmax (3 # 10) (Qmin 1 (inject_Z (Z.of_nat totalAnimatedWords) / 100)) in
  mkParams addedSamplingRate keptSamplingRate totalAnimatedWords
    durationMultiplier (stagger_amount * durationMultiplier).


(** *** Viewport filtering and sampling *)

Definition onlyAnimateInViewport : bool := true.
Definition samplingEnabled : bool := true.

Section Sampling.
(** Whether the word element of an index exists and its box meets the
    viewport with its margin. *)
Variable visible : nat -> bool.
(** [[...l].sort(() => Math.random() - 0.5)] *)
Variable shuffle : list nat -> list nat.

Definition filterAndSampleWords (wordIndices : list nat) (samplingRate : Q) : list nat :=
  let filteredIndices :=
    if onlyAnimateInViewport
    then filter (fun index => visible index = true) wordIndices
    else wordIndices in
  if samplingEnabled && negb (Qle_bool 1 samplingRate)
  then
    let targetCount :=
      Math_floor_num (mul64 (of_nat (length filteredIndices)) (Num samplingRate)) in
    slice_num (shuffle filteredIndices) (Num 0) targetCount
  else filteredIndices.

End Sampling.

End Animator.

(** * Vocabulary of the statements *)

(** The levels [setLevel] accepts when the current one is [cur]. *)
Definition accepted (cur : Z) (n : Z) : Prop :=
  n ∈ [0; 1; 2; 3]%Z /\ n <> cur.

(** The doubles of the Standard Library's [SpecFloat], binary64 being
    [prec = 53] and [emax = 1024], to compare [round64] with: the value of a
    finite one, the double nearest to a fraction, and whether an operation
    on two of them gives the rounded exact result. *)
Definition spec_float_value (x : SpecFloat.spec_float) : option Q :=
  match x with
  | SpecFloat.S754_zero _ => Some 0%Q
  | SpecFloat.S754_finite s m e =>
      Some ((if s then - (1) else 1) * inject_Z (Z.pos m) * 2 ^ e)%Q
  | _ => None
  end.

Definition spec_double (n : Z) (d : positive) : SpecFloat.spec_float :=
  SpecFloat.SFdiv 53 1024
    (SpecFloat.binary_normalize 53 1024 n 0 false)
    (SpecFloat.binary_normalize 53 1024 (Z.pos d) 0 false).

Definition agrees_with_spec_float
    (op : SpecFloat.spec_float -> SpecFloat.spec_float -> SpecFloat.spec_float)
    (exact : Q -> Q -> Q) (x y : SpecFloat.spec_float) : bool :=
  match spec_float_value x, spec_float_value y, spec_float_value (op x y) with
  | Some a, Some b, Some c => Qeq_bool (round64 (exact a b)) c
  | _, _, _ => false
  end.

(** [clamp(x, lo, hi)] as the specification writes it. *)
Definition clamp (x lo hi : Q) : Q :=
  if Qlt_le_dec x lo then lo else if Qlt_le_dec hi x then hi else x.

(** Stand-ins for the two tokenizers of the [natural] package, enough for
    plain English prose: a sentence ends at a full stop, and a word is a
    maximal run of letters, digits and underscores. *)
Fixpoint sentences_at_full_stops (s cur : jsstring) : list jsstring :=
  match s with
  | [] => if truthy (trim cur) then [trim cur] else []
  | c :: s' =>
      if (c =? 46)%N then trim (cur ++ [c]) :: sentences_at_full_stops s' []
      else sentences_at_full_stops s' (cur ++ [c])
  end.

Definition is_natural_word_char (c : N) : bool :=
  TextProcessor.is_ascii_letter c || TextProcessor.is_digit c || (c =? 95)%N
  || ((1040 <=? c)%N && (c <=? 1103)%N).

Fixpoint runs_of_word_chars (s cur : jsstring) : list jsstring :=
  match s with
  | [] => if truthy cur then [cur] else []
  | c :: s' =>
      if is_natural_word_char c then runs_of_word_chars s' (cur ++ [c])
      else if truthy cur then cur :: runs_of_word_chars s' []
      else runs_of_word_chars s' []
  end.

Definition plain_sentenceTokenizer (s : jsstring) : list jsstring :=
  sentences_at_full_stops s [].
Definition plain_tokenizer (s : jsstring) : list jsstring :=
  runs_of_word_chars s [].

(** The location score the specification describes: the position of the
    word inside its own sentence against the length of that sentence. *)
Definition locationScore_in_sentence (positionInSentence sentenceLength : nat) : num :=
  if bool_decide (sentenceLength <= 1) then Num 1
  else Num (1 - inject_Z (Z.of_nat positionInSentence) / inject_Z (Z.of_nat sentenceLength)).

(** The words built so far are numbered 0, 1, 2, ... across sentences and
    paragraphs, and the counter is their number. *)
Definition numbered (b : TextProcessor.Builder) : Prop :=
  TextProcessor.wordPosition b = length (TextProcessor.allWords b)
  /\ TextProcessor.position <$> TextProcessor.allWords b
     = seq 0 (length (TextProcessor.allWords b)).

(** The number stored under [w], 0 when there is none. *)
Definition count_of (m : gmap jsstring App.propval) (w : jsstring) : Z :=
  match App.obj_get m w with Some (App.PNum n) => n | _ => 0%Z end.

Definition numeric (m : gmap jsstring App.propval) (w : jsstring) : Prop :=
  App.obj_get m w <> Some App.PText.

(** An inherited key never holds a number: it reads as text before and
    after [(x || 0) + 1] is stored under it. *)
Definition inherited_text (m : gmap jsstring App.propval) : Prop :=
  forall w, w ∈ App.Object_prototype_keys -> App.obj_get m w = Some App.PText.

Section Counting.
Variable toLowerCase : jsstring -> jsstring.

(** How often the lower-case word [w] occurs in a list of words. *)
Definition occurrences (w : jsstring) (l : list jsstring) : nat :=
  length (filter (fun x => toLowerCase x = w) l).

(** How many references of a category are occurrences of [w]. *)
Definition assigned (w : jsstring) (refs : list App.WordRef) : nat :=
  length (filter (fun r => toLowerCase (App.word r) = w) refs).

(** The occurrences of [w] in the rendered words [ws], the first of which
    has index [i], at an index outside [U]. *)
Fixpoint available (w : jsstring) (ws : list jsstring) (i : nat) (U : gset nat) : nat :=
  match ws with
  | [] => 0
  | x :: ws' =>
      (if bool_decide (toLowerCase x = w /\ (i ∉ U)) then 1 else 0)
      + available w ws' (S i) U
  end.

End Counting.

(** ** Tokens, orders and scores *)

(** A code unit that is not white space. *)
Definition nonspace (c : N) : bool := negb (is_ws c).

(** The order of two numbers. *)
Definition num_le (x y : num) : Prop := le x y = true.

(** What normalisation does to one entry: key and raw fields stay, the
    normalised score is a number from 0 to 1. *)
Definition normalized_entry (before after : jsstring * Tfidf.Item) : Prop :=
  after.1 = before.1
  /\ (Tfidf.word after.2, Tfidf.tf after.2, Tfidf.idf after.2, Tfidf.tfidf after.2,
      Tfidf.frequency after.2)
     = (Tfidf.word before.2, Tfidf.tf before.2, Tfidf.idf before.2, Tfidf.tfidf before.2,
        Tfidf.frequency before.2)
  /\ exists v, Tfidf.normalizedTfidf after.2 = Some (Num v) /\ (0 <= v)%Q /\ (v <= 1)%Q.

(** A word with its priority: a number from 0 to 1, and the group of that
    number. *)
Definition scored (w : PriorityCalculator.PrioritizedWord) : Prop :=
  exists q, PriorityCalculator.priority w = Num q /\ ((0 <= q)%Q /\ (q <= 1)%Q)
            /\ PriorityCalculator.priorityGroup w
               = PriorityCalculator.getPriorityGroup (PriorityCalculator.priority w).

(** The word carries the group [g]. *)
Definition in_group (g : PriorityCalculator.PriorityGroup)
    (w : PriorityCalculator.PrioritizedWord) : bool :=
  match PriorityCalculator.priorityGroup w, g with
  | PriorityCalculator.Immediate, PriorityCalculator.Immediate
  | PriorityCalculator.Middle, PriorityCalculator.Middle
  | PriorityCalculator.Late, PriorityCalculator.Late => true
  | _, _ => false
  end.

(** ** Matches of similar words *)

Section MatchVocabulary.
(** The similarity of two words. *)
Variable sim : jsstring -> jsstring -> num.

(** What the inner loop of the matcher knows after the candidates [seen]:
    the best similarity so far is a number no candidate that reaches the
    threshold exceeds, and the best candidate, if any, has it. *)
Definition best_of {T : Type} (text : T -> jsstring) (threshold : num)
    (srcWord : jsstring) (seen : list T) (best : option T * num) : Prop :=
  (exists q, best.2 = Num q)
  /\ (forall t, t ∈ seen -> ge (sim srcWord (text t)) threshold = true ->
        gt (sim srcWord (text t)) best.2 = false)
  /\ match best.1 with
     | None => best.2 = Num 0
     | Some t0 =>
         t0 ∈ seen /\ best.2 = sim srcWord (text t0)
         /\ ge best.2 threshold = true /\ gt best.2 (Num 0) = true
     end.

(** What [findSimilarMatches] promises about one of its entries. *)
Definition good_match (sourceWords targetWords : list jsstring) (threshold : num)
    (m : WordMatcher.SimilarMatch) : Prop :=
  WordMatcher.sm_source m ∈ sourceWords /\ WordMatcher.sm_target m ∈ targetWords
  /\ WordMatcher.sm_similarity m = sim (WordMatcher.sm_source m) (WordMatcher.sm_target m)
  /\ ge (WordMatcher.sm_similarity m) threshold = true
  /\ gt (WordMatcher.sm_similarity m) (Num 0) = true
  /\ forall t, t ∈ targetWords -> ge (sim (WordMatcher.sm_source m) t) threshold = true ->
       gt (sim (WordMatcher.sm_source m) t) (WordMatcher.sm_similarity m) = false.

(** A morph of the detailed path leads to a target word similar enough. *)
Definition good_morph (targetWords : list TextProcessor.Word)
    (m : WordMatcher.DetailedMorph) : Prop :=
  WordMatcher.dm_to m ∈ targetWords
  /\ WordMatcher.dm_similarity m
     = sim (TextProcessor.text (WordMatcher.iw_word (WordMatcher.dm_from m)))
           (TextProcessor.text (WordMatcher.dm_to m))
  /\ ge (WordMatcher.dm_similarity m) (Num (6 # 10)) = true.

End MatchVocabulary.

(** The source words the detailed path has classified so far, whatever
    their class. *)
Definition classified
    (acc : list WordMatcher.IndexedWord * list WordMatcher.IndexedWord
           * list WordMatcher.DetailedMorph)
  : list WordMatcher.IndexedWord :=
  acc.1.1 ++ acc.1.2 ++ (WordMatcher.dm_from <$> acc.2).

(** A morph reference points at the first word of a text that is the
    morph's word up to case. *)
Definition first_occurrence (toLowerCase : jsstring -> jsstring)
    (ws : list jsstring) (r : App.WordRef) (w : jsstring) : Prop :=
  ws !! App.index r = Some (App.word r)
  /\ toLowerCase (App.word r) = toLowerCase w
  /\ forall j x, j < App.index r -> ws !! j = Some x -> toLowerCase x <> toLowerCase w.

(** ** The structure of a text *)

(** The words of the sentence with index [k]. *)
Definition words_in_sentence (k : nat) (ws : list TextProcessor.Word)
  : list TextProcessor.Word :=
  filter (fun w => TextProcessor.sentence w = k) ws.

(** The sentences built so far are numbered 0, 1, 2, ..., each records how
    many of the words carry its index, and every word belongs to one of
    them. *)
Definition sentences_built (b : TextProcessor.Builder) : Prop :=
  TextProcessor.s_index <$> TextProcessor.allSentences b
  = seq 0 (TextProcessor.sentenceIndex b)
  /\ Forall (fun w => TextProcessor.sentence w < TextProcessor.sentenceIndex b)
       (TextProcessor.allWords b)
  /\ Forall (fun si =>
               length (words_in_sentence (TextProcessor.s_index si)
                         (TextProcessor.allWords b))
               = TextProcessor.s_wordCount si)
       (TextProcessor.allSentences b)
  /\ sum_list (TextProcessor.s_wordCount <$> TextProcessor.allSentences b)
     = length (TextProcessor.allWords b).

(** ** Calls of the state manager *)

(** The calls of the state manager that change the state. *)
Inductive Call :=
| CSetLevel (level : jsstring)
| CSetLevelNumber (level : Z)
| CSetText (level : Z) (text : StateManager.TextArg) (metadata : option jsstring)
| CSetOriginalText (text : jsstring)
| CSetAnimating (animating : bool)
| CSetViewportAnchor (word : jsstring) (offset : Z)
| CClearViewportAnchor
| CSetCache (key value : jsstring)
| CClearCache
| CAddEventListener (event : jsstring) (callback : StateManager.CallbackArg)
| CRemoveEventListener (event : jsstring) (callback : StateManager.CallbackArg)
| CResetState.

(** The state a call leaves; a call that throws leaves the state as it
    was. *)
Definition call (c : Call) (st : StateManager.AppState) : StateManager.AppState :=
  match c with
  | CSetLevel level => (StateManager.setLevel StateManager.parseInt_string level st).1.2
  | CSetLevelNumber level =>
      (StateManager.setLevel StateManager.parseInt_number level st).1.2
  | CSetText level text metadata => (StateManager.setText level text metadata st).1.2
  | CSetOriginalText text => (StateManager.setOriginalText text st).1
  | CSetAnimating animating => (StateManager.setAnimating animating st).1
  | CSetViewportAnchor word offset => StateManager.setViewportAnchor word offset st
  | CClearViewportAnchor => StateManager.clearViewportAnchor st
  | CSetCache key value => StateManager.setCache key value st
  | CClearCache => StateManager.clearCache st
  | CAddEventListener event callback =>
      match StateManager.addEventListener event callback st with
      | StateManager.Done st' => st'
      | StateManager.Throws => st
      end
  | CRemoveEventListener event callback =>
      match StateManager.removeEventListener event callback st with
      | StateManager.Done st' => st'
      | StateManager.Throws => st
      end
  | CResetState => StateManager.resetState st
  end.

Definition calls (cs : list Call) (st : StateManager.AppState) : StateManager.AppState :=
  foldl (fun st c => call c st) st cs.

(** The state the module starts with. *)
Definition initialState : StateManager.AppState :=
  StateManager.mkAppState 0 ∅ ∅ false (None, 0%Z) ∅ None
    (StateManager.mkListeners [] [] []).

(** The current level is one of the four levels. *)
Definition level_ok (st : StateManager.AppState) : Prop :=
  StateManager.currentLevel st ∈ [0; 1; 2; 3]%Z.

(** * Properties *)

(** ** Doubles

    Rounding to the nearest double keeps the order of the exact results
    and leaves the integers below 2^53 and the powers of two alone. *)

Section Doubles.
#[local] Open Scope Q_scope.

Lemma pow2_pos (k : Z) : 0 < 2 ^ k.
Proof. apply Qpower_0_lt. reflexivity. Qed.

Lemma pow2_add (a b : Z) : 2 ^ (a + b) == 2 ^ a * 2 ^ b.
Proof. apply Qpower_plus. discriminate. Qed.

Lemma pow2_sub (a b : Z) : 2 ^ (a - b) == 2 ^ a / 2 ^ b.
Proof. apply Qpower_minus. discriminate. Qed.

Lemma pow2_le (a b : Z) : (a <= b)%Z -> 2 ^ a <= 2 ^ b.
Proof. intros H. apply Qpower_le_compat_l; [exact H | discriminate]. Qed.

Lemma pow2_lt (a b : Z) : (a < b)%Z -> 2 ^ a < 2 ^ b.
Proof. intros H. apply Qpower_lt_compat_l; [exact H | reflexivity]. Qed.

Lemma pow2_Z (k : Z) : (0 <= k)%Z -> 2 ^ k == inject_Z (2 ^ k).
Proof. intros H. symmetry. apply (Zpower_Qpower 2 k H). Qed.

Lemma pow2_succ (k : Z) : 2 ^ (k + 1) == 2 * 2 ^ k.
Proof. rewrite pow2_add. change (2 ^ 1) with 2. ring. Qed.

Lemma ilog2_spec (q : Q) : 0 < q -> 2 ^ ilog2 q <= q /\ q < 2 ^ (ilog2 q + 1).
Proof.
  intros Hq. destruct q as [n d].
  assert (Hn : (0 < n)%Z).
  { unfold Qlt in Hq. cbn in Hq. lia. }
  pose proof (Z.log2_spec n Hn) as [Ha1 Ha2].
  pose proof (Z.log2_spec (Z.pos d) (Pos2Z.is_pos d)) as [Hb1 Hb2].
  pose proof (Z.log2_nonneg n) as Ha0.
  pose proof (Z.log2_nonneg (Z.pos d)) as Hb0.
  unfold ilog2. cbn [Qnum Qden].
  set (a := Z.log2 n) in *. set (b := Z.log2 (Z.pos d)) in *.
  set (N := inject_Z n). set (D := inject_Z (Z.pos d)).
  assert (HD : 0 < D) by (unfold D; change 0 with (inject_Z 0); rewrite <- Zlt_Qlt; lia).
  assert (Hq' : n # d == N / D) by apply Qmake_Qdiv.
  assert (HA1 : 2 ^ a <= N).
  { rewrite pow2_Z by exact Ha0. unfold N. rewrite <- Zle_Qle. exact Ha1. }
  assert (HA2 : N < 2 * 2 ^ a).
  { rewrite <- pow2_succ, pow2_Z by lia. unfold N. rewrite <- Zlt_Qlt.
    replace (a + 1)%Z with (Z.succ a) by lia. exact Ha2. }
  assert (HB1 : 2 ^ b <= D).
  { rewrite pow2_Z by exact Hb0. unfold D. rewrite <- Zle_Qle. exact Hb1. }
  assert (HB2 : D < 2 * 2 ^ b).
  { rewrite <- pow2_succ, pow2_Z by lia. unfold D. rewrite <- Zlt_Qlt.
    replace (b + 1)%Z with (Z.succ b) by lia. exact Hb2. }
  pose proof (pow2_pos a) as HA0. pose proof (pow2_pos b) as HB0.
  pose proof (pow2_pos (a - b)) as HP0.
  assert (HP : 2 ^ (a - b) * 2 ^ b == 2 ^ a).
  { rewrite <- pow2_add. replace (a - b + b)%Z with a by lia. reflexivity. }
  assert (HqD : (n # d) * D == N).
  { rewrite Hq'. field. lra. }
  set (x := n # d) in *. set (P := 2 ^ (a - b)) in *.
  set (A := 2 ^ a) in *. set (B := 2 ^ b) in *.
  destruct (Qle_bool P x) eqn:E.
  - apply Qle_bool_iff in E. split; [exact E |].
    rewrite pow2_succ. fold P.
    apply (Qmult_lt_r _ _ D HD). nra.
  - assert (E' : x < P).
    { apply Qnot_le_lt. intros H. apply Qle_bool_iff in H. congruence. }
    replace (a - b - 1 + 1)%Z with (a - b)%Z by lia. split; [| exact E'].
    assert (Hhalf : 2 * 2 ^ (a - b - 1) == P).
    { rewrite <- pow2_succ. replace (a - b - 1 + 1)%Z with (a - b)%Z by lia. reflexivity. }
    pose proof (pow2_pos (a - b - 1)) as Hh0.
    set (h := 2 ^ (a - b - 1)) in *.
    apply (Qmult_le_r _ _ D HD). nra.
Qed.

Lemma ilog2_ge (q : Q) (m : Z) : 0 < q -> 2 ^ m <= q -> (m <= ilog2 q)%Z.
Proof.
  intros Hq Hm. destruct (ilog2_spec q Hq) as [_ Hu].
  destruct (Z_lt_le_dec (ilog2 q) m) as [Hlt | Hle]; [| exact Hle].
  exfalso. assert (2 ^ (ilog2 q + 1) <= 2 ^ m) by (apply pow2_le; lia). lra.
Qed.

Lemma ilog2_lt (q : Q) (m : Z) : 0 < q -> q < 2 ^ m -> (ilog2 q < m)%Z.
Proof.
  intros Hq Hm. destruct (ilog2_spec q Hq) as [Hl _].
  destruct (Z_lt_le_dec (ilog2 q) m) as [Hlt | Hle]; [exact Hlt |].
  exfalso. assert (2 ^ m <= 2 ^ ilog2 q) by (apply pow2_le; lia). lra.
Qed.

Lemma ilog2_mono (a b : Q) : 0 < a -> a <= b -> (ilog2 a <= ilog2 b)%Z.
Proof.
  intros Ha Hab. apply ilog2_ge; [lra |].
  destruct (ilog2_spec a Ha) as [Hl _]. lra.
Qed.

(** Rounding to the nearest integer, ties to even. *)
Lemma rne_floor (x : Q) : (Qfloor x <= rne x <= Qfloor x + 1)%Z.
Proof.
  unfold rne. destruct (Qcompare (x - inject_Z (Qfloor x)) (1 # 2)); [| lia | lia].
  destruct (Z.even (Qfloor x)); lia.
Qed.

Lemma rne_mono (x y : Q) : x <= y -> (rne x <= rne y)%Z.
Proof.
  intros Hxy. pose proof (Qfloor_resp_le x y Hxy) as Hf.
  pose proof (rne_floor x) as Hx. pose proof (rne_floor y) as Hy.
  destruct (Z.eq_dec (Qfloor x) (Qfloor y)) as [E | E]; [| lia].
  unfold rne. rewrite <- E.
  destruct (Qcompare_spec (x - inject_Z (Qfloor x)) (1 # 2)) as [H1 | H1 | H1];
    destruct (Qcompare_spec (y - inject_Z (Qfloor x)) (1 # 2)) as [H2 | H2 | H2];
    try lia; try lra; destruct (Z.even (Qfloor x)); lia.
Qed.

Lemma rne_Z (n : Z) : rne (inject_Z n) = n.
Proof.
  unfold rne. rewrite Qfloor_Z.
  destruct (Qcompare_spec (inject_Z n - inject_Z n) (1 # 2)) as [H | H | H];
    [lra | reflexivity | lra].
Qed.

Lemma rne_comp (x y : Q) : x == y -> rne x = rne y.
Proof.
  intros H. apply Z.le_antisymm; apply rne_mono; lra.
Qed.

Lemma rne_eq_Z (x : Q) (n : Z) : x == inject_Z n -> rne x = n.
Proof. intros H. rewrite (rne_comp _ _ H). apply rne_Z. Qed.

Lemma rne_le_Z (x : Q) (n : Z) : x <= inject_Z n -> (rne x <= n)%Z.
Proof. intros H. rewrite <- (rne_Z n). apply rne_mono, H. Qed.

Lemma rne_ge_Z (x : Q) (n : Z) : inject_Z n <= x -> (n <= rne x)%Z.
Proof. intros H. rewrite <- (rne_Z n). apply rne_mono, H. Qed.

(** A value on the grid of [q] that bounds [q] bounds its rounding. *)
Lemma round_pos_le_grid (q c : Q) (z : Z) :
  q <= c -> c == inject_Z z * 2 ^ binade q -> round_pos q <= c.
Proof.
  intros Hqc Hc. unfold round_pos. pose proof (pow2_pos (binade q)) as He.
  set (e := binade q) in *.
  assert (Hz : (rne (q / 2 ^ e) <= z)%Z).
  { apply rne_le_Z. apply Qle_shift_div_r; [exact He |]. lra. }
  rewrite Zle_Qle in Hz. rewrite Hc. apply Qmult_le_compat_r; [exact Hz | lra].
Qed.

Lemma round_pos_ge_grid (q c : Q) (z : Z) :
  c <= q -> c == inject_Z z * 2 ^ binade q -> c <= round_pos q.
Proof.
  intros Hqc Hc. unfold round_pos. pose proof (pow2_pos (binade q)) as He.
  set (e := binade q) in *.
  assert (Hz : (z <= rne (q / 2 ^ e))%Z).
  { apply rne_ge_Z. apply Qle_shift_div_l; [exact He |]. lra. }
  rewrite Zle_Qle in Hz. rewrite Hc. apply Qmult_le_compat_r; [exact Hz | lra].
Qed.

(** A power of two from the binade of [q] on is on the grid of [q]. *)
Lemma pow2_on_grid (e m : Z) : (e <= m)%Z -> 2 ^ m == inject_Z (2 ^ (m - e)) * 2 ^ e.
Proof.
  intros H. rewrite <- pow2_Z by lia. rewrite <- pow2_add.
  replace (m - e + e)%Z with m by lia. reflexivity.
Qed.

(** So is an integer, for a binade that is not positive. *)
Lemma Z_on_grid (e n : Z) : (e <= 0)%Z -> inject_Z n == inject_Z (n * 2 ^ (- e)) * 2 ^ e.
Proof.
  intros H. rewrite inject_Z_mult, <- pow2_Z by lia.
  rewrite <- Qmult_assoc, <- pow2_add. replace (- e + e)%Z with 0%Z by lia.
  change (2 ^ 0) with 1. ring.
Qed.

Lemma round_pos_nonneg (q : Q) : 0 < q -> 0 <= round_pos q.
Proof.
  intros Hq. apply (round_pos_ge_grid q 0 0); [lra | ring].
Qed.

Lemma round_pos_mono (a b : Q) : 0 < a -> a <= b -> round_pos a <= round_pos b.
Proof.
  intros Ha Hab. assert (Hb : 0 < b) by lra.
  pose proof (ilog2_mono a b Ha Hab) as Hl.
  destruct (ilog2_spec a Ha) as [Hal Hau]. destruct (ilog2_spec b Hb) as [Hbl Hbu].
  destruct (Z.eq_dec (binade a) (binade b)) as [E | E].
  - unfold round_pos. rewrite E. pose proof (pow2_pos (binade b)) as He.
    apply Qmult_le_compat_r; [| lra]. rewrite <- Zle_Qle. apply rne_mono.
    apply Qmult_le_compat_r; [exact Hab |]. apply Qlt_le_weak, Qinv_lt_0_compat, He.
  - unfold binade in E.
    assert (Hlt : (ilog2 a + 1 <= ilog2 b)%Z) by lia.
    assert (Hea : (binade a <= ilog2 b)%Z) by (unfold binade; lia).
    assert (Heb : (binade b <= ilog2 b)%Z) by (unfold binade; lia).
    apply (Qle_trans _ (2 ^ ilog2 b)).
    + apply (round_pos_le_grid a _ (2 ^ (ilog2 b - binade a))).
      * apply Qlt_le_weak. eapply Qlt_le_trans; [exact Hau |]. apply pow2_le. exact Hlt.
      * apply pow2_on_grid, Hea.
    + apply (round_pos_ge_grid b _ (2 ^ (ilog2 b - binade b))).
      * exact Hbl.
      * apply pow2_on_grid, Heb.
Qed.

(** The integers below 2^53 are doubles. *)
Lemma binade_small (q : Q) : 0 < q -> q < 2 ^ 53 -> (binade q <= 0)%Z.
Proof.
  intros Hq Hlt. pose proof (ilog2_lt q 53 Hq Hlt). unfold binade. lia.
Qed.

Lemma round_pos_Z (n : Z) :
  (0 < n)%Z -> (n < 2 ^ 53)%Z -> round_pos (inject_Z n) == inject_Z n.
Proof.
  intros H0 H1.
  assert (Hq : 0 < inject_Z n) by (change 0 with (inject_Z 0); rewrite <- Zlt_Qlt; lia).
  assert (Hlt : inject_Z n < 2 ^ 53).
  { rewrite pow2_Z by lia. rewrite <- Zlt_Qlt. exact H1. }
  pose proof (binade_small _ Hq Hlt) as He.
  apply Qle_antisym.
  - apply (round_pos_le_grid _ _ (n * 2 ^ (- binade (inject_Z n)))); [lra |].
    apply Z_on_grid, He.
  - apply (round_pos_ge_grid _ _ (n * 2 ^ (- binade (inject_Z n)))); [lra |].
    apply Z_on_grid, He.
Qed.

Lemma round_pos_le_pow (q : Q) (m : Z) :
  0 < q -> (-1074 <= m)%Z -> q <= 2 ^ m -> round_pos q <= 2 ^ m.
Proof.
  intros Hq Hm Hle.
  assert (He : (binade q <= m)%Z).
  { assert (ilog2 q < m + 1)%Z.
    { apply ilog2_lt; [exact Hq |]. eapply Qle_lt_trans; [exact Hle |]. apply pow2_lt. lia. }
    unfold binade. lia. }
  apply (round_pos_le_grid q _ (2 ^ (m - binade q))); [exact Hle |].
  apply pow2_on_grid, He.
Qed.

(** ** Rounding a rational of either sign *)

Lemma round64_0 (q : Q) : q == 0 -> round64 q = 0.
Proof. intros H. unfold round64. rewrite (proj1 (Qeq_alt q 0) H). reflexivity. Qed.

Lemma round64_pos (q : Q) : 0 < q -> round64 q = round_pos q.
Proof. intros H. unfold round64. rewrite (proj1 (Qgt_alt q 0) H). reflexivity. Qed.

Lemma round64_neg (q : Q) : q < 0 -> round64 q = - round_pos (- q).
Proof. intros H. unfold round64. rewrite (proj1 (Qlt_alt q 0) H). reflexivity. Qed.

Lemma round64_mono (a b : Q) : a <= b -> round64 a <= round64 b.
Proof.
  intros Hab.
  destruct (Q_dec a 0) as [[Ha | Ha] | Ha], (Q_dec b 0) as [[Hb | Hb] | Hb];
    try (exfalso; lra).
  - rewrite (round64_neg a Ha), (round64_neg b Hb).
    assert (round_pos (- b) <= round_pos (- a)) by (apply round_pos_mono; lra). lra.
  - rewrite (round64_neg a Ha), (round64_pos b Hb).
    assert (0 <= round_pos (- a)) by (apply round_pos_nonneg; lra).
    assert (0 <= round_pos b) by (apply round_pos_nonneg; lra). lra.
  - rewrite (round64_neg a Ha), (round64_0 b Hb).
    assert (0 <= round_pos (- a)) by (apply round_pos_nonneg; lra). lra.
  - rewrite (round64_pos a Ha), (round64_pos b Hb). apply round_pos_mono; assumption.
  - rewrite (round64_0 a Ha), (round64_pos b Hb). apply round_pos_nonneg, Hb.
  - rewrite (round64_0 a Ha), (round64_0 b Hb). lra.
Qed.

Lemma round64_Z (n : Z) : (Z.abs n < 2 ^ 53)%Z -> round64 (inject_Z n) == inject_Z n.
Proof.
  intros Hn. destruct (Z.lt_trichotomy n 0) as [H | [H | H]].
  - assert (Hq : inject_Z n < 0) by (change 0 with (inject_Z 0); rewrite <- Zlt_Qlt; lia).
    rewrite (round64_neg _ Hq).
    assert (E : - inject_Z n == inject_Z (- n)) by (rewrite inject_Z_opp; reflexivity).
    assert (E' : round_pos (- inject_Z n) == round_pos (inject_Z (- n))).
    { apply Qle_antisym; apply round_pos_mono; lra. }
    rewrite E', round_pos_Z by lia. rewrite inject_Z_opp. ring.
  - subst n. rewrite round64_0; reflexivity.
  - assert (Hq : 0 < inject_Z n) by (change 0 with (inject_Z 0); rewrite <- Zlt_Qlt; lia).
    rewrite (round64_pos _ Hq). apply round_pos_Z; lia.
Qed.

Lemma round64_le_Z (q : Q) (n : Z) :
  (Z.abs n < 2 ^ 53)%Z -> q <= inject_Z n -> round64 q <= inject_Z n.
Proof. intros Hn H. rewrite <- (round64_Z n Hn). apply round64_mono, H. Qed.

Lemma round64_ge_Z (q : Q) (n : Z) :
  (Z.abs n < 2 ^ 53)%Z -> inject_Z n <= q -> inject_Z n <= round64 q.
Proof. intros Hn H. rewrite <- (round64_Z n Hn). apply round64_mono, H. Qed.

Lemma round64_le_pow (q : Q) (m : Z) :
  (-1074 <= m)%Z -> q <= 2 ^ m -> round64 q <= 2 ^ m.
Proof.
  intros Hm H. pose proof (pow2_pos m) as Hp.
  destruct (Q_dec q 0) as [[Hq | Hq] | Hq].
  - rewrite (round64_neg q Hq).
    assert (0 <= round_pos (- q)) by (apply round_pos_nonneg; lra). lra.
  - rewrite (round64_pos q Hq). apply round_pos_le_pow; assumption.
  - rewrite (round64_0 q Hq). lra.
Qed.

Lemma round64_opp (q : Q) : round64 (- q) == - round64 q.
Proof.
  destruct (Q_dec q 0) as [[Hq | Hq] | Hq].
  - rewrite (round64_neg q Hq), (round64_pos (- q)) by lra. ring.
  - rewrite (round64_pos q Hq), (round64_neg (- q)) by lra.
    assert (E : round_pos (- - q) == round_pos q).
    { apply Qle_antisym; apply round_pos_mono; lra. }
    rewrite E. reflexivity.
  - rewrite (round64_0 q Hq), (round64_0 (- q)) by lra. reflexivity.
Qed.

Lemma round64_ge_pow (q : Q) (m : Z) :
  (-1074 <= m)%Z -> - 2 ^ m <= q -> - 2 ^ m <= round64 q.
Proof.
  intros Hm H.
  assert (H' : round64 (- q) <= 2 ^ m) by (apply round64_le_pow; [exact Hm | lra]).
  rewrite round64_opp in H'. lra.
Qed.

(** ** Results that stay numbers *)

Lemma pow53_lt_pow1024 (n : Z) : (Z.abs n < 2 ^ 53)%Z ->
  - 2 ^ 1024 < inject_Z n /\ inject_Z n < 2 ^ 1024.
Proof.
  intros Hn.
  assert (H53 : 2 ^ 53 < 2 ^ 1024) by (apply pow2_lt; lia).
  assert (Hhi : inject_Z n < 2 ^ 53) by (rewrite pow2_Z by lia; rewrite <- Zlt_Qlt; lia).
  assert (Hlo : - 2 ^ 53 < inject_Z n).
  { rewrite pow2_Z by lia. rewrite <- inject_Z_opp, <- Zlt_Qlt. lia. }
  split; lra.
Qed.

Lemma double_finite (q : Q) :
  - 2 ^ 1024 < round64 q -> round64 q < 2 ^ 1024 -> double q = Num (round64 q).
Proof.
  intros Hlo Hhi. unfold double.
  assert (E1 : Qle_bool (2 ^ 1024) (round64 q) = false).
  { apply not_true_iff_false. rewrite Qle_bool_iff. lra. }
  assert (E2 : Qle_bool (round64 q) (- 2 ^ 1024) = false).
  { apply not_true_iff_false. rewrite Qle_bool_iff. lra. }
  rewrite E1, E2. reflexivity.
Qed.

(** An exact result between two integers below 2^53 becomes a double
    between them. *)
Lemma double_between (q : Q) (lo hi : Z) :
  (Z.abs lo < 2 ^ 53)%Z -> (Z.abs hi < 2 ^ 53)%Z ->
  inject_Z lo <= q -> q <= inject_Z hi ->
  double q = Num (round64 q) /\ inject_Z lo <= round64 q /\ round64 q <= inject_Z hi.
Proof.
  intros Hlo Hhi H1 H2.
  pose proof (round64_ge_Z q lo Hlo H1) as Hr1.
  pose proof (round64_le_Z q hi Hhi H2) as Hr2.
  destruct (pow53_lt_pow1024 lo Hlo) as [Hl _].
  destruct (pow53_lt_pow1024 hi Hhi) as [_ Hh].
  split; [apply double_finite; lra |]. split; assumption.
Qed.

(** An exact result of magnitude 2^1023 at most becomes a double. *)
Lemma double_below_pow (q : Q) :
  - 2 ^ 1023 <= q -> q <= 2 ^ 1023 ->
  double q = Num (round64 q) /\ - 2 ^ 1023 <= round64 q /\ round64 q <= 2 ^ 1023.
Proof.
  intros H1 H2.
  pose proof (round64_ge_pow q 1023 ltac:(lia) H1) as Hr1.
  pose proof (round64_le_pow q 1023 ltac:(lia) H2) as Hr2.
  assert (H : 2 ^ 1023 < 2 ^ 1024) by (apply pow2_lt; lia).
  split; [apply double_finite; lra |]. split; assumption.
Qed.

(** Rounding moves the floor and the ceiling of an exact result by one at
    most, and never past the next integer. *)
Lemma Qfloor_round64 (q : Q) :
  (Z.abs (Qfloor q) < 2 ^ 53)%Z -> (Z.abs (Qceiling q) < 2 ^ 53)%Z ->
  (Qfloor q <= Qfloor (round64 q) <= Qceiling q)%Z
  /\ (Qfloor q <= Qceiling (round64 q) <= Qceiling q)%Z.
Proof.
  intros Hf Hc.
  pose proof (round64_ge_Z q (Qfloor q) Hf (Qfloor_le q)) as H1.
  pose proof (round64_le_Z q (Qceiling q) Hc (Qle_ceiling q)) as H2.
  pose proof (Qfloor_resp_le _ _ H1) as F1. rewrite Qfloor_Z in F1.
  pose proof (Qfloor_resp_le _ _ H2) as F2. rewrite Qfloor_Z in F2.
  pose proof (Qceiling_resp_le _ _ H1) as C1. rewrite Qceiling_Z in C1.
  pose proof (Qceiling_resp_le _ _ H2) as C2. rewrite Qceiling_Z in C2.
  lia.
Qed.

(** The rounded product of a count and a share between 0 and 1. *)
Lemma mul64_share (n : nat) (r : Q) :
  (Z.of_nat n < 2 ^ 53)%Z -> 0 <= r -> r <= 1 ->
  mul64 (of_nat n) (Num r) = Num (round64 (inject_Z (Z.of_nat n) * r))
  /\ 0 <= round64 (inject_Z (Z.of_nat n) * r)
  /\ round64 (inject_Z (Z.of_nat n) * r) <= inject_Z (Z.of_nat n).
Proof.
  intros Hn H0 H1.
  assert (Hq : 0 <= inject_Z (Z.of_nat n)).
  { change 0 with (inject_Z 0). rewrite <- Zle_Qle. lia. }
  destruct (double_between (inject_Z (Z.of_nat n) * r) 0 (Z.of_nat n)) as (E & L & U).
  - cbn. lia.
  - lia.
  - change (inject_Z 0) with 0. nra.
  - nra.
  - split; [exact E |]. split; [exact L | exact U].
Qed.

(** A share given in percent, as a double. *)
Lemma div64_percent (p : Q) :
  0 <= p -> p <= 100 ->
  div64 (Num p) (Num 100) = Num (round64 (p / 100))
  /\ 0 <= round64 (p / 100) /\ round64 (p / 100) <= 1.
Proof.
  intros H0 H1.
  assert (Hp0 : 0 <= p / 100) by (apply Qle_shift_div_l; lra).
  assert (Hp1 : p / 100 <= 1) by (apply Qle_shift_div_r; lra).
  destruct (double_between (p / 100) 0 1) as (E & L & U);
    [cbn; lia | cbn; lia | exact Hp0 | exact Hp1 |].
  split; [exact E |]. split; [exact L | exact U].
Qed.


(** The number of entries a share in percent stands for, as the code
    computes it: the ceiling of the rounded product of the count and the
    rounded quotient. *)
Lemma percent_count (n : nat) (p : Q) :
  (Z.of_nat n < 2 ^ 53)%Z -> 0 <= p -> p <= 100 ->
  Math_ceil_num (mul64 (of_nat n) (div64 (Num p) (Num 100)))
  = Num (inject_Z (Qceiling (round64 (inject_Z (Z.of_nat n) * round64 (p / 100)))))
  /\ (0 <= Qceiling (round64 (inject_Z (Z.of_nat n) * round64 (p / 100)))
      <= Z.of_nat n)%Z.
Proof.
  intros Hn H0 H1.
  destruct (div64_percent p H0 H1) as (-> & Hr0 & Hr1).
  destruct (mul64_share n (round64 (p / 100)) Hn Hr0 Hr1) as (-> & Hm0 & Hm1).
  split; [reflexivity |]. split.
  - change 0%Z with (Qceiling 0). apply Qceiling_resp_le. exact Hm0.
  - rewrite <- (Qceiling_Z (Z.of_nat n)) at 2. apply Qceiling_resp_le. exact Hm1.
Qed.

(** The number of entries a share stands for when it is rounded down. *)
Lemma share_count (n : nat) (r : Q) :
  (Z.of_nat n < 2 ^ 53)%Z -> 0 <= r -> r <= 1 ->
  Math_floor_num (mul64 (of_nat n) (Num r))
  = Num (inject_Z (Qfloor (round64 (inject_Z (Z.of_nat n) * r))))
  /\ (0 <= Qfloor (round64 (inject_Z (Z.of_nat n) * r)) <= Z.of_nat n)%Z.
Proof.
  intros Hn H0 H1.
  destruct (mul64_share n r Hn H0 H1) as (-> & Hm0 & Hm1).
  split; [reflexivity |]. split.
  - change 0%Z with (Qfloor 0). apply Qfloor_resp_le. exact Hm0.
  - rewrite <- (Qfloor_Z (Z.of_nat n)) at 2. apply Qfloor_resp_le. exact Hm1.
Qed.

(** *** Bounds of [slice] that are numbers *)

Lemma Qtrunc_Z (q : Q) (k : Z) : q == inject_Z k -> Qtrunc q = k.
Proof.
  intros H. unfold Qtrunc.
  destruct (Qle_bool 0 q); [rewrite (Qfloor_comp _ _ H); apply Qfloor_Z |].
  rewrite (Qceiling_comp _ _ H). apply Qceiling_Z.
Qed.

Lemma slice_num_count {A : Type} (l : list A) (k : Z) :
  (0 <= k <= Z.of_nat (length l))%Z ->
  slice_num l (Num 0) (Num (inject_Z k)) = take (Z.to_nat k) l.
Proof.
  intros Hk. unfold slice_num.
  change (slice_bound_num (length l) (Num 0)) with 0%nat.
  rewrite drop_0, Nat.sub_0_r.
  unfold slice_bound_num. rewrite (Qtrunc_Z (inject_Z k) k) by reflexivity.
  unfold slice_bound. destruct (k <? 0)%Z eqn:E; [lia |].
  rewrite Nat.min_l by lia. reflexivity.
Qed.

Lemma slice_num_0_take {A : Type} (l : list A) (stop : num) :
  slice_num l (Num 0) stop = take (slice_bound_num (length l) stop) l.
Proof.
  unfold slice_num.
  change (slice_bound_num (length l) (Num 0)) with 0%nat.
  rewrite drop_0, Nat.sub_0_r. reflexivity.
Qed.

Lemma slice_bound_num_Z (len : nat) (q : Q) (k : Z) :
  q == inject_Z k -> (0 <= k)%Z ->
  slice_bound_num len (Num q) = Nat.min (Z.to_nat k) len.
Proof.
  intros H Hk. unfold slice_bound_num. rewrite (Qtrunc_Z q k H).
  unfold slice_bound. destruct (k <? 0)%Z eqn:E; [lia | reflexivity].
Qed.

(** [slice(0, k)] and [slice(k)] cut a list in two, whatever [k]. *)
Lemma slice_num_split {A : Type} (l : list A) (k : num) :
  slice_num l (Num 0) k ++ slice_from_num l k = l.
Proof. rewrite slice_num_0_take. apply take_drop. Qed.

(** [round64] against the binary64 operations of [SpecFloat], on the
    products, sums and quotients of the examples below. *)
Example round64_agrees_with_spec_float :
  agrees_with_spec_float (SpecFloat.SFmul 53 1024) Qmult (spec_double 50 1) (spec_double 58 100)
  && agrees_with_spec_float (SpecFloat.SFmul 53 1024) Qmult (spec_double 10 1) (spec_double 7 10)
  && agrees_with_spec_float (SpecFloat.SFmul 53 1024) Qmult (spec_double 25 1) (spec_double 28 100)
  && agrees_with_spec_float (SpecFloat.SFmul 53 1024) Qmult (spec_double 90 1) (spec_double 7 10)
  && agrees_with_spec_float (SpecFloat.SFdiv 53 1024) Qdiv (spec_double 28 1) (spec_double 100 1)
  && agrees_with_spec_float (SpecFloat.SFadd 53 1024) Qplus (spec_double 1 10) (spec_double 1 10)
  && agrees_with_spec_float (SpecFloat.SFadd 53 1024) Qplus
       (SpecFloat.SFadd 53 1024 (spec_double 1 10) (spec_double 1 10)) (spec_double 1 10)
  && agrees_with_spec_float (SpecFloat.SFdiv 53 1024) Qdiv
       (SpecFloat.SFadd 53 1024
          (SpecFloat.SFadd 53 1024 (spec_double 1 10) (spec_double 1 10)) (spec_double 1 10))
       (spec_double 3 1)
  && agrees_with_spec_float (SpecFloat.SFsub 53 1024) Qminus (spec_double 1 3) (spec_double 4 3)
  = true.
Proof. vm_compute. reflexivity. Qed.

(** The values the examples use: 0.58, 0.7 and 0.1 as doubles. *)
Example round64_values :
  spec_float_value (spec_double 58 100) = Some (round64 (58 # 100))
  /\ spec_float_value (spec_double 7 10) = Some (round64 (7 # 10))
  /\ spec_float_value (spec_double 1 10) = Some (round64 (1 # 10))
  /\ round64 (1 # 10) == 3602879701896397 # 36028797018963968.
Proof. vm_compute. repeat split. Qed.

End Doubles.


(** ** The part-of-speech tagger *)

Section EstimatePOS.
Import TextProcessor PriorityCalculator.
Variable toLowerCase : jsstring -> jsstring.

(** Each of the seven tags is produced by some word. *)
Example estimatePOS_tags :
  estimatePOS ascii_toLowerCase
    <$> (lit <$> ["fox"; "running"; "42"; "of"; "The"; "and"; "quickly"]%string)
  = [NOUN; VERB; NUM; ADP; DET; CONJ; ADV].
Proof. vm_compute. reflexivity. Qed.

(** C9: whatever the word (and whatever lower-casing does), the tagger
    answers NOUN, VERB, NUM, ADP, DET, CONJ or ADV and never ADJ, although
    the weight table gives ADJ the weight 0.6 and the syntax score gives an
    ADJ word 0.3. *)
Theorem estimatePOS_never_ADJ :
  (forall word : jsstring,
      estimatePOS toLowerCase word ∈ [NOUN; VERB; NUM; ADP; DET; CONJ; ADV]
      /\ estimatePOS toLowerCase word <> ADJ)
  /\ POS_WEIGHTS ADJ = 6 # 10
  /\ (forall t p s par tf ntf sent,
         calculateSyntaxScore (mkEnriched (mkWord t p s par ADJ) tf ntf) sent
         = Num (3 # 10)).
Proof.
  split; [| split; [reflexivity | intros; reflexivity]].
  intros word. unfold estimatePOS.
  repeat match goal with
         | |- context [if ?b then _ else _] => destruct b
         end;
    (split; [set_solver | discriminate]).
Qed.

End EstimatePOS.

(** ** The state manager *)

Section SetLevel.
Import StateManager.
Variable Arg : Type.
Variable parseInt : Arg -> option Z.

Lemma setLevel_accept level st n :
  parseInt level = Some n -> accepted (currentLevel st) n ->
  setLevel parseInt level st
  = (true, set_currentLevel n st,
     [mkNotice (LevelChange (currentLevel st) n) (levelChange (listeners st))]).
Proof.
  intros Hp [Hin Hne]. unfold setLevel. rewrite Hp. cbn [valid_level].
  rewrite bool_decide_eq_true_2 by exact Hin. cbn [negb].
  rewrite bool_decide_eq_false_2 by congruence. reflexivity.
Qed.

Lemma setLevel_reject level st :
  (forall n, parseInt level = Some n -> ~ accepted (currentLevel st) n) ->
  setLevel parseInt level st = (false, st, []).
Proof.
  intros Hrej. unfold setLevel.
  destruct (parseInt level) as [n|] eqn:Hp; cbn [valid_level negb]; [| reflexivity].
  destruct (bool_decide (n ∈ [0; 1; 2; 3]%Z)) eqn:Hin; cbn [negb]; [| reflexivity].
  apply bool_decide_eq_true_1 in Hin.
  destruct (bool_decide (currentLevel st = n)) eqn:Hcur; [reflexivity |].
  apply bool_decide_eq_false_1 in Hcur.
  exfalso. apply (Hrej n eq_refl). split; [exact Hin | congruence].
Qed.

(** C10: [setLevel] answers true exactly when the argument parses to an
    integer of 0..3 other than the current level; it then stores that
    level and sends one levelChange notification carrying the old and the
    new level. In every other case it answers false, sends nothing and
    leaves the whole state as it was. *)
Theorem setLevel_spec (level : Arg) (st : AppState) :
  let '(result, st', notices) := setLevel parseInt level st in
  (result = true <->
     exists n, parseInt level = Some n /\ accepted (currentLevel st) n)
  /\ (result = true ->
        exists n, parseInt level = Some n
          /\ notices =
               [mkNotice (LevelChange (currentLevel st) n) (levelChange (listeners st))]
          /\ st' = set_currentLevel n st
          /\ currentLevel st' = n
          /\ (texts st', metadata st', isAnimating st', viewportAnchor st',
              cache st', originalText st', listeners st')
             = (texts st, metadata st, isAnimating st, viewportAnchor st,
                cache st, originalText st, listeners st))
  /\ (result = false -> notices = [] /\ st' = st).
Proof.
  destruct (parseInt level) as [n|] eqn:Hp.
  - destruct (decide (accepted (currentLevel st) n)) as [Hacc | Hrej].
    + rewrite (setLevel_accept level st n Hp Hacc).
      split; [split; [intros _; exists n; auto | reflexivity] |].
      split; [| discriminate].
      intros _. exists n. repeat split; reflexivity.
    + rewrite setLevel_reject
        by (intros m Hm; rewrite Hp in Hm; injection Hm as <-; exact Hrej).
      split; [split; [discriminate |] |].
      * intros (m & Hm & Hacc). injection Hm as <-. contradiction.
      * split; [discriminate | auto].
  - rewrite setLevel_reject by (intros m Hm; rewrite Hp in Hm; discriminate).
    split; [split; [discriminate |] |].
    + intros (m & Hm & _). discriminate.
    + split; [discriminate | auto].
Qed.

End SetLevel.

(** [setLevel] on strings, as the slider hands them over. *)
Example setLevel_examples :
  let st := StateManager.mkAppState 1 ∅ ∅ false (None, 0%Z) ∅ None
              (StateManager.mkListeners [7] [] []) in
  StateManager.setLevel StateManager.parseInt_string (lit "2") st
  = (true, StateManager.set_currentLevel 2 st,
     [StateManager.mkNotice (StateManager.LevelChange 1 2) [7]])
  /\ StateManager.setLevel StateManager.parseInt_string (lit "1") st = (false, st, [])
  /\ StateManager.setLevel StateManager.parseInt_string (lit "4") st = (false, st, [])
  /\ StateManager.setLevel StateManager.parseInt_string (lit "abc") st = (false, st, []).
Proof. vm_compute. repeat split. Qed.

(** ** The animation parameters *)

Section AnimatorParams.
Import Animator.
#[local] Open Scope Q_scope.

Lemma max_min_is_clamp (x lo hi : Q) :
  lo <= hi -> Qmax lo (Qmin hi x) == clamp x lo hi.
Proof.
  intros Hlohi. unfold clamp.
  destruct (Qlt_le_dec x lo) as [Hlt | Hge].
  - rewrite (Q.min_r hi x) by lra. apply Q.max_l. lra.
  - destruct (Qlt_le_dec hi x) as [Hhi | Hle].
    + rewrite (Q.min_l hi x) by lra. apply Q.max_r. lra.
    + rewrite (Q.min_r hi x) by lra. apply Q.max_r. lra.
Qed.

(** C8: with |added|, |kept| and |removed| the lengths of the lists of the
    diff, a missing list counting as empty, the timeline animates
    |added| + |kept| + |removed| words, its duration multiplier is that
    count over 100 clamped to [0.3, 1.0] and scales the stagger window of
    0.4, and the transition is large exactly when |added| + |kept| reaches
    3000; a large transition samples (all added and 70% of the kept
    words when zooming out, half of the added ones when zooming in), a
    smaller one does not. *)
Theorem executeTimeline_params_spec (diffData : DiffData) (direction : Direction) :
  let n_added := length (default [] (added diffData)) in
  let n_kept := length (default [] (kept diffData)) in
  let n_removed := length (default [] (removed diffData)) in
  let p := executeTimeline_params diffData direction in
  totalAnimatedWords p = (n_added + n_kept + n_removed)%nat
  /\ durationMultiplier p
     == clamp (inject_Z (Z.of_nat (n_added + n_kept + n_removed)) / 100) (3 # 10) 1
  /\ adjustedStaggerAmount p
     == (4 # 10) * clamp (inject_Z (Z.of_nat (n_added + n_kept + n_removed)) / 100) (3 # 10) 1
  /\ (isLargeTransition diffData = true <-> (3000 <= n_added + n_kept)%nat)
  /\ ((3000 <= n_added + n_kept)%nat ->
      (addedSamplingRate p, keptSamplingRate p)
      = match direction with Out => (1, 7 # 10) | In => (5 # 10, 0) end)
  /\ ((n_added + n_kept < 3000)%nat ->
      (addedSamplingRate p, keptSamplingRate p) = (1, 0)).
Proof.
  cbn zeta.
  assert (Hlen : forall l : option (list App.WordRef),
             length_or0 l = length (default [] l)) by (intros [l |]; reflexivity).
  assert (Hlarge : isLargeTransition diffData = true
                   <-> (3000 <= length (default [] (added diffData))
                                + length (default [] (kept diffData)))%nat).
  { unfold isLargeTransition, largeTransitionThreshold. rewrite !Hlen.
    apply bool_decide_eq_true. }
  unfold executeTimeline_params. rewrite !Hlen.
  set (n := (length (default [] (added diffData)) + length (default [] (kept diffData))
             + length (default [] (removed diffData)))%nat).
  assert (Hclamp : Qmax (3 # 10) (Qmin 1 (inject_Z (Z.of_nat n) / 100))
                   == clamp (inject_Z (Z.of_nat n) / 100) (3 # 10) 1)
    by (apply max_min_is_clamp; lra).
  destruct (isLargeTransition diffData) eqn:E, direction;
    cbn [totalAnimatedWords durationMultiplier adjustedStaggerAmount
         addedSamplingRate keptSamplingRate];
    (split; [reflexivity |]); (split; [exact Hclamp |]);
    (split; [unfold stagger_amount; rewrite Hclamp; reflexivity |]);
    (split; [exact Hlarge |]);
    (split; intros Hx;
     first [ reflexivity
           | exfalso; pose proof (proj1 Hlarge eq_refl); lia
           | exfalso; apply Hlarge in Hx; discriminate ]).
Qed.

(** The threshold at work: 2999 added and kept words are animated without
    sampling, 3000 are sampled, and a diff without lists counts no word. *)
Example executeTimeline_params_threshold :
  let ref := App.mkRef [] 0 in
  let below := mkDiffData (Some (replicate 2000 ref)) (Some (replicate 999 ref))
                 (Some (replicate 5 ref)) in
  let large := mkDiffData (Some (replicate 2000 ref)) (Some (replicate 1000 ref)) None in
  let p := executeTimeline_params below Out in
  let q := executeTimeline_params large Out in
  let r := executeTimeline_params large In in
  let z := executeTimeline_params (mkDiffData None None None) In in
  (totalAnimatedWords p, addedSamplingRate p, keptSamplingRate p) = (3004%nat, 1, 0)
  /\ (totalAnimatedWords q, addedSamplingRate q, keptSamplingRate q)
     = (3000%nat, 1, 7 # 10)
  /\ (addedSamplingRate r, keptSamplingRate r) = (5 # 10, 0)
  /\ durationMultiplier q == 1
  /\ totalAnimatedWords z = 0%nat /\ durationMultiplier z == 3 # 10
  /\ adjustedStaggerAmount z == 12 # 100.
Proof. vm_compute. repeat split. Qed.

(** Zooming out over 2000 added and 1000 kept words is a large transition
    of 3000 animated words that samples 70% of the kept ones. *)
Lemma executeTimeline_params_spec_witness :
  let ref := App.mkRef [] 0 in
  let diffData := mkDiffData (Some (replicate 2000 ref)) (Some (replicate 1000 ref)) None in
  let p := executeTimeline_params diffData Out in
  totalAnimatedWords p = 3000%nat
  /\ isLargeTransition diffData = true
  /\ (addedSamplingRate p, keptSamplingRate p) = (1, 7 # 10).
Proof.
  intros ref diffData p.
  destruct (executeTimeline_params_spec diffData Out) as (Ht & _ & _ & Hl & Hs & _).
  assert (Hn : (3000 <= length (default [] (added diffData))
                        + length (default [] (kept diffData)))%nat).
  { subst diffData. unfold default. cbn [added kept from_option id]. rewrite !length_replicate. lia. }
  split; [| split].
  - subst p. rewrite Ht. subst diffData. unfold default. cbn [added kept removed from_option id length].
    rewrite !length_replicate. reflexivity.
  - apply Hl. exact Hn.
  - apply Hs. exact Hn.
Defined.

(** The multiplier at a few sizes: 10 words, 50 words, 250 words. *)
Example durationMultiplier_examples :
  let mk n := mkDiffData (Some (replicate n (App.mkRef [] 0))) None None in
  durationMultiplier (executeTimeline_params (mk 10%nat) In) == 3 # 10
  /\ durationMultiplier (executeTimeline_params (mk 50%nat) In) == 5 # 10
  /\ durationMultiplier (executeTimeline_params (mk 250%nat) In) == 1.
Proof. vm_compute. repeat split. Qed.

End AnimatorParams.

(** ** The pinch mapping *)

Section ScaleToLevel.
Import Gestures.
#[local] Open Scope Q_scope.

Lemma rawLevel_formula (scale : Q) :
  rawLevel scale == 3 * (1 - (clamp scale (5 # 10) 2 - (5 # 10)) / (15 # 10)).
Proof.
  unfold rawLevel, minScale, maxScale.
  rewrite (max_min_is_clamp scale (5 # 10) 2) by lra.
  field.
Qed.

Lemma inject_Z_le_1 (c : Z) : (1 <= c)%Z -> 1 <= inject_Z c.
Proof. intros H. change 1 with (inject_Z 1). rewrite <- Zle_Qle. exact H. Qed.

Lemma inject_Z_le_m1 (c : Z) : (c <= -1)%Z -> inject_Z c <= -1.
Proof. intros H. change (-1) with (inject_Z (-1)). rewrite <- Zle_Qle. exact H. Qed.

(** At a scale whose continuous level is the integer [n], the result is
    [n] whatever the current level. *)
Lemma scaleToLevel_at_integer (scale : Q) (n c : Z) :
  rawLevel scale == inject_Z n -> scaleToLevel scale c = n.
Proof.
  intros Hraw. unfold scaleToLevel.
  destruct (Qle_bool threshold (Qabs (rawLevel scale - inject_Z c))) eqn:Hthr.
  - unfold Math_round. rewrite Hraw.
    assert (Hfl : Qfloor (inject_Z n + (1 # 2)) = n).
    { apply Z.le_antisymm.
      - apply Z.lt_succ_r. rewrite Zlt_Qlt.
        eapply Qle_lt_trans; [apply Qfloor_le |].
        rewrite <- Z.add_1_r, inject_Z_plus. change (inject_Z 1) with 1. lra.
      - rewrite <- (Qfloor_Z n) at 1. apply Qfloor_resp_le. lra. }
    exact Hfl.
  - destruct (Z.eq_dec c n) as [-> | Hne]; [reflexivity | exfalso].
    assert (Hthr' : ~ threshold <= Qabs (rawLevel scale - inject_Z c)).
    { intros H. apply Qle_bool_iff in H. congruence. }
    apply Hthr'. rewrite Hraw. unfold threshold.
    destruct (Z_lt_le_dec n c) as [Hlt | Hge].
    + assert (H1 : 1 <= inject_Z (c - n)) by (apply inject_Z_le_1; lia).
      unfold Z.sub in H1. rewrite inject_Z_plus, inject_Z_opp in H1.
      apply Qabs_case; intros; lra.
    + assert (H1 : 1 <= inject_Z (n - c)) by (apply inject_Z_le_1; lia).
      unfold Z.sub in H1. rewrite inject_Z_plus, inject_Z_opp in H1.
      apply Qabs_case; intros; lra.
Qed.

(** Scale 1.25 has the continuous level 1.5, half a level or more from
    every integer level, and 1.5 rounds up to 2. *)
Lemma scaleToLevel_mid (c : Z) : scaleToLevel (5 # 4) c = 2%Z.
Proof.
  unfold scaleToLevel.
  assert (Hraw : rawLevel (5 # 4) == 3 # 2) by (vm_compute; reflexivity).
  assert (Hthr : Qle_bool threshold (Qabs (rawLevel (5 # 4) - inject_Z c)) = true).
  { apply Qle_bool_iff. rewrite Hraw. unfold threshold.
    destruct (Z_lt_le_dec c 2) as [Hlt | Hge].
    - assert (H1 : 1 <= inject_Z (2 - c)) by (apply inject_Z_le_1; lia).
      unfold Z.sub in H1. rewrite inject_Z_plus, inject_Z_opp in H1.
      change (inject_Z 2) with 2 in H1.
      apply Qabs_case; intros; lra.
    - assert (H1 : 2 <= inject_Z c).
      { change 2 with (inject_Z 2). rewrite <- Zle_Qle. exact Hge. }
      apply Qabs_case; intros; lra. }
  rewrite Hthr. vm_compute. reflexivity.
Qed.

(** C6 (as the code has it): fully spread fingers (scale 2.0) give level 0
    and fully pinched ones (0.5) level 3, whatever the current level; the
    scale 1.25 has the continuous level 1.5 and gives level 2, whatever the
    current level; and a scale whose continuous level
    3*(1 - (clamp(scale,0.5,2.0)-0.5)/1.5) is within less than 0.15 of the
    current level leaves the level as it is. *)
Theorem scaleToLevel_spec :
  (forall c : Z, scaleToLevel 2 c = 0%Z)
  /\ (forall c : Z, scaleToLevel (1 # 2) c = 3%Z)
  /\ (rawLevel (5 # 4) == 3 # 2 /\ forall c : Z, scaleToLevel (5 # 4) c = 2%Z)
  /\ (forall (scale : Q) (c : Z),
         Qabs (3 * (1 - (clamp scale (5 # 10) 2 - (5 # 10)) / (15 # 10)) - inject_Z c)
           < 15 # 100 ->
         scaleToLevel scale c = c).
Proof.
  split; [| split; [| split]].
  - intros c. apply scaleToLevel_at_integer. vm_compute. reflexivity.
  - intros c. apply scaleToLevel_at_integer. vm_compute. reflexivity.
  - split; [vm_compute; reflexivity | exact scaleToLevel_mid].
  - intros scale c Hclose. rewrite <- rawLevel_formula in Hclose.
    unfold scaleToLevel.
    destruct (Qle_bool threshold (Qabs (rawLevel scale - inject_Z c))) eqn:Hthr;
      [| reflexivity].
    apply Qle_bool_iff in Hthr. unfold threshold in Hthr. lra.
Qed.

(** The scale 1.25 does not give level 1, not even from level 1. *)
Lemma scaleToLevel_mid_not_1 :
  scaleToLevel (5 # 4) 1 = 2%Z /\ scaleToLevel (5 # 4) 1 <> 1%Z.
Proof. vm_compute. split; [reflexivity | discriminate]. Qed.

Lemma scaleToLevel_spec_witness :
  Qabs (3 * (1 - (clamp (19 # 20) (5 # 10) 2 - (5 # 10)) / (15 # 10)) - inject_Z 2)
    < 15 # 100
  /\ scaleToLevel (19 # 20) 2 = 2%Z.
Proof.
  assert (H : Qabs (3 * (1 - (clamp (19 # 20) (5 # 10) 2 - (5 # 10)) / (15 # 10))
                    - inject_Z 2) < 15 # 100) by (vm_compute; reflexivity).
  split; [exact H |].
  exact (proj2 (proj2 (proj2 scaleToLevel_spec)) (19 # 20) 2%Z H).
Defined.

End ScaleToLevel.

(** ** Choosing the words to remove *)

Section SelectWordsToRemove.
Import PriorityCalculator.
#[local] Open Scope Q_scope.
Context {A : Type}.

(** Taking an integer out of a floor. *)
Lemma Qfloor_sub_Z (z : Z) (x : Q) : Qfloor (x - inject_Z z) = (Qfloor x - z)%Z.
Proof.
  apply Z.le_antisymm.
  - apply Z.lt_succ_r. rewrite Zlt_Qlt.
    eapply Qle_lt_trans; [apply Qfloor_le |].
    pose proof (Qlt_floor x) as Hx.
    replace (Z.succ (Qfloor x - z)) with ((Qfloor x + 1) + - z)%Z by lia.
    rewrite inject_Z_plus, inject_Z_opp. lra.
  - assert (H : (Qfloor x - z)%Z = Qfloor (inject_Z (Qfloor x - z)))
      by (symmetry; apply Qfloor_Z).
    rewrite H. apply Qfloor_resp_le.
    pose proof (Qfloor_le x) as Hx.
    unfold Z.sub. rewrite inject_Z_plus, inject_Z_opp. lra.
Qed.

(** The share to remove, counted from the share to keep: the floor of the
    one is what the ceiling of the other leaves, and the other way
    round. *)
Lemma removeCount_ceiling (n : Z) (rate : Q) :
  (n - Qfloor (inject_Z n * rate))%Z = Qceiling (inject_Z n * (1 - rate)).
Proof.
  unfold Qceiling.
  assert (E : - (inject_Z n * (1 - rate)) == inject_Z n * rate - inject_Z n) by ring.
  rewrite E, Qfloor_sub_Z. lia.
Qed.

Lemma removeCount_floor (n : Z) (rate : Q) :
  (n - Qceiling (inject_Z n * rate))%Z = Qfloor (inject_Z n * (1 - rate)).
Proof.
  unfold Qceiling.
  assert (E : inject_Z n * (1 - rate) == - (inject_Z n * rate) - inject_Z (- n)).
  { rewrite inject_Z_opp. ring. }
  rewrite E, Qfloor_sub_Z. lia.
Qed.

(** The exact share of the words to keep lies between 0 and their
    number. *)
Lemma share_bounds (n : nat) (rate : Q) :
  0 <= rate -> rate <= 1 ->
  (0 <= Qfloor (inject_Z (Z.of_nat n) * rate))%Z
  /\ (Qceiling (inject_Z (Z.of_nat n) * rate) <= Z.of_nat n)%Z.
Proof.
  intros H0 H1.
  assert (Hn : 0 <= inject_Z (Z.of_nat n)).
  { change 0 with (inject_Z 0). rewrite <- Zle_Qle. lia. }
  split.
  - change 0%Z with (Qfloor 0). apply Qfloor_resp_le. nra.
  - rewrite <- (Qceiling_Z (Z.of_nat n)) at 2. apply Qceiling_resp_le. nra.
Qed.

(** The number of words [selectWordsToRemove] keeps by its count: the
    floor of the rounded product, which is the floor or the ceiling of the
    exact one. *)
Lemma targetWordCount_bounds (n : nat) (rate : Q) :
  (Z.of_nat n < 2 ^ 53)%Z -> 0 <= rate -> rate <= 1 ->
  (Qfloor (inject_Z (Z.of_nat n) * rate)
   <= Qfloor (round64 (inject_Z (Z.of_nat n) * rate))
   <= Qceiling (inject_Z (Z.of_nat n) * rate))%Z
  /\ (0 <= Qfloor (round64 (inject_Z (Z.of_nat n) * rate)) <= Z.of_nat n)%Z.
Proof.
  intros Hn H0 H1. destruct (share_bounds n rate H0 H1) as [Hf Hc].
  pose proof (Qfloor_le (inject_Z (Z.of_nat n) * rate)) as Hfl.
  pose proof (Qle_ceiling (inject_Z (Z.of_nat n) * rate)) as Hcl.
  assert (Hfc : (Qfloor (inject_Z (Z.of_nat n) * rate)
                 <= Qceiling (inject_Z (Z.of_nat n) * rate))%Z).
  { rewrite Zle_Qle. lra. }
  destruct (Qfloor_round64 (inject_Z (Z.of_nat n) * rate)) as [Hs _]; [lia | lia |].
  split; [exact Hs | lia].
Qed.

(** C3 (as the code has it): for a rate between 0 and 1 the words removed
    are the first [len - floor(len * rate)] ones, the product being the
    rounded product of the two doubles; their number is the floor or the
    ceiling of [len * (1 - rate)]; and the words removed followed by the
    words kept are the original list. *)
Theorem selectWordsToRemove_spec (words : list A) (rate : Q) :
  0 <= rate -> rate <= 1 -> (Z.of_nat (length words) < 2 ^ 53)%Z ->
  let '(toKeep, toRemove) := selectWordsToRemove words rate in
  Z.of_nat (length toRemove)
    = (Z.of_nat (length words)
       - Qfloor (round64 (inject_Z (Z.of_nat (length words)) * rate)))%Z
  /\ (Qfloor (inject_Z (Z.of_nat (length words)) * (1 - rate))
      <= Z.of_nat (length toRemove)
      <= Qceiling (inject_Z (Z.of_nat (length words)) * (1 - rate)))%Z
  /\ toRemove ++ toKeep = words.
Proof.
  intros H0 H1 Hn. unfold selectWordsToRemove.
  destruct (mul64_share (length words) rate Hn H0 H1) as (-> & _ & _).
  destruct (targetWordCount_bounds (length words) rate Hn H0 H1) as [Hs Hb].
  rewrite <- removeCount_ceiling, <- removeCount_floor.
  cbn [Math_floor_num].
  set (f := Qfloor (round64 (inject_Z (Z.of_nat (length words)) * rate))) in *.
  destruct (double_between (inject_Z (Z.of_nat (length words)) + - inject_Z f)
              (Z.of_nat (length words) - f) (Z.of_nat (length words) - f))
    as (E & L & U).
  { lia. }
  { lia. }
  { unfold Z.sub. rewrite inject_Z_plus, inject_Z_opp. lra. }
  { unfold Z.sub. rewrite inject_Z_plus, inject_Z_opp. lra. }
  assert (Hsub : sub64 (of_nat (length words)) (Num (inject_Z f))
                 = Num (round64 (inject_Z (Z.of_nat (length words)) + - inject_Z f))).
  { exact E. }
  rewrite Hsub, slice_num_0_take. unfold slice_from_num.
  rewrite (slice_bound_num_Z (length words) _ (Z.of_nat (length words) - f))
    by (lra || lia).
  rewrite length_take.
  split; [lia |]. split; [lia |].
  apply take_drop.
Qed.

(** Three words at rate 0.5: two are removed, not floor(3 * 0.5) = 1. *)
Lemma selectWordsToRemove_not_floor :
  length (selectWordsToRemove [1; 2; 3]%nat (1 # 2)).2 = 2%nat
  /\ Z.of_nat (length (selectWordsToRemove [1; 2; 3]%nat (1 # 2)).2)
     <> Qfloor (inject_Z (Z.of_nat (length [1; 2; 3]%nat)) * (1 - (1 # 2))).
Proof. vm_compute. split; [reflexivity | discriminate]. Qed.

(** The rounding of the product shows in the count: at the double 0.58
    fifty words lose 22, the product 50 * 0.58 being 28.999999999999996;
    at the double 0.7 ten words lose 3, the product being 7 although the
    double is below 0.7. *)
Example selectWordsToRemove_rounded :
  length (selectWordsToRemove (replicate 50 0%nat) (round64 (58 # 100))).2 = 22%nat
  /\ length (selectWordsToRemove (replicate 10 0%nat) (round64 (7 # 10))).2 = 3%nat
  /\ Qceiling (inject_Z 10 * (1 - round64 (7 # 10))) = 4%Z.
Proof. vm_compute. repeat split. Qed.

End SelectWordsToRemove.

Lemma selectWordsToRemove_spec_witness :
  (0 <= 1 # 2)%Q /\ (1 # 2 <= 1)%Q
  /\ (Z.of_nat (length [lit "of"; lit "the"; lit "fox"]) < 2 ^ 53)%Z
  /\ let '(toKeep, toRemove) :=
       PriorityCalculator.selectWordsToRemove [lit "of"; lit "the"; lit "fox"] (1 # 2) in
     Z.of_nat (length toRemove) = 2%Z /\ toRemove ++ toKeep = [lit "of"; lit "the"; lit "fox"].
Proof.
  assert (H0 : (0 <= 1 # 2)%Q) by (vm_compute; discriminate).
  assert (H1 : (1 # 2 <= 1)%Q) by (vm_compute; discriminate).
  assert (Hn : (Z.of_nat (length [lit "of"; lit "the"; lit "fox"]) < 2 ^ 53)%Z)
    by (vm_compute; reflexivity).
  split; [exact H0 | split; [exact H1 | split; [exact Hn |]]].
  pose proof (selectWordsToRemove_spec [lit "of"; lit "the"; lit "fox"] (1 # 2) H0 H1 Hn)
    as H.
  destruct (PriorityCalculator.selectWordsToRemove [lit "of"; lit "the"; lit "fox"] (1 # 2))
    as [toKeep toRemove].
  destruct H as (Hlen & _ & Happ). split; [exact Hlen | exact Happ].
Defined.

(** ** Degenerate inputs of the scoring functions *)

Section ScoringGuards.
Import Tfidf PriorityCalculator.
Variable ln : Q -> Q.

Lemma of_nat_finite (n : nat) : finite (of_nat n).
Proof. exact I. Qed.

Lemma of_nat_pos (n : nat) : 0 < n -> (0 < inject_Z (Z.of_nat n))%Q.
Proof. intros H. change 0%Q with (inject_Z 0). rewrite <- Zlt_Qlt. lia. Qed.

(** A quotient of two counts with a positive divisor is a number. *)
Lemma div_of_nat (a b : nat) :
  0 < b -> div (of_nat a) (of_nat b) = Num (inject_Z (Z.of_nat a) / inject_Z (Z.of_nat b)).
Proof.
  intros Hb. unfold div, of_nat.
  destruct (Qeq_bool (inject_Z (Z.of_nat b)) 0) eqn:E; [| reflexivity].
  apply Qeq_bool_eq in E. pose proof (of_nat_pos b Hb) as Hpos. lra.
Qed.

Lemma calculateTF_finite (word : jsstring) (words : list jsstring) :
  finite (calculateTF word words).
Proof.
  unfold calculateTF. case_bool_decide as Hlen; [exact I |].
  rewrite div_of_nat by lia. exact I.
Qed.

Lemma calculateIDF_finite (word : jsstring) (documents : list (list jsstring)) :
  finite (calculateIDF ln word documents).
Proof.
  unfold calculateIDF. case_bool_decide as Hnone; [exact I |].
  set (d := length (filter (fun doc => word ∈ doc) documents)) in *.
  assert (Hd : d <= length documents) by apply length_filter.
  rewrite div_of_nat by lia. unfold Math_log.
  assert (Hpos : (0 < inject_Z (Z.of_nat (length documents)) / inject_Z (Z.of_nat d))%Q).
  { apply Qlt_shift_div_l; [apply of_nat_pos; lia |].
    rewrite Qmult_0_l. apply of_nat_pos. lia. }
  apply Qgt_alt in Hpos. rewrite Hpos. exact I.
Qed.


(** The largest and the smallest of finite scores, when there is one. *)
Lemma foldl_max2_finite (l : list num) (a : Q) :
  Forall finite l -> exists b, foldl max2 (Num a) l = Num b.
Proof.
  intros Hl. revert a. induction Hl as [| x l Hx _ IH]; intros a; [eauto |].
  destruct x as [q | | |]; try contradiction. cbn [foldl].
  unfold max2. destruct (lt (Num a) (Num q)); apply IH.
Qed.

Lemma foldl_min2_finite (l : list num) (a : Q) :
  Forall finite l -> exists b, foldl min2 (Num a) l = Num b.
Proof.
  intros Hl. revert a. induction Hl as [| x l Hx _ IH]; intros a; [eauto |].
  destruct x as [q | | |]; try contradiction. cbn [foldl].
  unfold min2. destruct (lt (Num q) (Num a)); apply IH.
Qed.

Lemma Math_max_finite (l : list num) :
  l <> [] -> Forall finite l -> exists b, Math_max l = Num b.
Proof.
  intros Hne Hl. destruct Hl as [| x l Hx Hl]; [contradiction |].
  destruct x as [q | | |]; try contradiction.
  unfold Math_max. cbn. apply foldl_max2_finite. exact Hl.
Qed.

Lemma Math_min_finite (l : list num) :
  l <> [] -> Forall finite l -> exists b, Math_min l = Num b.
Proof.
  intros Hne Hl. destruct Hl as [| x l Hx Hl]; [contradiction |].
  destruct x as [q | | |]; try contradiction.
  unfold Math_min. cbn. apply foldl_min2_finite. exact Hl.
Qed.








End ScoringGuards.


(** ** The location score of a word *)

Section LocationScore.
Import TextProcessor PriorityCalculator.
Variable toLowerCase : jsstring -> jsstring.
Variable sentenceTokenizer : jsstring -> list jsstring.
Variable tokenizer : jsstring -> list jsstring.

Lemma push_word_numbered (paragraphIndex : nat) (b : Builder) (word : jsstring) :
  numbered b -> numbered (push_word toLowerCase paragraphIndex b word).
Proof.
  intros [Hpos Hseq]. unfold numbered, push_word. cbn.
  rewrite length_app, fmap_app, Hseq. cbn. split; [lia |].
  rewrite Nat.add_1_r, seq_S, Hpos. reflexivity.
Qed.

Lemma push_words_numbered (paragraphIndex : nat) (ws : list jsstring) (b : Builder) :
  numbered b -> numbered (foldl (push_word toLowerCase paragraphIndex) b ws).
Proof.
  revert b. induction ws as [| w ws IH]; intros b Hb; [exact Hb |].
  cbn. apply IH, push_word_numbered, Hb.
Qed.

Lemma push_sentence_numbered (paragraphIndex : nat) (b : Builder) (s : jsstring) :
  numbered b -> numbered (push_sentence toLowerCase tokenizer paragraphIndex b s).
Proof.
  intros Hb. unfold push_sentence.
  pose proof (push_words_numbered paragraphIndex
                (tokenizeWords toLowerCase tokenizer s false false) b Hb) as H.
  exact H.
Qed.

Lemma push_paragraph_numbered (b : Builder) (p : jsstring) (paragraphIndex : nat) :
  numbered b ->
  numbered (push_paragraph toLowerCase sentenceTokenizer tokenizer b p paragraphIndex).
Proof.
  unfold push_paragraph. generalize (tokenizeSentences sentenceTokenizer p) as ss.
  intros ss. revert b. induction ss as [| s ss IH]; intros b Hb; [exact Hb |].
  cbn. apply IH, push_sentence_numbered, Hb.
Qed.

(** [position] is the index of the word in the whole text, not in its
    sentence. *)
Lemma structureText_positions (text : jsstring) :
  position <$> words (structureText toLowerCase sentenceTokenizer tokenizer text)
  = seq 0 (length (words (structureText toLowerCase sentenceTokenizer tokenizer text))).
Proof.
  unfold structureText. cbn [words].
  assert (H : forall ps i b, numbered b ->
            numbered (forEach_indexed
                        (push_paragraph toLowerCase sentenceTokenizer tokenizer) ps i b)).
  { induction ps as [| p ps IH]; intros i b Hb; [exact Hb |].
    cbn. apply IH, push_paragraph_numbered, Hb. }
  apply H. split; reflexivity.
Qed.

End LocationScore.

(** C2 on a text of two sentences, "Cats chase mice. Dogs bark loudly.": the
    scores fed into the priority are 1, 2/3, 1/3 for the first sentence but
    0, -1/3, -2/3 for the second, where the position inside the sentence
    gives 1, 2/3, 1/3 again. *)
Theorem locationScore_second_sentence :
  let scores :=
    PriorityCalculator.locationScores ascii_toLowerCase (fun _ => 0%Q)
      plain_sentenceTokenizer plain_tokenizer
      (lit "Cats chase mice. Dogs bark loudly.") in
  Forall2 (fun got want => got.1 = lit want.1 /\ num_eqv got.2 (Num want.2)) scores
    [("Cats"%string, 1%Q); ("chase"%string, (2 # 3)%Q); ("mice"%string, (1 # 3)%Q);
     ("Dogs"%string, 0%Q); ("bark"%string, (- (1 # 3))%Q);
     ("loudly"%string, (- (2 # 3))%Q)]
  /\ Forall2 (fun want got => num_eqv want (Num got))
       [locationScore_in_sentence 0 3; locationScore_in_sentence 1 3;
        locationScore_in_sentence 2 3]
       [1%Q; (2 # 3)%Q; (1 # 3)%Q]
  /\ ~ num_eqv (snd (default ([], NaN) (scores !! 3%nat))) (locationScore_in_sentence 0 3).
Proof.
  vm_compute. split; [| split].
  - repeat (constructor; [split; reflexivity |]). constructor.
  - repeat (constructor; [reflexivity |]). constructor.
  - discriminate.
Qed.

(** ** The fast-path diff *)

Section FilterFacts.
Context {A : Type} (P : A -> Prop) `{!forall x, Decision (P x)}.

Lemma filter_all (l : list A) : Forall P l -> filter P l = l.
Proof.
  induction 1 as [| x l Hx _ IH]; [reflexivity |].
  rewrite filter_cons_True by exact Hx. f_equal. exact IH.
Qed.

Lemma filter_none (l : list A) : Forall (fun x => ~ P x) l -> filter P l = [].
Proof.
  induction 1 as [| x l Hx _ IH]; [reflexivity |].
  rewrite filter_cons_False by exact Hx. exact IH.
Qed.

End FilterFacts.

Section FastPathDiff.
Import WordMatcher.
Variable toLowerCase : jsstring -> jsstring.

Lemma elem_of_set_add (s : list jsstring) (x y : jsstring) :
  y ∈ set_add s x <-> y ∈ s \/ y = x.
Proof.
  unfold set_add. case_bool_decide as Hin.
  - split; [auto | intros [H | ->]; assumption].
  - rewrite elem_of_app, list_elem_of_singleton. reflexivity.
Qed.

Lemma NoDup_set_add (s : list jsstring) (x : jsstring) :
  NoDup s -> NoDup (set_add s x).
Proof.
  intros Hs. unfold set_add. case_bool_decide as Hin; [exact Hs |].
  apply NoDup_app. split; [exact Hs |]. split; [| apply NoDup_singleton].
  intros y Hy Hy'. apply list_elem_of_singleton in Hy'. subst. contradiction.
Qed.

(** Adding the members of a list one by one. *)
Lemma elem_of_foldl_set_add (l acc : list jsstring) (y : jsstring) :
  y ∈ foldl set_add acc l <-> y ∈ acc \/ y ∈ l.
Proof.
  revert acc. induction l as [| x l IH]; intros acc; cbn.
  - rewrite elem_of_nil. tauto.
  - rewrite IH, elem_of_set_add, elem_of_cons. tauto.
Qed.

Lemma NoDup_foldl_set_add (l acc : list jsstring) :
  NoDup acc -> NoDup (foldl set_add acc l).
Proof.
  revert acc. induction l as [| x l IH]; intros acc Hacc; cbn; [exact Hacc |].
  apply IH, NoDup_set_add, Hacc.
Qed.

Lemma elem_of_new_Set (l : list jsstring) (y : jsstring) : y ∈ new_Set l <-> y ∈ l.
Proof. unfold new_Set. rewrite elem_of_foldl_set_add, elem_of_nil. tauto. Qed.

Lemma NoDup_new_Set (l : list jsstring) : NoDup (new_Set l).
Proof. apply NoDup_foldl_set_add, NoDup_nil_2. Qed.

(** The matches are the members of the source set that the target set has,
    in the order of the source set. *)
Lemma foldl_matches (T l acc : list jsstring) :
  NoDup (acc ++ l) ->
  foldl (fun matches word => if set_has T word then set_add matches word else matches) acc l
  = acc ++ filter (fun w => w ∈ T) l.
Proof.
  revert acc. induction l as [| x l IH]; intros acc Hnd; cbn [foldl].
  - rewrite filter_nil, app_nil_r. reflexivity.
  - assert (Hx : x ∉ acc).
    { apply NoDup_app in Hnd as (_ & Hdisj & _). intros Hin.
      apply (Hdisj x Hin). left. }
    assert (Hnd' : NoDup ((acc ++ [x]) ++ l)) by (rewrite <- app_assoc; exact Hnd).
    unfold set_has. rewrite filter_cons. case_bool_decide as HT.
    + rewrite decide_True by exact HT.
      unfold set_add. rewrite bool_decide_eq_false_2 by exact Hx.
      rewrite IH by exact Hnd'. rewrite <- app_assoc. reflexivity.
    + rewrite decide_False by exact HT. apply IH.
      apply NoDup_app in Hnd as (Ha & Hdisj & Hl).
      apply NoDup_app. split; [exact Ha |]. split.
      * intros y Hy Hy'. apply (Hdisj y Hy). right. exact Hy'.
      * apply NoDup_cons in Hl as [_ Hl]. exact Hl.
Qed.

Lemma findExactMatches_filter (sourceWords targetWords : list jsstring) :
  findExactMatches toLowerCase sourceWords targetWords
  = filter (fun w => w ∈ new_Set (toLowerCase <$> targetWords))
      (new_Set (toLowerCase <$> sourceWords)).
Proof.
  unfold findExactMatches. rewrite foldl_matches; [reflexivity |].
  apply NoDup_new_Set.
Qed.

Lemma elem_of_findExactMatches (sourceWords targetWords : list jsstring) (w : jsstring) :
  w ∈ findExactMatches toLowerCase sourceWords targetWords
  <-> w ∈ toLowerCase <$> sourceWords /\ w ∈ toLowerCase <$> targetWords.
Proof.
  rewrite findExactMatches_filter, list_elem_of_filter, !elem_of_new_Set. tauto.
Qed.

Lemma NoDup_findExactMatches (sourceWords targetWords : list jsstring) :
  NoDup (findExactMatches toLowerCase sourceWords targetWords).
Proof. rewrite findExactMatches_filter. apply NoDup_filter, NoDup_new_Set. Qed.

(** The unmatched words of a text are its words outside the matches, each
    once, in the order of their first occurrence. *)
Lemma foldl_unmatched (E l acc : list jsstring) :
  foldl (fun acc w => if negb (set_has E w) then set_add acc w else acc) acc l
  = foldl set_add acc (filter (fun w => w ∉ E) l).
Proof.
  revert acc. induction l as [| x l IH]; intros acc; cbn [foldl]; [reflexivity |].
  unfold set_has. rewrite filter_cons. case_bool_decide as HE; cbn [negb].
  - rewrite decide_False by tauto. apply IH.
  - rewrite decide_True by exact HE. cbn [foldl]. apply IH.
Qed.

Lemma unmatched_new_Set (E ws : list jsstring) :
  unmatched E ws = new_Set (filter (fun w => w ∉ E) ws).
Proof. apply foldl_unmatched. Qed.

Lemma elem_of_unmatched (E ws : list jsstring) (w : jsstring) :
  w ∈ unmatched E ws <-> w ∈ ws /\ w ∉ E.
Proof. rewrite unmatched_new_Set, elem_of_new_Set, list_elem_of_filter. tauto. Qed.

Lemma NoDup_unmatched (E ws : list jsstring) : NoDup (unmatched E ws).
Proof. rewrite unmatched_new_Set. apply NoDup_new_Set. Qed.

(** Only the members of the match set matter. *)
Lemma unmatched_ext (E E' ws : list jsstring) :
  (forall w, w ∈ E <-> w ∈ E') -> unmatched E ws = unmatched E' ws.
Proof.
  intros Hext. rewrite !unmatched_new_Set. f_equal.
  apply list_filter_iff. intros w. rewrite Hext. reflexivity.
Qed.

(** C5: exchanging the two texts keeps the kept words and exchanges the
    removed words with the added ones, as sets (here: as lists without
    repetition, up to order). *)
Theorem analyzeDifference_symmetric (A B : jsstring) :
  let ab := analyzeDifference toLowerCase A B in
  let ba := analyzeDifference toLowerCase B A in
  kept ab ≡ₚ kept ba /\ removed ab ≡ₚ added ba /\ added ab ≡ₚ removed ba
  /\ NoDup (kept ab) /\ NoDup (removed ab) /\ NoDup (added ab).
Proof.
  cbn. set (wa := toLowerCase <$> words_of A). set (wb := toLowerCase <$> words_of B).
  assert (Hsym : forall w, w ∈ findExactMatches toLowerCase wa wb
                           <-> w ∈ findExactMatches toLowerCase wb wa).
  { intros w. rewrite !elem_of_findExactMatches. tauto. }
  split; [| split; [| split]].
  - apply NoDup_Permutation; [apply NoDup_findExactMatches .. | exact Hsym].
  - rewrite (unmatched_ext _ _ wa Hsym). reflexivity.
  - rewrite (unmatched_ext _ _ wb Hsym). reflexivity.
  - split; [apply NoDup_findExactMatches |].
    split; apply NoDup_unmatched.
Qed.

(** The scenario of the specification. *)
Example analyzeDifference_scenario :
  analyzeDifference ascii_toLowerCase (lit "the quick brown fox") (lit "the slow fox runs")
  = mkDiff [lit "the"; lit "fox"] [lit "quick"; lit "brown"] [lit "slow"; lit "runs"] [].
Proof. vm_compute. reflexivity. Qed.

(** Lower-casing a lower-cased string changes nothing. *)
Hypothesis toLowerCase_idempotent :
  forall s, toLowerCase (toLowerCase s) = toLowerCase s.

(** C4: the diff of a text with itself keeps every lower-cased token of the
    text, each once, and removes, adds and morphs nothing. *)
Theorem analyzeDifference_self (A : jsstring) :
  let d := analyzeDifference toLowerCase A A in
  kept d = new_Set (toLowerCase <$> words_of A)
  /\ NoDup (kept d)
  /\ (forall w, w ∈ kept d <-> exists t, t ∈ words_of A /\ w = toLowerCase t)
  /\ removed d = [] /\ added d = [] /\ morphed d = [].
Proof.
  cbn. set (ws := toLowerCase <$> words_of A).
  assert (Hidem : toLowerCase <$> ws = ws).
  { unfold ws. rewrite <- list_fmap_compose. apply list_fmap_ext.
    intros i t _. apply toLowerCase_idempotent. }
  assert (Hkept : findExactMatches toLowerCase ws ws = new_Set ws).
  { rewrite findExactMatches_filter, Hidem.
    apply filter_all. apply Forall_forall. auto. }
  rewrite Hkept.
  assert (Hnone : unmatched (new_Set ws) ws = []).
  { rewrite unmatched_new_Set.
    rewrite filter_none; [reflexivity |]. apply Forall_forall.
    intros w Hw Hnot. apply Hnot, elem_of_new_Set, Hw. }
  rewrite Hnone. repeat split; try apply NoDup_new_Set.
  - intros Hw. apply elem_of_new_Set, list_elem_of_fmap in Hw as (t & -> & Ht). eauto.
  - intros (t & Ht & ->). apply elem_of_new_Set, list_elem_of_fmap. eauto.
Qed.

End FastPathDiff.

Lemma ascii_lower_idempotent (c : N) : ascii_lower (ascii_lower c) = ascii_lower c.
Proof.
  unfold ascii_lower.
  destruct ((65 <=? c)%N && (c <=? 90)%N) eqn:E; [| rewrite E; reflexivity].
  apply andb_true_iff in E as [E1 E2].
  apply N.leb_le in E1. apply N.leb_le in E2.
  replace ((65 <=? c + 32)%N && (c + 32 <=? 90)%N) with false; [reflexivity |].
  symmetry. apply andb_false_iff. right. apply N.leb_gt. lia.
Qed.

Lemma ascii_toLowerCase_idempotent (s : jsstring) :
  ascii_toLowerCase (ascii_toLowerCase s) = ascii_toLowerCase s.
Proof.
  unfold ascii_toLowerCase. rewrite <- list_fmap_compose.
  apply list_fmap_ext. intros i c _. apply ascii_lower_idempotent.
Qed.

Lemma analyzeDifference_self_witness :
  (forall s, ascii_toLowerCase (ascii_toLowerCase s) = ascii_toLowerCase s)
  /\ let d := WordMatcher.analyzeDifference ascii_toLowerCase
                (lit "The fox saw the Fox") (lit "The fox saw the Fox") in
     WordMatcher.kept d = new_Set (ascii_toLowerCase <$> words_of (lit "The fox saw the Fox"))
     /\ WordMatcher.removed d = [] /\ WordMatcher.added d = [].
Proof.
  split; [exact ascii_toLowerCase_idempotent |].
  destruct (analyzeDifference_self ascii_toLowerCase ascii_toLowerCase_idempotent
              (lit "The fox saw the Fox")) as (Hkept & _ & _ & Hrem & Hadd & _).
  split; [exact Hkept | split; [exact Hrem | exact Hadd]].
Defined.

Example analyzeDifference_self_example :
  WordMatcher.analyzeDifference ascii_toLowerCase
    (lit "The fox saw the Fox") (lit "The fox saw the Fox")
  = WordMatcher.mkDiff [lit "the"; lit "fox"; lit "saw"] [] [] [].
Proof. vm_compute. reflexivity. Qed.

(** ** The re-projection of a diff on the rendered words *)

Section Reprojection.
Import App.
Variable toLowerCase : jsstring -> jsstring.

Lemma used_insert_ne (i j : nat) (U : gset nat) :
  i <> j -> i ∈ {[j]} ∪ U <-> i ∈ U.
Proof.
  intros Hne. rewrite elem_of_union, elem_of_singleton. tauto.
Qed.

Lemma used_insert_here (i : nat) (U : gset nat) : i ∈ {[i]} ∪ U.
Proof. apply elem_of_union. left. apply elem_of_singleton. reflexivity. Qed.

Lemma assigned_snoc (w : jsstring) (refs : list WordRef) (r : WordRef) :
  assigned toLowerCase w (refs ++ [r])
  = assigned toLowerCase w refs + (if decide (toLowerCase (word r) = w) then 1 else 0).
Proof.
  unfold assigned. rewrite filter_app. rewrite length_app.
  rewrite filter_cons.
  case_decide; reflexivity.
Qed.

Lemma proto_key_proto : lit "__proto__" ∈ Object_prototype_keys.
Proof. apply list_elem_of_In. vm_compute. right. left. reflexivity. Qed.

(** Reading a key other than the one written. *)
Lemma obj_get_set_ne (m : gmap jsstring propval) (k w : jsstring) (v : propval) :
  k <> w -> obj_get (obj_set m k v) w = obj_get m w.
Proof.
  intros Hne. unfold obj_set. case_bool_decide; [reflexivity |].
  unfold obj_get. rewrite lookup_insert_ne by exact Hne. reflexivity.
Qed.

(** Reading the key written, when it is not an inherited one. *)
Lemma obj_get_set_eq (m : gmap jsstring propval) (w : jsstring) (v : propval) :
  w ∉ Object_prototype_keys -> obj_get (obj_set m w v) w = Some v.
Proof.
  intros Hw. unfold obj_set. case_bool_decide as Hp.
  - subst. exfalso. apply Hw, proto_key_proto.
  - unfold obj_get. rewrite lookup_insert_eq. reflexivity.
Qed.

Lemma inherited_text_empty : inherited_text ∅.
Proof.
  intros w Hw. unfold obj_get. rewrite lookup_empty.
  rewrite bool_decide_eq_true_2 by exact Hw. reflexivity.
Qed.

Lemma obj_get_set_text (m : gmap jsstring propval) (w : jsstring) :
  obj_get m w = Some PText -> obj_get (obj_set m w PText) w = Some PText.
Proof.
  intros H. unfold obj_set. case_bool_decide; [exact H |].
  unfold obj_get. rewrite lookup_insert_eq. reflexivity.
Qed.

Lemma gt0_count (m : gmap jsstring propval) (w : jsstring) :
  gt0 (obj_get m w) = true ->
  exists n, obj_get m w = Some (PNum n) /\ (0 < n)%Z
            /\ obj_decr m w = obj_set m w (PNum (n - 1)).
Proof.
  unfold gt0, obj_decr. destruct (obj_get m w) as [[n |] |]; try discriminate.
  intros H. apply Z.ltb_lt in H. eauto.
Qed.

Lemma gt0_numeric (m : gmap jsstring propval) (w : jsstring) :
  numeric m w -> gt0 (obj_get m w) = false -> (count_of m w <= 0)%Z.
Proof.
  unfold numeric, gt0, count_of. destruct (obj_get m w) as [[n |] |]; intros Hn H; lia.
Qed.

(** *** Counting the words of a list of the diff *)

Lemma count_step_numeric (m : gmap jsstring propval) (x w : jsstring) :
  w ∉ Object_prototype_keys -> numeric m w ->
  numeric (count_step toLowerCase m x) w
  /\ count_of (count_step toLowerCase m x) w
     = (count_of m w + (if decide (toLowerCase x = w) then 1 else 0))%Z.
Proof.
  intros Hw Hnum. unfold count_step, numeric, count_of in *.
  destruct (decide (toLowerCase x = w)) as [-> | Hne].
  - rewrite obj_get_set_eq by exact Hw.
    destruct (obj_get m w) as [[n |] |]; cbn; try (split; [discriminate | lia]).
    congruence.
  - rewrite obj_get_set_ne by exact Hne. split; [exact Hnum | lia].
Qed.

Lemma count_step_inherited (m : gmap jsstring propval) (x : jsstring) :
  inherited_text m -> inherited_text (count_step toLowerCase m x).
Proof.
  intros Hm w Hw. unfold count_step.
  destruct (decide (toLowerCase x = w)) as [-> | Hne].
  - rewrite (Hm w Hw). cbn. apply obj_get_set_text, Hm, Hw.
  - rewrite obj_get_set_ne by exact Hne. apply Hm, Hw.
Qed.

Lemma foldl_count_step (l : list jsstring) (m : gmap jsstring propval) (w : jsstring) :
  w ∉ Object_prototype_keys -> numeric m w ->
  numeric (foldl (count_step toLowerCase) m l) w
  /\ count_of (foldl (count_step toLowerCase) m l) w
     = (count_of m w + Z.of_nat (occurrences toLowerCase w l))%Z.
Proof.
  intros Hw. revert m. induction l as [| x l IH]; intros m Hnum; cbn [foldl].
  - split; [exact Hnum |]. unfold occurrences. cbn. lia.
  - destruct (count_step_numeric m x w Hw Hnum) as [Hnum' Hc].
    destruct (IH _ Hnum') as [Hnum'' Hc'']. split; [exact Hnum'' |].
    rewrite Hc'', Hc. unfold occurrences. rewrite filter_cons.
    destruct (decide (toLowerCase x = w)); cbn [length]; lia.
Qed.

Lemma wordCounts_count (l : list jsstring) (w : jsstring) :
  w ∉ Object_prototype_keys ->
  numeric (wordCounts toLowerCase l) w
  /\ count_of (wordCounts toLowerCase l) w = Z.of_nat (occurrences toLowerCase w l).
Proof.
  intros Hw.
  assert (H0 : obj_get ∅ w = None).
  { unfold obj_get. rewrite lookup_empty, bool_decide_eq_false_2 by exact Hw. reflexivity. }
  destruct (foldl_count_step l ∅ w Hw) as [Hnum Hc].
  { unfold numeric. rewrite H0. discriminate. }
  split; [exact Hnum |]. unfold wordCounts.
  rewrite Hc. unfold count_of. rewrite H0. lia.
Qed.

Lemma wordCounts_inherited (l : list jsstring) : inherited_text (wordCounts toLowerCase l).
Proof.
  unfold wordCounts. generalize inherited_text_empty.
  generalize (∅ : gmap jsstring propval) as m.
  induction l as [| x l IH]; intros m Hm; cbn [foldl]; [exact Hm |].
  apply IH, count_step_inherited, Hm.
Qed.

(** *** One matching walk over the rendered words *)

Abbreviation walk ws i st := (forEach_indexed (match_step toLowerCase) ws i st).

(** The step either assigns the index or leaves the state alone. *)
Lemma match_step_cases (st : Walk) (x : jsstring) (i : nat) :
  (gt0 (obj_get (counts st) (toLowerCase x)) = true /\ (i ∉ used st)
   /\ match_step toLowerCase st x i
      = mkWalk (obj_decr (counts st) (toLowerCase x)) ({[i]} ∪ used st)
          (out st ++ [mkRef x i]))
  \/ ((gt0 (obj_get (counts st) (toLowerCase x)) = false \/ i ∈ used st)
      /\ match_step toLowerCase st x i = st).
Proof.
  unfold match_step.
  destruct (gt0 (obj_get (counts st) (toLowerCase x))) eqn:Hgt; cbn [andb].
  - case_bool_decide as Hin; cbn [negb]; [right | left]; auto.
  - right. auto.
Qed.

Lemma available_empty (w : jsstring) (ws : list jsstring) (i : nat) :
  available toLowerCase w ws i ∅ = occurrences toLowerCase w ws.
Proof.
  revert i. induction ws as [| x ws IH]; intros i; [reflexivity |].
  cbn [available]. rewrite IH. unfold occurrences. rewrite filter_cons.
  case_bool_decide as H; destruct (decide (toLowerCase x = w)) as [E | E];
    cbn [length]; try lia.
  - tauto.
  - exfalso. apply H. split; [exact E | apply not_elem_of_empty].
Qed.

(** An index before the walk does not matter to what is available. *)
Lemma available_insert_lt (w : jsstring) (ws : list jsstring) (i j : nat) (U : gset nat) :
  j < i -> available toLowerCase w ws i ({[j]} ∪ U) = available toLowerCase w ws i U.
Proof.
  revert i. induction ws as [| x ws IH]; intros i Hlt; [reflexivity |].
  cbn [available]. rewrite IH by lia.
  assert (Hiff : toLowerCase x = w /\ (i ∉ {[j]} ∪ U) <-> toLowerCase x = w /\ (i ∉ U)).
  { rewrite used_insert_ne by lia. reflexivity. }
  rewrite (bool_decide_ext _ _ Hiff). reflexivity.
Qed.

(** The walk touches no index before its start. *)
Lemma walk_used_before (ws : list jsstring) (i j : nat) (st : Walk) :
  j < i -> j ∈ used (walk ws i st) <-> j ∈ used st.
Proof.
  revert i st. induction ws as [| x ws IH]; intros i st Hlt; [reflexivity |].
  cbn [forEach_indexed]. rewrite IH by lia.
  destruct (match_step_cases st x i) as [(_ & _ & ->) | (_ & ->)]; [| reflexivity].
  cbn. apply used_insert_ne. lia.
Qed.

Lemma match_step_numeric (st : Walk) (x w : jsstring) (i : nat) :
  numeric (counts st) w -> numeric (counts (match_step toLowerCase st x i)) w.
Proof.
  intros Hnum.
  destruct (match_step_cases st x i) as [(Hgt & _ & ->) | (_ & ->)]; [| exact Hnum].
  cbn. destruct (gt0_count _ _ Hgt) as (n & Hget & Hn & ->).
  unfold numeric in *. destruct (decide (toLowerCase x = w)) as [<- | Hne].
  - unfold obj_set. case_bool_decide; [exact Hnum |].
    unfold obj_get. rewrite lookup_insert_eq. discriminate.
  - rewrite obj_get_set_ne by exact Hne. exact Hnum.
Qed.

(** What one walk assigns to a word that is not an inherited key: as many
    occurrences as the count asks for, or all the available ones when there
    are fewer. *)
Lemma walk_assigned (w : jsstring) (ws : list jsstring) (i : nat) (st : Walk) :
  w ∉ Object_prototype_keys -> numeric (counts st) w ->
  assigned toLowerCase w (out (walk ws i st))
  = assigned toLowerCase w (out st)
    + Nat.min (Z.to_nat (count_of (counts st) w)) (available toLowerCase w ws i (used st)).
Proof.
  intros Hw. revert i st. induction ws as [| x ws IH]; intros i st Hnum.
  - cbn. lia.
  - cbn [forEach_indexed available].
    rewrite IH by (apply match_step_numeric; exact Hnum).
    destruct (match_step_cases st x i) as [(Hgt & Hi & ->) | (Hno & ->)].
    + cbn [counts used out]. rewrite assigned_snoc, available_insert_lt by lia.
      cbn [word]. destruct (gt0_count _ _ Hgt) as (n & Hget & Hn & ->).
      destruct (decide (toLowerCase x = w)) as [E | E].
      * rewrite bool_decide_eq_true_2 by auto. subst w.
        unfold count_of. rewrite obj_get_set_eq, Hget by exact Hw. lia.
      * rewrite bool_decide_eq_false_2 by tauto.
        unfold count_of. rewrite obj_get_set_ne by exact E. lia.
    + case_bool_decide as H; [| lia].
      destruct H as [E Hi]. subst w.
      destruct Hno as [Hgt | Hin]; [| contradiction].
      pose proof (gt0_numeric _ _ Hnum Hgt). lia.
Qed.

(** An inherited key is never assigned. *)
Lemma walk_inherited (w : jsstring) (ws : list jsstring) (i : nat) (st : Walk) :
  w ∈ Object_prototype_keys -> obj_get (counts st) w = Some PText ->
  assigned toLowerCase w (out (walk ws i st)) = assigned toLowerCase w (out st).
Proof.
  intros Hw. revert i st. induction ws as [| x ws IH]; intros i st Htext; [reflexivity |].
  cbn [forEach_indexed].
  destruct (match_step_cases st x i) as [(Hgt & Hi & Hst) | (Hno & Hst)]; rewrite Hst.
  - rewrite IH.
    + cbn [out]. rewrite assigned_snoc. cbn [word].
      destruct (decide (toLowerCase x = w)) as [E | E]; [| lia].
      subst w. rewrite Htext in Hgt. discriminate.
    + cbn [counts]. destruct (gt0_count _ _ Hgt) as (n & Hget & Hn & ->).
      rewrite obj_get_set_ne; [exact Htext |]. intros E. subst w. congruence.
  - apply IH. exact Htext.
Qed.

(** What the walk assigns is taken from what was available. *)
Lemma walk_available (w : jsstring) (ws : list jsstring) (i : nat) (st : Walk) :
  available toLowerCase w ws i (used (walk ws i st))
  + assigned toLowerCase w (out (walk ws i st))
  = available toLowerCase w ws i (used st) + assigned toLowerCase w (out st).
Proof.
  revert i st. induction ws as [| x ws IH]; intros i st; [reflexivity |].
  cbn [forEach_indexed available].
  pose proof (IH (S i) (match_step toLowerCase st x i)) as IHs.
  pose proof (walk_used_before ws (S i) i (match_step toLowerCase st x i)
                ltac:(lia)) as Hbefore.
  destruct (match_step_cases st x i) as [(Hgt & Hi & Hst) | (Hno & Hst)];
    rewrite Hst in *.
  - cbn [used out] in *. rewrite assigned_snoc, available_insert_lt in IHs by lia.
    cbn [word] in IHs.
    rewrite (bool_decide_eq_false_2 (_ /\ (i ∉ used (walk ws (S i) _)))).
    2: { intros [_ Hn]. apply Hn, Hbefore, used_insert_here. }
    destruct (decide (toLowerCase x = w)) as [E | E].
    + rewrite bool_decide_eq_true_2 by auto. lia.
    + rewrite bool_decide_eq_false_2 by tauto. lia.
  - assert (Hiff : toLowerCase x = w /\ (i ∉ used (walk ws (S i) st))
                   <-> toLowerCase x = w /\ (i ∉ used st)).
    { rewrite Hbefore. reflexivity. }
    rewrite (bool_decide_ext _ _ Hiff). lia.
Qed.

(** Every reference the walk pushes is an occurrence of its word at its
    index. *)
Lemma walk_refs (rendered ws : list jsstring) (i : nat) (st : Walk) :
  (forall j, ws !! j = rendered !! (i + j)) ->
  Forall (fun r => rendered !! index r = Some (word r)) (out st) ->
  Forall (fun r => rendered !! index r = Some (word r)) (out (walk ws i st)).
Proof.
  revert i st. induction ws as [| x ws IH]; intros i st Hws Hout; [exact Hout |].
  cbn [forEach_indexed]. apply IH.
  - intros j. replace (S i + j) with (i + S j) by lia. rewrite <- Hws. reflexivity.
  - destruct (match_step_cases st x i) as [(_ & _ & ->) | (_ & ->)]; [| exact Hout].
    cbn [out]. apply Forall_app. split; [exact Hout |].
    constructor; [| constructor]. cbn. rewrite <- (Nat.add_0_r i), <- Hws. reflexivity.
Qed.

(** After references [before] that hold used indices without repetition,
    the walk pushes fresh indices only. *)
Lemma walk_NoDup (before : list WordRef) (ws : list jsstring) (i : nat) (st : Walk) :
  NoDup (index <$> (before ++ out st)) ->
  (forall r, r ∈ before ++ out st -> index r ∈ used st) ->
  NoDup (index <$> (before ++ out (walk ws i st)))
  /\ (forall r, r ∈ before ++ out (walk ws i st) -> index r ∈ used (walk ws i st)).
Proof.
  revert i st. induction ws as [| x ws IH]; intros i st Hnd Hused; [auto |].
  cbn [forEach_indexed]. apply IH.
  - destruct (match_step_cases st x i) as [(_ & Hi & ->) | (_ & ->)]; [| exact Hnd].
    cbn [out]. rewrite app_assoc, fmap_app. cbn.
    apply NoDup_app. split; [exact Hnd |]. split; [| apply NoDup_singleton].
    intros k Hk Hk'. apply list_elem_of_singleton in Hk'. subst k.
    apply list_elem_of_fmap in Hk as (r & Hr & Hin). apply Hi. rewrite Hr.
    apply Hused, Hin.
  - destruct (match_step_cases st x i) as [(_ & Hi & ->) | (_ & ->)]; [| exact Hused].
    cbn [out used]. intros r Hr. rewrite app_assoc in Hr.
    apply elem_of_app in Hr as [Hr | Hr].
    + apply Hused in Hr. apply elem_of_union. right. exact Hr.
    + apply list_elem_of_singleton in Hr. subst r. cbn. apply used_insert_here.
Qed.

(** *** The two walks over the target words *)

Lemma match_words_kept (diffList rendered : list jsstring) (w : jsstring) :
  w ∉ Object_prototype_keys ->
  assigned toLowerCase w (out (match_words toLowerCase diffList rendered ∅))
  = Nat.min (occurrences toLowerCase w diffList) (occurrences toLowerCase w rendered).
Proof.
  intros Hw. unfold match_words.
  destruct (wordCounts_count diffList w Hw) as [Hnum Hc].
  rewrite walk_assigned by assumption.
  cbn [counts used out]. rewrite Hc, Nat2Z.id, available_empty. reflexivity.
Qed.

Lemma match_words_le (diffList rendered : list jsstring) (U : gset nat) (w : jsstring) :
  assigned toLowerCase w (out (match_words toLowerCase diffList rendered U))
  <= occurrences toLowerCase w diffList.
Proof.
  unfold match_words. destruct (decide (w ∈ Object_prototype_keys)) as [Hw | Hw].
  - rewrite walk_inherited; [cbn; lia | exact Hw |].
    cbn [counts]. apply wordCounts_inherited, Hw.
  - destruct (wordCounts_count diffList w Hw) as [Hnum Hc].
    rewrite walk_assigned by assumption.
    cbn [counts used out]. rewrite Hc, Nat2Z.id. cbn. lia.
Qed.

(** C1 (as the code has it): for a lower-case word that is not a property
    name every object inherits, the kept references are as many occurrences
    of the word in the target words as the diff's kept list counts, or all
    of them when the text has fewer; the added references are as many as the
    added list counts, or all the occurrences the kept walk left when those
    are fewer. For every word, a category never gets more references than
    the diff counts; no index of the target words is referenced twice, within
    or across the two categories; and every reference is the word at its
    index. *)
Theorem transformDiffData_multiplicity
    (diffData : WordMatcher.TransitionDiff) (fromText toText : jsstring) :
  let t := transformDiffData toLowerCase diffData fromText toText in
  let toWords := words_of toText in
  (forall w, w ∉ Object_prototype_keys ->
     assigned toLowerCase w (t_kept t)
     = Nat.min (occurrences toLowerCase w (WordMatcher.kept diffData))
         (occurrences toLowerCase w toWords)
     /\ assigned toLowerCase w (t_added t)
        = Nat.min (occurrences toLowerCase w (WordMatcher.added diffData))
            (occurrences toLowerCase w toWords - assigned toLowerCase w (t_kept t)))
  /\ (forall w,
        assigned toLowerCase w (t_kept t)
        <= occurrences toLowerCase w (WordMatcher.kept diffData)
        /\ assigned toLowerCase w (t_added t)
           <= occurrences toLowerCase w (WordMatcher.added diffData))
  /\ NoDup (index <$> (t_kept t ++ t_added t))
  /\ Forall (fun r => toWords !! index r = Some (word r)) (t_kept t ++ t_added t).
Proof.
  intros t toWords. unfold t, transformDiffData. cbn [t_kept t_added].
  fold toWords.
  set (keptWalk := match_words toLowerCase (WordMatcher.kept diffData) toWords ∅).
  set (addedWalk :=
         match_words toLowerCase (WordMatcher.added diffData) toWords (used keptWalk)).
  split; [| split; [| split]].
  - intros w Hw. split; [apply match_words_kept, Hw |].
    unfold addedWalk, match_words.
    destruct (wordCounts_count (WordMatcher.added diffData) w Hw) as [Hnum Hc].
    rewrite walk_assigned by assumption.
    cbn [counts used out]. rewrite Hc, Nat2Z.id.
    pose proof (walk_available w toWords 0
                  (mkWalk (wordCounts toLowerCase (WordMatcher.kept diffData)) ∅ []))
      as Hav.
    cbn [used out] in Hav. rewrite available_empty in Hav.
    fold (match_words toLowerCase (WordMatcher.kept diffData) toWords ∅) in Hav.
    fold keptWalk in Hav. cbn in Hav. cbn. lia.
  - intros w. split; apply match_words_le.
  - destruct (walk_NoDup [] toWords 0
                (mkWalk (wordCounts toLowerCase (WordMatcher.kept diffData)) ∅ []))
      as [Hnd Hused].
    { cbn. apply NoDup_nil_2. }
    { cbn. intros r Hr. apply elem_of_nil in Hr. contradiction. }
    cbn [app] in Hnd, Hused.
    fold (match_words toLowerCase (WordMatcher.kept diffData) toWords ∅) in Hnd, Hused.
    fold keptWalk in Hnd, Hused.
    apply (walk_NoDup (out keptWalk) toWords 0
             (mkWalk (wordCounts toLowerCase (WordMatcher.added diffData))
                (used keptWalk) [])).
    + cbn [out]. rewrite app_nil_r. exact Hnd.
    + cbn [out used]. rewrite app_nil_r. exact Hused.
  - apply Forall_app. split; apply walk_refs; cbn; auto.
Qed.

End Reprojection.

(** Two entries for a word the target text has once give one reference,
    not two; and in the diff of two texts that both have the word
    "constructor", the word is kept by the diff and gets no reference. *)
Lemma transformDiffData_not_exact :
  (let diffData := WordMatcher.mkDiff [lit "the"; lit "the"] [] [] [] in
   let t := App.transformDiffData ascii_toLowerCase diffData (lit "the") (lit "The fox") in
   App.t_kept t = [App.mkRef (lit "The") 0]
   /\ occurrences ascii_toLowerCase (lit "the") (WordMatcher.kept diffData) = 2
   /\ assigned ascii_toLowerCase (lit "the") (App.t_kept t)
      <> occurrences ascii_toLowerCase (lit "the") (WordMatcher.kept diffData))
  /\ (let fromText := lit "call the constructor" in
      let toText := lit "the constructor runs" in
      let diffData := WordMatcher.analyzeDifference ascii_toLowerCase fromText toText in
      let t := App.transformDiffData ascii_toLowerCase diffData fromText toText in
      WordMatcher.kept diffData = [lit "the"; lit "constructor"]
      /\ App.t_kept t = [App.mkRef (lit "the") 0]
      /\ assigned ascii_toLowerCase (lit "constructor") (App.t_kept t)
         <> occurrences ascii_toLowerCase (lit "constructor") (WordMatcher.kept diffData)).
Proof.
  vm_compute. split.
  - split; [reflexivity | split; [reflexivity | discriminate]].
  - split; [reflexivity | split; [reflexivity | discriminate]].
Qed.

(** The whole re-projection of that second diff. *)
Example transformDiffData_constructor :
  let fromText := lit "call the constructor" in
  let toText := lit "the constructor runs" in
  let diffData := WordMatcher.analyzeDifference ascii_toLowerCase fromText toText in
  App.transformDiffData ascii_toLowerCase diffData fromText toText
  = App.mkTransformed [App.mkRef (lit "the") 0] [App.mkRef (lit "call") 0]
      [App.mkRef (lit "runs") 2] [].
Proof. vm_compute. reflexivity. Qed.

Lemma transformDiffData_multiplicity_witness :
  let diffData := WordMatcher.mkDiff [lit "the"; lit "fox"] [] [lit "the"; lit "runs"] [] in
  let t := App.transformDiffData ascii_toLowerCase diffData
             (lit "The quick fox") (lit "The fox the the runs") in
  (lit "the" ∉ App.Object_prototype_keys)
  /\ assigned ascii_toLowerCase (lit "the") (App.t_kept t) = 1
  /\ assigned ascii_toLowerCase (lit "the") (App.t_added t) = 1
  /\ NoDup (App.index <$> (App.t_kept t ++ App.t_added t)).
Proof.
  intros diffData t.
  assert (Hw : lit "the" ∉ App.Object_prototype_keys).
  { intros Hin. apply list_elem_of_In in Hin. vm_compute in Hin.
    repeat (destruct Hin as [Hin | Hin]; [discriminate |]). exact Hin. }
  destruct (transformDiffData_multiplicity ascii_toLowerCase diffData
              (lit "The quick fox") (lit "The fox the the runs"))
    as (Hexact & _ & Hnd & _).
  destruct (Hexact (lit "the") Hw) as [Hk Ha].
  split; [exact Hw |]. split; [exact Hk |]. split; [exact Ha | exact Hnd].
Defined.

(** A slider value that parses to another level. *)
Lemma setLevel_spec_witness :
  let st := StateManager.mkAppState 1 ∅ ∅ false (None, 0%Z) ∅ None
              (StateManager.mkListeners [7] [] []) in
  (exists n, StateManager.parseInt_string (lit "2") = Some n
             /\ accepted (StateManager.currentLevel st) n)
  /\ (StateManager.setLevel StateManager.parseInt_string (lit "2") st).1.1 = true.
Proof.
  intros st.
  assert (Hacc : exists n, StateManager.parseInt_string (lit "2") = Some n
                           /\ accepted (StateManager.currentLevel st) n).
  { exists 2%Z. split; [reflexivity |]. split; [| discriminate].
    apply list_elem_of_In. cbn. tauto. }
  split; [exact Hacc |].
  pose proof (setLevel_spec jsstring StateManager.parseInt_string (lit "2") st) as H.
  destruct (StateManager.setLevel StateManager.parseInt_string (lit "2") st)
    as [[result st'] notices].
  destruct H as [Hiff _]. apply Hiff. exact Hacc.
Defined.

(** * Further properties of the code *)

(** ** Tokens: the words of a text, three ways *)

Section Tokens.

Lemma trimStart_nonspace (s : jsstring) :
  Forall (fun c => nonspace c = true) s -> trimStart s = s.
Proof.
  intros Hs. destruct Hs as [| c s Hc Hs]; [reflexivity |].
  cbn. unfold nonspace in Hc. apply negb_true_iff in Hc. rewrite Hc. reflexivity.
Qed.

(** A string without white space is its own trim. *)
Lemma trim_nonspace (s : jsstring) :
  Forall (fun c => nonspace c = true) s -> trim s = s.
Proof.
  intros Hs. unfold trim. rewrite (trimStart_nonspace s Hs).
  rewrite trimStart_nonspace by (apply Forall_reverse; exact Hs).
  apply reverse_involutive.
Qed.

Lemma trimStart_all_ws (s : jsstring) :
  trimStart s = [] -> Forall (fun c => is_ws c = true) s.
Proof.
  induction s as [| c s IH]; [constructor |].
  cbn. destruct (is_ws c) eqn:Hc; [| discriminate].
  intros H. constructor; [exact Hc | apply IH, H].
Qed.

Lemma trimStart_head (s : jsstring) :
  match trimStart s with
  | [] => True
  | c :: _ => is_ws c = false
  end.
Proof.
  induction s as [| c s IH]; [exact I |].
  cbn. destruct (is_ws c) eqn:Hc; [exact IH | exact Hc].
Qed.

(** A string whose trim is empty is white space only. *)
Lemma trim_empty_all_ws (s : jsstring) :
  truthy (trim s) = false -> Forall (fun c => is_ws c = true) s.
Proof.
  unfold trim. intros H.
  destruct (reverse (trimStart (reverse (trimStart s)))) as [| c r] eqn:E; [| discriminate].
  apply (f_equal reverse) in E. rewrite reverse_involutive in E. cbn in E.
  apply trimStart_all_ws in E. apply Forall_reverse in E.
  rewrite reverse_involutive in E.
  pose proof (trimStart_head s) as Hh.
  destruct (trimStart s) as [| c t] eqn:Et.
  - apply trimStart_all_ws, Et.
  - apply Forall_cons in E as [Hc _]. congruence.
Qed.

(** The runs of a class split at a code unit outside it. *)
Lemma match_runs_from_app (p : N -> bool) (x y cur : jsstring) (c : N) :
  p c = false ->
  match_runs_from p (x ++ c :: y) cur = match_runs_from p x cur ++ match_runs_from p y [].
Proof.
  intros Hc. revert cur. induction x as [| d x IH]; intros cur; cbn.
  - rewrite Hc. destruct (truthy cur); reflexivity.
  - destruct (p d); [apply IH |].
    destruct (truthy cur); cbn; rewrite IH; reflexivity.
Qed.

Lemma match_runs_from_cur (p : N -> bool) (s cur : jsstring) :
  Forall (fun c => p c = true) cur ->
  match_runs_from p s cur = match_runs p (cur ++ s).
Proof.
  unfold match_runs. intros Hcur. revert s.
  induction cur as [| c cur IH] using rev_ind; intros s; [reflexivity |].
  apply Forall_app in Hcur as [Hcur Hc]. apply Forall_cons in Hc as [Hc _].
  rewrite <- app_assoc. cbn [app]. rewrite <- IH by exact Hcur.
  cbn. rewrite Hc. reflexivity.
Qed.

Lemma match_runs_cons_out (p : N -> bool) (s : jsstring) (c : N) :
  p c = false -> match_runs p (c :: s) = match_runs p s.
Proof. intros Hc. unfold match_runs. cbn. rewrite Hc. reflexivity. Qed.

Lemma match_runs_all_out (p : N -> bool) (s : jsstring) :
  Forall (fun c => p c = false) s -> match_runs p s = [].
Proof.
  induction 1 as [| c s Hc _ IH]; [reflexivity |].
  rewrite match_runs_cons_out by exact Hc. exact IH.
Qed.

(** Splitting on white space and dropping the empty pieces gives the runs
    of code units that are not white space. *)
Lemma words_of_from (s cur : jsstring) (in_ws : bool) :
  Forall (fun c => nonspace c = true) cur ->
  (in_ws = true -> cur = []) ->
  filter (fun w => truthy (trim w) = true) (split_ws_from s cur in_ws)
  = match_runs_from nonspace s cur.
Proof.
  revert cur in_ws. induction s as [| c s IH]; intros cur in_ws Hcur Hin.
  - cbn [split_ws_from match_runs_from]. rewrite filter_cons, filter_nil.
    rewrite (trim_nonspace cur Hcur). destruct (truthy cur); reflexivity.
  - cbn [split_ws_from match_runs_from]. unfold nonspace at 1.
    destruct (is_ws c) eqn:Hc; cbn [negb].
    + destruct in_ws.
      * rewrite (Hin eq_refl). cbn [truthy]. apply IH; [constructor | auto].
      * rewrite filter_cons, (trim_nonspace cur Hcur).
        rewrite IH by (constructor || auto).
        destruct (truthy cur); reflexivity.
    + apply IH; [| discriminate].
      apply Forall_app. split; [exact Hcur |].
      constructor; [| constructor]. unfold nonspace. rewrite Hc. reflexivity.
Qed.

Lemma words_of_runs (text : jsstring) : words_of text = match_runs nonspace text.
Proof.
  unfold words_of, split_ws, match_runs. apply words_of_from; [constructor | discriminate].
Qed.

(** X1: the client counts as words exactly the tokens the diff and the
    re-projection work on, and as characters the code units; an empty text
    counts zero of each. *)
Theorem calculateTextStats_counts (text : jsstring) :
  Utils.wordCount (Utils.calculateTextStats text) = length (words_of text)
  /\ Utils.charCount (Utils.calculateTextStats text) = length text.
Proof.
  unfold Utils.calculateTextStats. rewrite words_of_runs.
  destruct text as [| c text]; cbn [truthy negb]; [repeat split |].
  repeat split.
Qed.

Lemma ws_run_has_lf_cons (c : N) (s : jsstring) :
  App.ws_run_has_lf (c :: s) = true -> is_ws c = true.
Proof.
  cbn [App.ws_run_has_lf]. destruct (c =? 10)%N eqn:E; [| destruct (is_ws c); [reflexivity | discriminate]].
  apply N.eqb_eq in E. subst. reflexivity.
Qed.

(** Cutting a text into paragraphs cuts inside white space only: the
    tokens of the paragraphs, one paragraph after the other, are the tokens
    of the text. *)
Lemma split_paragraphs_tokens (s cur : jsstring) (in_sep : bool) :
  (in_sep = true -> cur = []) ->
  concat (match_runs nonspace <$> App.split_paragraphs_from s cur in_sep)
  = match_runs nonspace (cur ++ s).
Proof.
  revert cur in_sep. induction s as [| c s IH]; intros cur in_sep Hsep.
  - cbn. rewrite !app_nil_r. reflexivity.
  - cbn [App.split_paragraphs_from]. destruct in_sep.
    + rewrite (Hsep eq_refl). cbn [app].
      destruct (App.ws_run_has_lf (c :: s)) eqn:Hlf.
      * rewrite IH by reflexivity. cbn [app].
        rewrite match_runs_cons_out; [reflexivity |].
        unfold nonspace. rewrite (ws_run_has_lf_cons c s Hlf). reflexivity.
      * rewrite IH by discriminate. reflexivity.
    + destruct ((c =? 10)%N && App.ws_run_has_lf s) eqn:Hcut.
      * cbn [fmap list_fmap concat]. rewrite IH by reflexivity. cbn [app].
        apply andb_true_iff in Hcut as [Hc _]. apply N.eqb_eq in Hc. subst c.
        unfold match_runs. rewrite match_runs_from_app by reflexivity. reflexivity.
      * rewrite IH by discriminate. rewrite <- app_assoc. reflexivity.
Qed.

(** A paragraph that is white space only renders no word, with or without
    the test the loop makes. *)
Lemma paragraph_words (paragraph : jsstring) :
  (if truthy (trim paragraph)
   then filter (fun word => truthy (trim word) = true) (split_ws paragraph)
   else [])
  = match_runs nonspace paragraph.
Proof.
  destruct (truthy (trim paragraph)) eqn:Ht.
  - fold (words_of paragraph). apply words_of_runs.
  - symmetry. apply match_runs_all_out.
    eapply Forall_impl; [apply trim_empty_all_ws, Ht |].
    intros c Hc. unfold nonspace. rewrite Hc. reflexivity.
Qed.

(** X2: the words [displayText] renders, in order, are the words
    [transformDiffData] numbers: the index of a reference is the
    [data-index] of the span that shows the word. *)
Theorem displayText_words_are_words_of (text : jsstring) :
  App.displayText_words text = words_of text.
Proof.
  unfold App.displayText_words.
  assert (Hfold : forall ps acc,
             foldl (fun rendered paragraph =>
                      if truthy (trim paragraph)
                      then rendered
                           ++ filter (fun word => truthy (trim word) = true)
                                (split_ws paragraph)
                      else rendered) acc ps
             = acc ++ concat (match_runs nonspace <$> ps)).
  { induction ps as [| p ps IH]; intros acc; cbn [foldl fmap list_fmap concat].
    - rewrite app_nil_r. reflexivity.
    - rewrite IH, <- (paragraph_words p).
      destruct (truthy (trim p)); [rewrite <- app_assoc |]; reflexivity. }
  rewrite Hfold, split_paragraphs_tokens by discriminate.
  cbn [app]. symmetry. apply words_of_runs.
Qed.

End Tokens.

Section StructureFacts.
Import TextProcessor.
Variable toLowerCase : jsstring -> jsstring.
Variable sentenceTokenizer : jsstring -> list jsstring.
Variable tokenizer : jsstring -> list jsstring.

(** The words of one sentence are appended with the index of the
    sentence. *)
Lemma push_words_shape (paragraphIndex : nat) (ws : list jsstring) (b : Builder) :
  exists new,
    allWords (foldl (push_word toLowerCase paragraphIndex) b ws) = allWords b ++ new
    /\ length new = length ws
    /\ Forall (fun w => sentence w = sentenceIndex b) new
    /\ sentenceIndex (foldl (push_word toLowerCase paragraphIndex) b ws) = sentenceIndex b
    /\ allSentences (foldl (push_word toLowerCase paragraphIndex) b ws) = allSentences b.
Proof.
  revert b. induction ws as [| w ws IH]; intros b; cbn [foldl].
  - exists []. rewrite app_nil_r. repeat split. constructor.
  - destruct (IH (push_word toLowerCase paragraphIndex b w))
      as (new & Hw & Hlen & Hall & Hidx & Hss).
    cbn [push_word allWords sentenceIndex allSentences] in *.
    eexists (_ :: new). rewrite Hw, <- app_assoc. cbn [app].
    split; [reflexivity |]. split; [cbn; lia |].
    split; [constructor; [reflexivity | exact Hall] |].
    split; assumption.
Qed.

Lemma words_in_sentence_none (k : nat) (ws : list Word) :
  Forall (fun w => sentence w <> k) ws -> words_in_sentence k ws = [].
Proof. intros H. apply filter_none. exact H. Qed.

Lemma words_in_sentence_all (k : nat) (ws : list Word) :
  Forall (fun w => sentence w = k) ws -> words_in_sentence k ws = ws.
Proof. intros H. apply filter_all. exact H. Qed.

Lemma push_sentence_built (paragraphIndex : nat) (b : Builder) (s : jsstring) :
  sentences_built b ->
  sentences_built (push_sentence toLowerCase tokenizer paragraphIndex b s).
Proof.
  intros (Hidx & Hlt & Hcount & Hsum). unfold push_sentence.
  destruct (push_words_shape paragraphIndex
              (tokenizeWords toLowerCase tokenizer s false false) b)
    as (new & Hw & Hlen & Hall & Hk & Hss).
  unfold sentences_built. cbn [allWords allSentences sentenceIndex].
  rewrite Hw, Hk, Hss.
  split; [| split; [| split]].
  - rewrite fmap_app, Hidx, seq_S. reflexivity.
  - apply Forall_app. split.
    + eapply Forall_impl; [exact Hlt |]. cbn. intros w Hw'. lia.
    + eapply Forall_impl; [exact Hall |]. cbn. intros w Hw'. lia.
  - apply Forall_app. split.
    + apply Forall_forall. intros si Hsi.
      assert (Hsi_lt : s_index si < sentenceIndex b).
      { assert (Hin : s_index si ∈ seq 0 (sentenceIndex b)).
        { rewrite <- Hidx. apply list_elem_of_fmap_2. exact Hsi. }
        apply elem_of_seq in Hin. lia. }
      unfold words_in_sentence. rewrite filter_app.
      fold (words_in_sentence (s_index si) (allWords b)).
      fold (words_in_sentence (s_index si) new).
      rewrite (words_in_sentence_none (s_index si) new).
      * rewrite app_nil_r. rewrite Forall_forall in Hcount. apply Hcount, Hsi.
      * eapply Forall_impl; [exact Hall |]. cbn. intros w Hw'. lia.
    + constructor; [| constructor]. cbn [s_index s_wordCount].
      unfold words_in_sentence. rewrite filter_app.
      fold (words_in_sentence (sentenceIndex b) (allWords b)).
      fold (words_in_sentence (sentenceIndex b) new).
      rewrite (words_in_sentence_none (sentenceIndex b) (allWords b)).
      * rewrite words_in_sentence_all by exact Hall. cbn. exact Hlen.
      * eapply Forall_impl; [exact Hlt |]. cbn. intros w Hw'. lia.
  - rewrite fmap_app, sum_list_with_app, length_app, Hsum. cbn [fmap list_fmap sum_list_with s_wordCount]. unfold id. lia.
Qed.

Lemma push_paragraph_built (b : Builder) (p : jsstring) (paragraphIndex : nat) :
  sentences_built b ->
  sentences_built (push_paragraph toLowerCase sentenceTokenizer tokenizer b p paragraphIndex).
Proof.
  unfold push_paragraph. generalize (tokenizeSentences sentenceTokenizer p) as ss.
  intros ss. revert b. induction ss as [| s ss IH]; intros b Hb; [exact Hb |].
  cbn [foldl]. apply IH, push_sentence_built, Hb.
Qed.

(** X3: [structureText] numbers the sentences 0, 1, 2, ... across the
    paragraphs; the word count a sentence records is the number of words
    that carry its index; every word carries the index of a sentence; and
    the word counts of the sentences add up to the word count of the
    text. *)
Theorem structureText_sentences (text : jsstring) :
  let s := structureText toLowerCase sentenceTokenizer tokenizer text in
  s_index <$> sentences s = seq 0 (sentenceCount s)
  /\ Forall (fun si => length (words_in_sentence (s_index si) (words s)) = s_wordCount si)
       (sentences s)
  /\ Forall (fun w => sentence w < sentenceCount s) (words s)
  /\ sum_list (s_wordCount <$> sentences s) = wordCount s.
Proof.
  cbn zeta. unfold structureText. cbn [sentences words sentenceCount wordCount].
  assert (H : forall ps i b, sentences_built b ->
            sentences_built (forEach_indexed
                        (push_paragraph toLowerCase sentenceTokenizer tokenizer) ps i b)).
  { induction ps as [| p ps IH]; intros i b Hb; [exact Hb |].
    cbn [forEach_indexed]. apply IH, push_paragraph_built, Hb. }
  destruct (H (parseParagraphs text) 0 (mkBuilder 0 0 [] []))
    as (Hidx & Hlt & Hcount & Hsum).
  { repeat split; constructor. }
  assert (Hn : sentenceIndex
                 (forEach_indexed (push_paragraph toLowerCase sentenceTokenizer tokenizer)
                    (parseParagraphs text) 0 (mkBuilder 0 0 [] []))
               = length (allSentences
                 (forEach_indexed (push_paragraph toLowerCase sentenceTokenizer tokenizer)
                    (parseParagraphs text) 0 (mkBuilder 0 0 [] [])))).
  { apply (f_equal length) in Hidx. rewrite length_fmap, length_seq in Hidx.
    symmetry. exact Hidx. }
  rewrite <- Hn. repeat split; assumption.
Qed.

End StructureFacts.

(** ** Sorting *)

Section StableSort.
Context {A : Type} (before : A -> A -> bool) (R : A -> A -> Prop) (P : A -> Prop).
(** On the elements at hand the comparator is a total preorder: what it
    puts strictly before comes before, what it does not may follow. *)
Hypothesis before_true : forall x y, P x -> P y -> before y x = true -> R y x.
Hypothesis before_false : forall x y, P x -> P y -> before y x = false -> R x y.
Hypothesis R_trans : forall x y z, P x -> P y -> P z -> R x y -> R y z -> R x z.

Lemma insert_sorted_Permutation (x : A) (l : list A) :
  insert_sorted before x l ≡ₚ x :: l.
Proof.
  induction l as [| y l IH]; cbn; [reflexivity |].
  destruct (before y x); [| reflexivity].
  rewrite IH. apply Permutation_swap.
Qed.

Lemma sort_stable_Permutation (l : list A) : sort_stable before l ≡ₚ l.
Proof.
  induction l as [| x l IH]; cbn; [reflexivity |].
  rewrite insert_sorted_Permutation. apply Permutation_skip. exact IH.
Qed.

Lemma insert_sorted_StronglySorted (x : A) (l : list A) :
  P x -> Forall P l -> StronglySorted R l -> StronglySorted R (insert_sorted before x l).
Proof.
  intros Hx Hl Hs. induction Hs as [| y l Hs IH Hy]; cbn.
  - constructor; [constructor | constructor].
  - apply Forall_cons in Hl as [HPy Hl].
    destruct (before y x) eqn:Hb.
    + constructor; [apply IH; exact Hl |].
      rewrite insert_sorted_Permutation. constructor; [| exact Hy].
      apply before_true; assumption.
    + assert (Hxy : R x y) by (apply before_false; assumption).
      constructor; [constructor; assumption |].
      constructor; [exact Hxy |].
      rewrite Forall_forall in Hy, Hl |- *. intros z Hz.
      apply (R_trans x y z); auto.
Qed.

Lemma sort_stable_StronglySorted (l : list A) :
  Forall P l -> StronglySorted R (sort_stable before l).
Proof.
  induction 1 as [| x l Hx Hl IH]; [constructor |].
  change (sort_stable before (x :: l)) with (insert_sorted before x (sort_stable before l)).
  apply insert_sorted_StronglySorted; [exact Hx | | exact IH].
  rewrite sort_stable_Permutation. exact Hl.
Qed.

End StableSort.

(** In a sorted list cut in two, the first part comes before the second. *)
Lemma StronglySorted_app_inv {A : Type} (R : A -> A -> Prop) (l1 l2 : list A) :
  StronglySorted R (l1 ++ l2) -> forall x y, x ∈ l1 -> y ∈ l2 -> R x y.
Proof.
  induction l1 as [| a l1 IH]; cbn; intros Hs x y Hx Hy.
  - apply elem_of_nil in Hx. contradiction.
  - apply StronglySorted_inv in Hs as [Hs Ha].
    apply elem_of_cons in Hx as [-> | Hx].
    + rewrite Forall_forall in Ha. apply Ha, elem_of_app. right. exact Hy.
    + apply (IH Hs); assumption.
Qed.

Lemma lt_true_le (a b : Q) : lt (Num a) (Num b) = true -> num_le (Num a) (Num b).
Proof.
  unfold lt, num_le, le. rewrite negb_true_iff. intros H.
  apply Qle_bool_iff. destruct (Qlt_le_dec a b) as [Hlt | Hge]; [lra |].
  apply Qle_bool_iff in Hge. congruence.
Qed.

Lemma lt_false_le (a b : Q) : lt (Num a) (Num b) = false -> num_le (Num b) (Num a).
Proof. unfold lt, num_le, le. rewrite negb_false_iff. auto. Qed.

Lemma num_le_trans (x y z : num) :
  finite x -> finite y -> finite z -> num_le x y -> num_le y z -> num_le x z.
Proof.
  destruct x, y, z; try contradiction. unfold num_le, le. intros _ _ _ H1 H2.
  apply Qle_bool_iff in H1. apply Qle_bool_iff in H2. apply Qle_bool_iff. lra.
Qed.

(** Sorting by a finite key, lowest first and highest first. *)
Lemma sort_ascending {A : Type} (key : A -> num) (l : list A) :
  Forall (fun x => finite (key x)) l ->
  StronglySorted (fun x y => num_le (key x) (key y))
    (sort_stable (fun y x => lt (key y) (key x)) l).
Proof.
  apply (sort_stable_StronglySorted _ _ (fun x => finite (key x))).
  - intros x y Hx Hy H. destruct (key x), (key y); try contradiction.
    apply lt_true_le, H.
  - intros x y Hx Hy H. destruct (key x), (key y); try contradiction.
    apply lt_false_le, H.
  - intros x y z Hx Hy Hz. apply num_le_trans; assumption.
Qed.

Lemma sort_descending {A : Type} (key : A -> num) (l : list A) :
  Forall (fun x => finite (key x)) l ->
  StronglySorted (fun x y => num_le (key y) (key x))
    (sort_stable (fun y x => lt (key x) (key y)) l).
Proof.
  apply (sort_stable_StronglySorted _ _ (fun x => finite (key x))).
  - intros x y Hx Hy H. destruct (key x), (key y); try contradiction.
    apply lt_true_le, H.
  - intros x y Hx Hy H. destruct (key x), (key y); try contradiction.
    apply lt_false_le, H.
  - intros x y z Hx Hy Hz H1 H2. apply (num_le_trans _ (key y)); assumption.
Qed.

(** [l.slice(0, k)] is a prefix of [l], and what it leaves follows. *)
Lemma slice_0_take {A : Type} (l : list A) (k : Z) :
  slice l 0 k = take (slice_bound (length l) k) l.
Proof.
  unfold slice. change (slice_bound (length l) 0) with 0.
  rewrite drop_0, Nat.sub_0_r. reflexivity.
Qed.

Lemma slice_bound_nonneg (len : nat) (k : Z) :
  (0 <= k)%Z -> slice_bound len k = Nat.min (Z.to_nat k) len.
Proof. intros Hk. unfold slice_bound. destruct (k <? 0)%Z eqn:E; [lia | reflexivity]. Qed.

(** ** TF-IDF *)

Section TfidfFacts.
Import Tfidf.
Variable toLowerCase : jsstring -> jsstring.
Variable ln : Q -> Q.
Variable tokenizer : jsstring -> list jsstring.

Lemma foldl_max2_upper (l : list num) (a : Q) :
  Forall finite l ->
  exists b, foldl max2 (Num a) l = Num b /\ (a <= b)%Q
            /\ Forall (fun x => num_le x (Num b)) l.
Proof.
  intros Hl. revert a. induction Hl as [| x l Hx _ IH]; intros a.
  - exists a. split; [reflexivity |]. split; [lra | constructor].
  - destruct x as [q | | |]; try contradiction. cbn [foldl].
    change (max2 (Num a) (Num q)) with (if lt (Num a) (Num q) then Num q else Num a).
    destruct (lt (Num a) (Num q)) eqn:Hlt.
    + destruct (IH q) as (b & -> & Hqb & Hall). exists b. split; [reflexivity |].
      apply lt_true_le in Hlt. unfold num_le, le in Hlt. apply Qle_bool_iff in Hlt.
      split; [lra |]. constructor; [| exact Hall].
      unfold num_le, le. apply Qle_bool_iff. exact Hqb.
    + destruct (IH a) as (b & -> & Hab & Hall). exists b. split; [reflexivity |].
      apply lt_false_le in Hlt. unfold num_le, le in Hlt. apply Qle_bool_iff in Hlt.
      split; [exact Hab |]. constructor; [| exact Hall].
      unfold num_le, le. apply Qle_bool_iff. lra.
Qed.

Lemma foldl_min2_lower (l : list num) (a : Q) :
  Forall finite l ->
  exists b, foldl min2 (Num a) l = Num b /\ (b <= a)%Q
            /\ Forall (fun x => num_le (Num b) x) l.
Proof.
  intros Hl. revert a. induction Hl as [| x l Hx _ IH]; intros a.
  - exists a. split; [reflexivity |]. split; [lra | constructor].
  - destruct x as [q | | |]; try contradiction. cbn [foldl].
    change (min2 (Num a) (Num q)) with (if lt (Num q) (Num a) then Num q else Num a).
    destruct (lt (Num q) (Num a)) eqn:Hlt.
    + destruct (IH q) as (b & -> & Hqb & Hall). exists b. split; [reflexivity |].
      apply lt_true_le in Hlt. unfold num_le, le in Hlt. apply Qle_bool_iff in Hlt.
      split; [lra |]. constructor; [| exact Hall].
      unfold num_le, le. apply Qle_bool_iff. exact Hqb.
    + destruct (IH a) as (b & -> & Hab & Hall). exists b. split; [reflexivity |].
      apply lt_false_le in Hlt. unfold num_le, le in Hlt. apply Qle_bool_iff in Hlt.
      split; [exact Hab |]. constructor; [| exact Hall].
      unfold num_le, le. apply Qle_bool_iff. lra.
Qed.

Lemma max2_cases (a x : num) : max2 a x = a \/ max2 a x = x.
Proof. unfold max2. destruct a, x; cbn; auto; destruct (negb _); auto. Qed.

Lemma min2_cases (a x : num) : min2 a x = a \/ min2 a x = x.
Proof. unfold min2. destruct a, x; cbn; auto; destruct (negb _); auto. Qed.

(** The largest and the smallest of a list are members of it. *)
Lemma foldl_max2_in (l : list num) (a : num) :
  foldl max2 a l = a \/ foldl max2 a l ∈ l.
Proof.
  revert a. induction l as [| x l IH]; intros a; [left; reflexivity |].
  cbn [foldl]. destruct (IH (max2 a x)) as [E | Hin].
  - rewrite E. destruct (max2_cases a x) as [-> | ->]; [left; reflexivity | right; left].
  - right. right. exact Hin.
Qed.

Lemma foldl_min2_in (l : list num) (a : num) :
  foldl min2 a l = a \/ foldl min2 a l ∈ l.
Proof.
  revert a. induction l as [| x l IH]; intros a; [left; reflexivity |].
  cbn [foldl]. destruct (IH (min2 a x)) as [E | Hin].
  - rewrite E. destruct (min2_cases a x) as [-> | ->]; [left; reflexivity | right; left].
  - right. right. exact Hin.
Qed.

Lemma Math_max_in (l : list num) (a : Q) : Math_max l = Num a -> Num a ∈ l.
Proof.
  unfold Math_max. intros H. destruct (foldl_max2_in l NInf) as [E | Hin].
  - congruence.
  - rewrite H in Hin. exact Hin.
Qed.

Lemma Math_min_in (l : list num) (a : Q) : Math_min l = Num a -> Num a ∈ l.
Proof.
  unfold Math_min. intros H. destruct (foldl_min2_in l PInf) as [E | Hin].
  - congruence.
  - rewrite H in Hin. exact Hin.
Qed.

(** The largest of finite numbers is one that none exceeds. *)
Lemma Math_max_upper (l : list num) :
  l <> [] -> Forall finite l ->
  exists b, Math_max l = Num b /\ Forall (fun x => num_le x (Num b)) l.
Proof.
  intros Hne Hl. destruct Hl as [| x l Hx Hl]; [contradiction |].
  destruct x as [q | | |]; try contradiction. unfold Math_max. cbn.
  destruct (foldl_max2_upper l q Hl) as (b & -> & Hqb & Hall).
  exists b. split; [reflexivity |]. constructor; [| exact Hall].
  unfold num_le, le. apply Qle_bool_iff. exact Hqb.
Qed.

Lemma Math_min_lower (l : list num) :
  l <> [] -> Forall finite l ->
  exists b, Math_min l = Num b /\ Forall (fun x => num_le (Num b) x) l.
Proof.
  intros Hne Hl. destruct Hl as [| x l Hx Hl]; [contradiction |].
  destruct x as [q | | |]; try contradiction. unfold Math_min. cbn.
  destruct (foldl_min2_lower l q Hl) as (b & -> & Hqb & Hall).
  exists b. split; [reflexivity |]. constructor; [| exact Hall].
  unfold num_le, le. apply Qle_bool_iff. exact Hqb.
Qed.

(** X4: normalising scores of magnitude 2^1022 at most (so that the
    largest minus the smallest is a double) keeps the entries, their order,
    keys and raw fields, and gives every entry a normalised score between 0
    and 1, the subtractions and the division being those of the doubles. *)
Theorem normalizeTFIDF_range (tfidfMap : TfidfMap) :
  Forall (fun kv => exists t, tfidf kv.2 = Num t
                              /\ (- 2 ^ 1022 <= t)%Q /\ (t <= 2 ^ 1022)%Q) tfidfMap ->
  Forall2 normalized_entry tfidfMap (normalizeTFIDF tfidfMap).
Proof.
  intros Hb. unfold normalizeTFIDF.
  destruct (decide (tfidfMap = [])) as [-> | Hne]; [constructor |].
  set (scores := (fun kv : jsstring * Item => tfidf kv.2) <$> tfidfMap).
  assert (Hbs : Forall (fun x => exists t, x = Num t
                                   /\ (- 2 ^ 1022 <= t)%Q /\ (t <= 2 ^ 1022)%Q) scores).
  { unfold scores. apply Forall_fmap. exact Hb. }
  assert (Hscores : Forall finite scores).
  { eapply Forall_impl; [exact Hbs |]. intros x (t & -> & _). exact I. }
  assert (Hne' : scores <> []).
  { unfold scores. destruct tfidfMap; [contradiction | discriminate]. }
  destruct (Math_max_upper scores Hne' Hscores) as (a & Ea & Hmax).
  destruct (Math_min_lower scores Hne' Hscores) as (b & Eb & Hmin).
  pose proof (Math_max_in scores a Ea) as Ha_in.
  pose proof (Math_min_in scores b Eb) as Hb_in.
  rewrite Ea, Eb.
  rewrite Forall_forall in Hbs.
  destruct (Hbs _ Ha_in) as (a' & Ea' & Ha1 & Ha2). injection Ea' as <-.
  destruct (Hbs _ Hb_in) as (b' & Eb' & Hb1 & Hb2). injection Eb' as <-.
  assert (Hba : (b <= a)%Q).
  { rewrite Forall_forall in Hmin. specialize (Hmin _ Ha_in).
    unfold num_le, le in Hmin. apply Qle_bool_iff in Hmin. exact Hmin. }
  assert (Hdouble : (2 ^ 1023 == 2 * 2 ^ 1022)%Q).
  { change 1023%Z with (1022 + 1)%Z. apply pow2_succ. }
  assert (Hsub : forall t, (b <= t)%Q -> (t <= a)%Q ->
            sub64 (Num t) (Num b) = Num (round64 (t + - b))
            /\ (0 <= round64 (t + - b))%Q
            /\ (round64 (t + - b) <= round64 (a + - b))%Q).
  { intros t Ht1 Ht2.
    destruct (double_below_pow (t + - b)) as (E & _ & _); [lra | lra |].
    split; [exact E |]. split.
    - apply (round64_ge_Z _ 0); [cbn; lia | change (inject_Z 0) with 0%Q; lra].
    - apply round64_mono. lra. }
  destruct (Hsub a Hba ltac:(lra)) as (-> & Hr0 & _).
  destruct (strict_eq (Num (round64 (a + - b))) (Num 0)) eqn:Hrange.
  - apply Forall2_fmap_r, Forall_Forall2_diag, Forall_forall. intros kv _.
    split; [reflexivity |]. split; [reflexivity |].
    exists (1 # 2)%Q. cbn. split; [reflexivity |]. split; lra.
  - assert (Hrpos : (0 < round64 (a + - b))%Q).
    { destruct (Qlt_le_dec 0 (round64 (a + - b))) as [H | H]; [exact H |].
      assert (E : (round64 (a + - b) == 0)%Q) by lra.
      cbn in Hrange. apply Qeq_bool_iff in E. congruence. }
    apply Forall2_fmap_r, Forall_Forall2_diag, Forall_forall. intros [k it] Hin.
    split; [reflexivity |]. split; [reflexivity |].
    assert (Hit : tfidf it ∈ scores).
    { unfold scores. apply list_elem_of_fmap. exists (k, it). split; [reflexivity | exact Hin]. }
    destruct (Hbs _ Hit) as (t & Et & _).
    rewrite Forall_forall in Hmax, Hmin.
    pose proof (Hmax _ Hit) as Hta. pose proof (Hmin _ Hit) as Htb.
    cbn [snd set_normalized normalizedTfidf]. rewrite Et in Hta, Htb |- *.
    unfold num_le, le in Hta, Htb.
    apply Qle_bool_iff in Hta. apply Qle_bool_iff in Htb.
    destruct (Hsub t Htb Hta) as (-> & Hs0 & Hsr).
    unfold div64, div.
    assert (Enz : Qeq_bool (round64 (a + - b)) 0 = false).
    { apply not_true_iff_false. rewrite Qeq_bool_iff. lra. }
    rewrite Enz. cbn [rounded].
    destruct (double_between (round64 (t + - b) / round64 (a + - b)) 0 1) as (E & L & U).
    + cbn. lia.
    + cbn. lia.
    + change (inject_Z 0) with 0%Q. apply Qle_shift_div_l; [exact Hrpos | lra].
    + change (inject_Z 1) with 1%Q. apply Qle_shift_div_r; [exact Hrpos | lra].
    + rewrite E. eexists. split; [reflexivity |].
      change (inject_Z 0) with 0%Q in L. change (inject_Z 1) with 1%Q in U.
      split; assumption.
Qed.

(** Past the range of the doubles the guarantee ends: of the scores
    1.7e308 and -1.7e308 the larger gets NaN, the range being Infinity. *)
Example normalizeTFIDF_overflow :
  let big := (17 * 10 ^ 307)%Q in
  let hi := mkItem [] (Num 0) (Num 0) (Num (round64 big)) 1 None in
  let lo := mkItem [] (Num 0) (Num 0) (Num (round64 (- big))) 1 None in
  (fun kv => normalizedTfidf kv.2) <$> normalizeTFIDF [([1%N], hi); ([2%N], lo)]
  = [Some NaN; Some (Num 0)].
Proof. vm_compute. reflexivity. Qed.

(** X5: a term frequency is a number from 0 to 1, and 0 exactly for a word
    that does not occur. *)
Theorem calculateTF_range (w : jsstring) (words : list jsstring) :
  exists q, calculateTF w words = Num q /\ (0 <= q)%Q /\ (q <= 1)%Q
            /\ ((q == 0)%Q <-> w ∉ words).
Proof.
  unfold calculateTF, count_eq. case_bool_decide as Hlen.
  - exists 0%Q. split; [reflexivity |]. split; [lra |]. split; [lra |].
    split; [| reflexivity]. intros _ Hin.
    destruct words; [apply elem_of_nil in Hin; exact Hin | discriminate].
  - pose proof (length_filter (fun x => x = w) words) as Hle.
    rewrite div_of_nat by lia. eexists. split; [reflexivity |].
    assert (Hpos : (0 < inject_Z (Z.of_nat (length words)))%Q) by (apply of_nat_pos; lia).
    assert (Hc : (0 <= inject_Z (Z.of_nat (length (filter (fun x => x = w) words))))%Q).
    { change 0%Q with (inject_Z 0). rewrite <- Zle_Qle. lia. }
    assert (Hcl : (inject_Z (Z.of_nat (length (filter (fun x => x = w) words)))
                   <= inject_Z (Z.of_nat (length words)))%Q).
    { rewrite <- Zle_Qle. lia. }
    split; [apply Qle_shift_div_l; [exact Hpos | lra] |].
    split; [apply Qle_shift_div_r; [exact Hpos | lra] |].
    split.
    + intros Hq Hin.
      assert (E : (inject_Z (Z.of_nat (length (filter (fun x => x = w) words))) == 0)%Q).
      { assert (Hne : ~ (inject_Z (Z.of_nat (length words)) == 0)%Q) by lra.
        rewrite <- (Qmult_div_r _ _ Hne) at 1. rewrite Hq. ring. }
      change 0%Q with (inject_Z 0) in E. rewrite inject_Z_injective in E.
      assert (Hnil : filter (fun x => x = w) words = []) by (apply length_zero_iff_nil; lia).
      eapply (filter_nil_not_elem_of _ _ w Hnil); [reflexivity | exact Hin].
    + intros Hnot.
      assert (Hnil : filter (fun x => x = w) words = []).
      { apply filter_none. apply Forall_forall. intros x Hx ->. contradiction. }
      rewrite Hnil. cbn. reflexivity.
Qed.

End TfidfFacts.

Section TfidfMapFacts.
Import Tfidf.
Variable toLowerCase : jsstring -> jsstring.
Variable ln : Q -> Q.
Variable tokenizer : jsstring -> list jsstring.

Lemma map_set_fresh (m : TfidfMap) (k : jsstring) (v : Item) :
  k ∉ m.*1 -> map_set m k v = m ++ [(k, v)].
Proof. intros Hk. unfold map_set. rewrite bool_decide_eq_false_2 by exact Hk. reflexivity. Qed.

(** Setting fresh keys one after the other appends the entries. *)
Lemma foldl_map_set (mk : jsstring -> Item) (ws : list jsstring) (m : TfidfMap) :
  NoDup (m.*1 ++ ws) ->
  foldl (fun m w => map_set m w (mk w)) m ws = m ++ ((fun w => (w, mk w)) <$> ws).
Proof.
  revert m. induction ws as [| w ws IH]; intros m Hnd; cbn [foldl fmap list_fmap].
  - rewrite app_nil_r. reflexivity.
  - assert (Hw : w ∉ m.*1).
    { apply NoDup_app in Hnd as (_ & Hdisj & _). intros Hin. apply (Hdisj w Hin). left. }
    rewrite map_set_fresh by exact Hw. rewrite IH.
    + rewrite <- app_assoc. reflexivity.
    + rewrite fmap_app. cbn. rewrite <- app_assoc. exact Hnd.
Qed.

(** X6: the scored words are the distinct lower-cased tokens of the text
    that are no stop words (when those are to be removed) and have the
    minimum length, each once; each entry carries its word, counts it at
    least once, and has finite scores. *)
Theorem computeTFIDFForText_entries (text : jsstring) (removeStopwords : bool)
    (minWordLength : nat) :
  let tfidfMap :=
    computeTFIDFForText toLowerCase ln tokenizer text removeStopwords minWordLength in
  let allWords := toLowerCase <$> tokenizer text in
  NoDup tfidfMap.*1
  /\ (forall w, w ∈ tfidfMap.*1 <->
        w ∈ allWords
        /\ (removeStopwords = true -> isStopword toLowerCase w = false)
        /\ minWordLength <= length w)
  /\ Forall (fun kv =>
               word kv.2 = kv.1
               /\ frequency kv.2 = count_eq kv.1 allWords
               /\ 1 <= frequency kv.2
               /\ finite (tf kv.2) /\ finite (idf kv.2) /\ finite (tfidf kv.2)
               /\ normalizedTfidf kv.2 = None)
       tfidfMap.
Proof.
  unfold computeTFIDFForText, TextProcessor.tokenizeWords. cbn zeta.
  set (allWords := toLowerCase <$> tokenizer text).
  set (uniqueWords :=
         filter (fun w => minWordLength <= length w)
           (if removeStopwords
            then filter (fun w => isStopword toLowerCase w = false) (new_Set allWords)
            else new_Set allWords)).
  assert (Hnd : NoDup uniqueWords).
  { unfold uniqueWords. apply NoDup_filter.
    destruct removeStopwords; [apply NoDup_filter |]; apply NoDup_new_Set. }
  assert (Hin : forall w, w ∈ uniqueWords <->
                  w ∈ allWords
                  /\ (removeStopwords = true -> isStopword toLowerCase w = false)
                  /\ minWordLength <= length w).
  { intros w. unfold uniqueWords. rewrite list_elem_of_filter.
    destruct removeStopwords.
    - rewrite list_elem_of_filter, (elem_of_new_Set id). tauto.
    - rewrite (elem_of_new_Set id). split; [intros [? ?]; repeat split; auto; discriminate |].
      tauto. }
  rewrite foldl_map_set by (cbn; exact Hnd). cbn [app].
  split; [| split].
  - rewrite <- list_fmap_compose. cbn. rewrite list_fmap_id. exact Hnd.
  - intros w. rewrite <- list_fmap_compose. cbn. rewrite list_fmap_id. apply Hin.
  - apply Forall_fmap, Forall_forall. intros w Hw. cbn.
    apply Hin in Hw as (Hw & _).
    split; [reflexivity |]. split; [reflexivity |].
    split.
    { unfold count_eq.
      destruct (filter (fun x => x = w) allWords) as [| x l] eqn:E; [| cbn; lia].
      exfalso. eapply (filter_nil_not_elem_of _ _ w E); [reflexivity | exact Hw]. }
    pose proof (calculateTF_finite w allWords) as Htf.
    pose proof (calculateIDF_finite ln w
                  (splitIntoDocuments toLowerCase tokenizer text)) as Hidf.
    split; [exact Htf |]. split; [exact Hidf |]. split; [| reflexivity].
    destruct (calculateTF w allWords), (calculateIDF ln w _); try contradiction. exact I.
Qed.

(** X7: [extractTopKeywords] returns the head of the entries sorted by
    falling score, so that no entry left out scores higher than one
    returned: the first [n] entries for [topN = n > 0] (all when there are
    fewer), and otherwise as many as the ceiling of the rounded product of
    the number of entries and the rounded quotient [topPercent / 100]. *)
Theorem extractTopKeywords_spec (tfidfMap : TfidfMap) (topN : option Z) (topPercent : Q) :
  Forall (fun kv => finite (tfidf kv.2)) tfidfMap ->
  let keywords := extractTopKeywords tfidfMap topN topPercent in
  (exists rest,
      keywords ++ rest ≡ₚ tfidfMap.*2
      /\ StronglySorted (fun x y => num_le (tfidf y) (tfidf x)) (keywords ++ rest)
      /\ forall kw other, kw ∈ keywords -> other ∈ rest ->
           num_le (tfidf other) (tfidf kw))
  /\ (forall n, topN = Some n -> (0 < n)%Z ->
        length keywords = Nat.min (Z.to_nat n) (length tfidfMap))
  /\ (topN = None \/ topN = Some 0%Z -> (0 <= topPercent)%Q -> (topPercent <= 100)%Q ->
      (Z.of_nat (length tfidfMap) < 2 ^ 53)%Z ->
      Z.of_nat (length keywords)
      = Qceiling (round64 (inject_Z (Z.of_nat (length tfidfMap))
                           * round64 (topPercent / 100)))
      /\ length keywords <= length tfidfMap).
Proof.
  intros Hfin. cbn zeta.
  set (sorted := sort_stable (fun y x => lt (tfidf x) (tfidf y)) (tfidfMap.*2)).
  assert (Hperm : sorted ≡ₚ tfidfMap.*2) by apply sort_stable_Permutation.
  assert (Hlen : length sorted = length tfidfMap).
  { apply Permutation_length in Hperm. rewrite Hperm, length_fmap. reflexivity. }
  assert (Hsorted : StronglySorted (fun x y => num_le (tfidf y) (tfidf x)) sorted).
  { apply (sort_descending tfidf). apply Forall_fmap. exact Hfin. }
  assert (Hshape : exists k, extractTopKeywords tfidfMap topN topPercent = take k sorted).
  { unfold extractTopKeywords. fold sorted.
    destruct topN as [n |]; [destruct (n =? 0)%Z |];
      rewrite ?slice_num_0_take, ?slice_0_take; eexists; reflexivity. }
  split; [| split].
  - destruct Hshape as [k ->]. exists (drop k sorted). rewrite take_drop.
    split; [exact Hperm |]. split; [exact Hsorted |].
    intros kw other Hkw Hother.
    apply (StronglySorted_app_inv (fun x y => num_le (tfidf y) (tfidf x))
             (take k sorted) (drop k sorted));
      [rewrite take_drop; exact Hsorted | exact Hkw | exact Hother].
  - intros n -> Hn. unfold extractTopKeywords. fold sorted.
    rewrite (proj2 (Z.eqb_neq n 0)) by lia.
    rewrite slice_0_take, slice_bound_nonneg, length_take by lia. lia.
  - intros Hopt H0 H1 Hsize.
    destruct (percent_count (length sorted) topPercent) as (Ec & Hc);
      [lia | exact H0 | exact H1 |].
    assert (Hk : extractTopKeywords tfidfMap topN topPercent
                 = take (Z.to_nat (Qceiling (round64 (inject_Z (Z.of_nat (length sorted))
                                                      * round64 (topPercent / 100)))))
                     sorted).
    { unfold extractTopKeywords. fold sorted.
      destruct Hopt as [-> | ->]; cbn [Z.eqb]; rewrite Ec; apply slice_num_count; exact Hc. }
    rewrite Hk, length_take. rewrite <- Hlen. lia.
Qed.

(** The rounding shows in the count: 28 percent of 25 entries are 8
    entries, the product 25 * (28 / 100) being 7.000000000000001. *)
Example extractTopKeywords_rounded :
  let entry (i : nat) := ([N.of_nat i], mkItem [N.of_nat i] (Num 0) (Num 0) (Num 0) 1 None) in
  length (extractTopKeywords (entry <$> seq 0 25) None 28) = 8
  /\ Qceiling (inject_Z 25 * (28 / 100)) = 7%Z.
Proof. vm_compute. split; reflexivity. Qed.

End TfidfMapFacts.

(** ** Priorities *)

Section PriorityFacts.
Import TextProcessor PriorityCalculator.

Lemma calculatePOSScore_range (pos : PosTag) :
  exists q, calculatePOSScore pos = Num q /\ (0 <= q)%Q /\ (q <= 1)%Q.
Proof.
  destruct pos; eexists; (split; [vm_compute; reflexivity |]); split; vm_compute; discriminate.
Qed.

Lemma calculateSyntaxScore_range (w : EnrichedWord) (sentence : list EnrichedWord) :
  exists q, calculateSyntaxScore w sentence = Num q /\ (0 <= q)%Q /\ (q <= 1)%Q.
Proof.
  unfold calculateSyntaxScore.
  destruct (pos (base w));
    repeat match goal with
           | |- context [if ?b then _ else _] => destruct b
           end;
    eexists; (split; [reflexivity |]); split; vm_compute; discriminate.
Qed.

Lemma calculateLocationScore_le_1 (position sentenceLength : nat) :
  exists q, calculateLocationScore position sentenceLength = Num q /\ (q <= 1)%Q.
Proof.
  unfold calculateLocationScore. case_bool_decide as Hlen.
  - exists 1%Q. split; [reflexivity | lra].
  - rewrite div_of_nat by lia. eexists. split; [reflexivity |].
    assert (Hpos : (0 < inject_Z (Z.of_nat sentenceLength))%Q) by (apply of_nat_pos; lia).
    assert (Hp : (0 <= inject_Z (Z.of_nat position))%Q).
    { change 0%Q with (inject_Z 0). rewrite <- Zle_Qle. lia. }
    assert (Hd : (0 <= inject_Z (Z.of_nat position) / inject_Z (Z.of_nat sentenceLength))%Q).
    { apply Qle_shift_div_l; [exact Hpos | lra]. }
    lra.
Qed.

(** [Math.max(0, Math.min(1, p))] *)
Lemma clamp01 (p : num) :
  p <> NaN -> exists q, max2 (Num 0) (min2 (Num 1) p) = Num q /\ (0 <= q)%Q /\ (q <= 1)%Q.
Proof.
  destruct p as [p | | |]; intros Hp; try congruence.
  - unfold min2. destruct (lt (Num p) (Num 1)) eqn:H1.
    + unfold max2. destruct (lt (Num 0) (Num p)) eqn:H0.
      * exists p. split; [reflexivity |].
        apply lt_true_le in H0, H1. unfold num_le, le in H0, H1.
        apply Qle_bool_iff in H0. apply Qle_bool_iff in H1. split; assumption.
      * exists 0%Q. split; [reflexivity |]. split; lra.
    + exists 1%Q. split; [reflexivity |]. split; lra.
  - exists 1%Q. split; [reflexivity |]. split; lra.
  - exists 0%Q. split; [reflexivity |]. split; lra.
Qed.

(** The priority of a word is a number from 0 to 1 whatever the word,
    the sentence and the sentence length it is computed from, a missing,
    NaN or infinite TF-IDF score included. *)
Lemma calculateWordPriority_range (w : EnrichedWord)
    (sentenceWords : list EnrichedWord) (sentenceLength : nat) :
  exists q, calculateWordPriority w sentenceWords sentenceLength = Num q
            /\ (0 <= q)%Q /\ (q <= 1)%Q.
Proof.
  unfold calculateWordPriority, locationScore_of.
  destruct (calculatePOSScore_range (pos (base w))) as (p & -> & _).
  destruct (calculateSyntaxScore_range w sentenceWords) as (s & -> & _).
  destruct (calculateLocationScore_le_1 (position (base w)) sentenceLength) as (l & -> & _).
  apply clamp01.
  destruct (normalizedTfidf w) as [t | | |]; cbn.
  - destruct (Qeq_bool t 0); cbn; discriminate.
  - discriminate.
  - discriminate.
  - discriminate.
Qed.

(** The sort of [calculatePrioritiesForText] is the stable sort by rising
    priority. *)
Lemma sort_by_priority_stable (l : list PrioritizedWord) :
  sort_by_priority l = sort_stable (fun y x => lt (priority y) (priority x)) l.
Proof.
  unfold sort_by_priority, sort_stable. induction l as [| x l IH]; [reflexivity |].
  cbn [foldr]. rewrite IH. generalize (foldr (insert_sorted
    (fun y x0 : PrioritizedWord => lt (priority y) (priority x0))) [] l).
  intros l'. induction l' as [| y l' IH']; [reflexivity |].
  cbn. rewrite IH'. reflexivity.
Qed.

Variable toLowerCase : jsstring -> jsstring.
Variable ln : Q -> Q.
Variable sentenceTokenizer : jsstring -> list jsstring.
Variable tokenizer : jsstring -> list jsstring.

Abbreviation prioritiesForText :=
  (calculatePrioritiesForText toLowerCase ln sentenceTokenizer tokenizer).

Lemma wordsWithPriority_scored (text : jsstring) :
  Forall scored (wordsWithPriority toLowerCase ln sentenceTokenizer tokenizer text).
Proof.
  unfold wordsWithPriority. apply Forall_fmap, Forall_forall. intros w _.
  unfold scored, prioritize, compose. cbn.
  destruct (calculateWordPriority_range w
              (default [] (group_by_sentence
                 (enrich toLowerCase
                    (Tfidf.normalizeTFIDF
                       (Tfidf.computeTFIDFForText toLowerCase ln tokenizer text true 2))
                  <$> words (structureText toLowerCase sentenceTokenizer tokenizer text))
                 !! sentence (base w)))
              (length (default [] (group_by_sentence
                 (enrich toLowerCase
                    (Tfidf.normalizeTFIDF
                       (Tfidf.computeTFIDFForText toLowerCase ln tokenizer text true 2))
                  <$> words (structureText toLowerCase sentenceTokenizer tokenizer text))
                 !! sentence (base w)))))
    as (q & Hq & H0 & H1).
  exists q. split; [exact Hq |]. split; [split; assumption | reflexivity].
Qed.

Lemma scored_finite (l : list PrioritizedWord) :
  Forall scored l -> Forall (fun w => finite (priority w)) l.
Proof.
  intros H. eapply Forall_impl; [exact H |].
  intros w (q & Hq & _). rewrite Hq. exact I.
Qed.

Lemma prioritiesForText_facts (text : jsstring) :
  prioritiesForText text ≡ₚ wordsWithPriority toLowerCase ln sentenceTokenizer tokenizer text
  /\ StronglySorted (fun a b => num_le (priority a) (priority b)) (prioritiesForText text)
  /\ Forall scored (prioritiesForText text).
Proof.
  unfold calculatePrioritiesForText. rewrite sort_by_priority_stable.
  pose proof (wordsWithPriority_scored text) as Hs.
  split; [apply sort_stable_Permutation |].
  split; [apply (sort_ascending priority), scored_finite, Hs |].
  rewrite sort_stable_Permutation. exact Hs.
Qed.

(** X8: [calculatePrioritiesForText] returns the words of the text, each
    once, lowest priority first; every priority is a number from 0 to 1
    and every word carries the group of its priority. *)
Theorem calculatePrioritiesForText_sorted (text : jsstring) :
  prioritiesForText text ≡ₚ wordsWithPriority toLowerCase ln sentenceTokenizer tokenizer text
  /\ StronglySorted (fun a b => num_le (priority a) (priority b)) (prioritiesForText text)
  /\ Forall scored (prioritiesForText text)
  /\ length (prioritiesForText text)
     = length (words (structureText toLowerCase sentenceTokenizer tokenizer text)).
Proof.
  destruct (prioritiesForText_facts text) as (Hp & Hs & Hf).
  repeat split; try assumption.
  rewrite Hp. unfold wordsWithPriority. rewrite !length_fmap. reflexivity.
Qed.

(** X9: on the list [calculatePrioritiesForText] returns, and at any rate,
    [selectWordsToRemove] splits the list in two, and no word removed has
    a higher priority than a word kept. *)
Theorem selectWordsToRemove_lowest_first (text : jsstring) (rate : Q) :
  let '(toKeep, toRemove) := selectWordsToRemove (prioritiesForText text) rate in
  toRemove ++ toKeep = prioritiesForText text
  /\ forall r k, r ∈ toRemove -> k ∈ toKeep -> num_le (priority r) (priority k).
Proof.
  destruct (prioritiesForText_facts text) as (_ & Hs & _).
  unfold selectWordsToRemove. rewrite slice_num_0_take. unfold slice_from_num.
  set (b := slice_bound_num _ _).
  split; [apply take_drop |].
  apply (StronglySorted_app_inv (fun a b => num_le (priority a) (priority b))).
  rewrite take_drop. exact Hs.
Qed.

Lemma foldl_push_group (ws : list PrioritizedWord) (g : Groups) :
  foldl push_group g ws
  = mkGroups (immediate g ++ filter (fun w => in_group Immediate w = true) ws)
             (middle g ++ filter (fun w => in_group Middle w = true) ws)
             (late g ++ filter (fun w => in_group Late w = true) ws).
Proof.
  revert g. induction ws as [| w ws IH]; intros g.
  - cbn. rewrite !app_nil_r. destruct g; reflexivity.
  - cbn [foldl]. rewrite IH.
    assert (Hnot : forall g, priorityGroup w <> g ->
              filter (fun w => in_group g w = true) (w :: ws)
              = filter (fun w => in_group g w = true) ws).
    { intros g' Hg. apply filter_cons_False. unfold in_group.
      destruct (priorityGroup w), g'; congruence. }
    assert (Hyes : filter (fun w0 => in_group (priorityGroup w) w0 = true) (w :: ws)
                   = w :: filter (fun w0 => in_group (priorityGroup w) w0 = true) ws).
    { apply filter_cons_True. unfold in_group. destruct (priorityGroup w); reflexivity. }
    unfold push_group.
    destruct (priorityGroup w) eqn:Ew; rewrite Hyes, !Hnot by discriminate; cbn;
      rewrite <- ?app_assoc; reflexivity.
Qed.

Lemma getPriorityGroup_mono (p q : Q) :
  (p <= q)%Q ->
  match getPriorityGroup (Num p), getPriorityGroup (Num q) with
  | Middle, Immediate | Late, Immediate | Late, Middle => False
  | _, _ => True
  end.
Proof.
  intros Hpq. unfold getPriorityGroup, lt.
  destruct (Qle_bool (3 # 10) p) eqn:E1, (Qle_bool (6 # 10) p) eqn:E2,
           (Qle_bool (3 # 10) q) eqn:E3, (Qle_bool (6 # 10) q) eqn:E4; cbn; try exact I;
    repeat match goal with
           | H : Qle_bool _ _ = true |- _ => apply Qle_bool_iff in H
           | H : Qle_bool _ _ = false |- _ =>
               apply not_true_iff_false in H; rewrite Qle_bool_iff in H
           end; lra.
Qed.

(** In a list sorted by priority the groups follow one another. *)
Lemma sorted_groups_concat (l : list PrioritizedWord) :
  Forall scored l ->
  StronglySorted (fun a b => num_le (priority a) (priority b)) l ->
  filter (fun w => in_group Immediate w = true) l
  ++ filter (fun w => in_group Middle w = true) l
  ++ filter (fun w => in_group Late w = true) l = l.
Proof.
  intros Hf Hs. induction Hs as [| x l Hs IH Hx]; [reflexivity |].
  apply Forall_cons in Hf as [Hsx Hf]. specialize (IH Hf).
  assert (Hmono : Forall (fun w =>
            match priorityGroup x, priorityGroup w with
            | Middle, Immediate | Late, Immediate | Late, Middle => False
            | _, _ => True
            end) l).
  { rewrite Forall_forall in Hx, Hf |- *. intros w Hw.
    destruct Hsx as (p & Hp & _ & Hgx). destruct (Hf w Hw) as (q & Hq & _ & Hgw).
    rewrite Hgx, Hgw, Hp, Hq. apply getPriorityGroup_mono.
    specialize (Hx w Hw). rewrite Hp, Hq in Hx. apply Qle_bool_iff. exact Hx. }
  assert (Hnot : forall g, priorityGroup x <> g ->
            filter (fun w => in_group g w = true) (x :: l)
            = filter (fun w => in_group g w = true) l).
  { intros g Hg. apply filter_cons_False. unfold in_group.
    destruct (priorityGroup x), g; congruence. }
  assert (Hyes : filter (fun w => in_group (priorityGroup x) w = true) (x :: l)
                 = x :: filter (fun w => in_group (priorityGroup x) w = true) l).
  { apply filter_cons_True. unfold in_group. destruct (priorityGroup x); reflexivity. }
  assert (Hnone : forall g,
            match priorityGroup x, g with
            | Middle, Immediate | Late, Immediate | Late, Middle => True
            | _, _ => False
            end -> filter (fun w => in_group g w = true) l = []).
  { intros g Hg. apply filter_none. rewrite Forall_forall in Hmono |- *. intros w Hw.
    specialize (Hmono w Hw). unfold in_group.
    destruct (priorityGroup x), g, (priorityGroup w); try contradiction; discriminate. }
  destruct (priorityGroup x) eqn:Ex.
  - rewrite Hyes, !Hnot by discriminate. cbn. f_equal. exact IH.
  - rewrite Hyes, !Hnot by discriminate.
    rewrite (Hnone Immediate I) in IH |- *. cbn in *. f_equal. exact IH.
  - rewrite Hyes, !Hnot by discriminate.
    rewrite (Hnone Immediate I), (Hnone Middle I) in IH |- *. cbn in *. f_equal. exact IH.
Qed.

(** X10: [groupWordsByPriority] puts every word in the group it carries and
    keeps the order of the words; on the list [calculatePrioritiesForText]
    returns the three groups, one after the other, are that list. *)
Theorem groupWordsByPriority_spec (ws : list PrioritizedWord) (text : jsstring) :
  (immediate (groupWordsByPriority ws) = filter (fun w => in_group Immediate w = true) ws
   /\ middle (groupWordsByPriority ws) = filter (fun w => in_group Middle w = true) ws
   /\ late (groupWordsByPriority ws) = filter (fun w => in_group Late w = true) ws)
  /\ (let groups := groupWordsByPriority (prioritiesForText text) in
      immediate groups ++ middle groups ++ late groups = prioritiesForText text).
Proof.
  unfold groupWordsByPriority. rewrite !foldl_push_group. cbn.
  split; [repeat split |].
  destruct (prioritiesForText_facts text) as (_ & Hs & Hf).
  apply sorted_groups_concat; assumption.
Qed.

(** The sum [reduce] builds over priorities between 0 and 1, each
    addition rounded: a number between 0 and their count. *)
Lemma foldl_add64_unit (l : list num) (a : Q) (m : nat) :
  Forall (fun x => exists p, x = Num p /\ (0 <= p)%Q /\ (p <= 1)%Q) l ->
  (Z.of_nat (m + length l) < 2 ^ 53)%Z ->
  (0 <= a)%Q -> (a <= inject_Z (Z.of_nat m))%Q ->
  exists s, foldl add64 (Num a) l = Num s
            /\ (0 <= s)%Q /\ (s <= inject_Z (Z.of_nat (m + length l)))%Q.
Proof.
  intros Hl. revert a m. induction Hl as [| x l (p & -> & Hp0 & Hp1) _ IH]; intros a m Hm Ha0 Ha1.
  - exists a. cbn [foldl length]. rewrite Nat.add_0_r. auto.
  - cbn [foldl length] in *.
    destruct (double_between (a + p) 0 (Z.of_nat (S m))) as (E & L & U).
    + cbn. lia.
    + lia.
    + change (inject_Z 0) with 0%Q. lra.
    + rewrite Nat2Z.inj_succ, <- Z.add_1_r, inject_Z_plus.
      change (inject_Z 1) with 1%Q. lra.
    + change (add64 (Num a) (Num p)) with (double (a + p)). rewrite E.
      change (inject_Z 0) with 0%Q in L.
      destruct (IH (round64 (a + p)) (S m)) as (s & Hs & Hs0 & Hs1);
        [lia | exact L | exact U |].
      exists s. split; [exact Hs |]. split; [exact Hs0 |].
      replace (m + S (length l)) with (S m + length l) by lia. exact Hs1.
Qed.

(** X11: the statistics of a list of words whose priorities are numbers
    between 0 and 1, as [calculatePrioritiesForText] gives them: the
    smallest and the largest priority are priorities of the list that bound
    all the others, the median is a priority of the list, and the average,
    a sum and a quotient of doubles, is a number between 0 and 1; on no
    word the average is NaN, the minimum Infinity, the maximum -Infinity
    and the median undefined. *)
Theorem calculatePriorityStats_spec (ws : list PrioritizedWord) :
  Forall (fun w => exists p, priority w = Num p /\ (0 <= p)%Q /\ (p <= 1)%Q) ws ->
  (Z.of_nat (length ws) < 2 ^ 53)%Z ->
  let stats := calculatePriorityStats ws in
  stats_count stats = length ws
  /\ (ws = [] ->
      stats_average stats = NaN /\ stats_min stats = PInf
      /\ stats_max stats = NInf /\ stats_median stats = None)
  /\ (ws <> [] ->
      exists lo hi avg med,
        stats_min stats = Num lo /\ stats_max stats = Num hi
        /\ stats_average stats = Num avg /\ stats_median stats = Some med
        /\ Num lo ∈ priority <$> ws /\ Num hi ∈ priority <$> ws
        /\ med ∈ priority <$> ws
        /\ Forall (fun w => num_le (Num lo) (priority w) /\ num_le (priority w) (Num hi)) ws
        /\ (0 <= avg)%Q /\ (avg <= 1)%Q).
Proof.
  intros Hunit Hsize. cbn zeta. split; [reflexivity |]. split.
  - intros ->. vm_compute. repeat split.
  - intros Hne. unfold calculatePriorityStats. cbn [stats_min stats_max stats_average stats_median].
    set (ps := priority <$> ws).
    assert (Hpu : Forall (fun x => exists p, x = Num p /\ (0 <= p)%Q /\ (p <= 1)%Q) ps).
    { unfold ps. apply Forall_fmap. exact Hunit. }
    assert (Hps : Forall finite ps).
    { eapply Forall_impl; [exact Hpu |]. intros x (q & -> & _). exact I. }
    assert (Hpne : ps <> []) by (unfold ps; destruct ws; [contradiction | discriminate]).
    destruct (Math_min_lower ps Hpne Hps) as (lo & Hlo & Hlos).
    destruct (Math_max_upper ps Hpne Hps) as (hi & Hhi & His).
    assert (Hlenps : length ps = length ws) by (unfold ps; apply length_fmap).
    assert (Hlen : 0 < length ps) by (destruct ps; [contradiction | cbn; lia]).
    destruct (foldl_add64_unit ps 0 0 Hpu) as (s & Hs & Hs0 & Hs1);
      [cbn [Nat.add]; lia | lra | change (inject_Z (Z.of_nat 0)) with 0%Q; lra |].
    cbn [Nat.add] in Hs1.
    pose proof (of_nat_pos (length ps) Hlen) as Hpos.
    destruct (lookup_lt_is_Some_2 (sort_stable lt ps) (length ps / 2)) as [med Hmed].
    { rewrite (Permutation_length (sort_stable_Permutation lt ps)).
      apply Nat.div_lt; lia. }
    destruct (double_between (s / inject_Z (Z.of_nat (length ps))) 0 1) as (E & L & U).
    { cbn. lia. }
    { cbn. lia. }
    { change (inject_Z 0) with 0%Q. apply Qle_shift_div_l; [exact Hpos | lra]. }
    { change (inject_Z 1) with 1%Q. apply Qle_shift_div_r; [exact Hpos | lra]. }
    change (inject_Z 0) with 0%Q in L. change (inject_Z 1) with 1%Q in U.
    exists lo, hi, (round64 (s / inject_Z (Z.of_nat (length ps)))), med.
    rewrite Hlo, Hhi, Hs, Hmed. unfold div64, div, of_nat.
    destruct (Qeq_bool (inject_Z (Z.of_nat (length ps))) 0) eqn:E0;
      [apply Qeq_bool_eq in E0; lra |].
    cbn [rounded]. rewrite E.
    repeat split.
    + apply Math_min_in, Hlo.
    + apply Math_max_in, Hhi.
    + apply list_elem_of_lookup_2 in Hmed.
      rewrite (sort_stable_Permutation lt ps) in Hmed. exact Hmed.
    + rewrite Forall_forall in Hlos. rewrite Forall_forall in His.
      apply Forall_forall. intros w Hw.
      assert (Hin : priority w ∈ ps) by (apply list_elem_of_fmap_2; exact Hw).
      split; [apply Hlos | apply His]; exact Hin.
    + exact L.
    + exact U.
Qed.

(** The average is not always between the smallest and the largest
    priority: of three priorities 0.1 it is 0.10000000000000002. *)
Example calculatePriorityStats_average_above_max :
  let w := mkPrioritized
             (mkEnriched (mkWord [] 0 0 0 NOUN) (Num 0) (Num 0))
             (Num (round64 (1 # 10))) Immediate in
  let stats := calculatePriorityStats [w; w; w] in
  stats_max stats = Num (round64 (1 # 10))
  /\ lt (stats_max stats) (stats_average stats) = true.
Proof. vm_compute. split; reflexivity. Qed.

(** X12: [identifyCoreKeywords] returns the head of the words sorted by
    falling priority: for a share between 0 and 100 as many as the ceiling
    of the rounded product of the number of words and the rounded quotient
    [topPercent / 100], never more than there are words, and no word left
    out has a higher priority than one returned. *)
Theorem identifyCoreKeywords_spec (ws : list PrioritizedWord) (topPercent : Q) :
  Forall (fun w => finite (priority w)) ws ->
  (0 <= topPercent)%Q -> (topPercent <= 100)%Q ->
  (Z.of_nat (length ws) < 2 ^ 53)%Z ->
  let core := identifyCoreKeywords ws topPercent in
  Z.of_nat (length core)
  = Qceiling (round64 (inject_Z (Z.of_nat (length ws)) * round64 (topPercent / 100)))
  /\ length core <= length ws
  /\ exists rest,
       core ++ rest ≡ₚ ws
       /\ forall c other, c ∈ core -> other ∈ rest ->
            num_le (priority other) (priority c).
Proof.
  intros Hfin H0 H1 Hsize. cbn zeta. unfold identifyCoreKeywords.
  set (sorted := sort_stable (fun y x => lt (priority x) (priority y)) ws).
  assert (Hperm : sorted ≡ₚ ws) by apply sort_stable_Permutation.
  assert (Hlen : length sorted = length ws) by (apply Permutation_length, Hperm).
  assert (Hsorted : StronglySorted (fun x y => num_le (priority y) (priority x)) sorted)
    by (apply (sort_descending priority); exact Hfin).
  destruct (percent_count (length ws) topPercent Hsize H0 H1) as (-> & Hc).
  rewrite slice_num_count by (rewrite Hlen; exact Hc).
  set (k := Z.to_nat (Qceiling (round64 (inject_Z (Z.of_nat (length ws))
                                         * round64 (topPercent / 100))))).
  split; [rewrite length_take; unfold k; lia |].
  split; [rewrite length_take; lia |].
  exists (drop k sorted). rewrite take_drop. split; [exact Hperm |].
  intros c other Hc' Hother.
  apply (StronglySorted_app_inv (fun x y => num_le (priority y) (priority x))
           (take k sorted) (drop k sorted));
    [rewrite take_drop; exact Hsorted | exact Hc' | exact Hother].
Qed.

(** The rounding shows in the count: 28 percent of 25 words are 8
    words. *)
Example identifyCoreKeywords_rounded :
  let w := mkPrioritized
             (mkEnriched (mkWord [] 0 0 0 NOUN) (Num 0) (Num 0))
             (Num (1 # 2)) Middle in
  length (identifyCoreKeywords (replicate 25 w) 28) = 8
  /\ Qceiling (inject_Z 25 * (28 / 100)) = 7%Z.
Proof. vm_compute. split; reflexivity. Qed.

End PriorityFacts.

(** ** The fast-path diff as a partition *)

Section DiffPartition.
Import WordMatcher.
Variable toLowerCase : jsstring -> jsstring.
Hypothesis toLowerCase_idempotent :
  forall s, toLowerCase (toLowerCase s) = toLowerCase s.

(** X13: with source and target the lower-cased tokens of the two texts,
    [kept] holds the words of both, [removed] the words of the source only
    and [added] the words of the target only; so the three lists are
    pairwise disjoint and every token is in exactly one list of its side. *)
Theorem analyzeDifference_partition (sourceText targetText : jsstring) (w : jsstring) :
  let d := analyzeDifference toLowerCase sourceText targetText in
  let source := toLowerCase <$> words_of sourceText in
  let target := toLowerCase <$> words_of targetText in
  (w ∈ kept d <-> w ∈ source /\ w ∈ target)
  /\ (w ∈ removed d <-> w ∈ source /\ w ∉ target)
  /\ (w ∈ added d <-> w ∈ target /\ w ∉ source).
Proof.
  cbn. set (source := toLowerCase <$> words_of sourceText).
  set (target := toLowerCase <$> words_of targetText).
  assert (Hs : toLowerCase <$> source = source).
  { unfold source. rewrite <- list_fmap_compose. apply list_fmap_ext.
    intros i t _. apply toLowerCase_idempotent. }
  assert (Ht : toLowerCase <$> target = target).
  { unfold target. rewrite <- list_fmap_compose. apply list_fmap_ext.
    intros i t _. apply toLowerCase_idempotent. }
  rewrite elem_of_findExactMatches, !(elem_of_unmatched toLowerCase),
    elem_of_findExactMatches, Hs, Ht.
  tauto.
Qed.

End DiffPartition.

Lemma analyzeDifference_partition_witness :
  (forall s, ascii_toLowerCase (ascii_toLowerCase s) = ascii_toLowerCase s)
  /\ let d := WordMatcher.analyzeDifference ascii_toLowerCase
                (lit "The quick fox") (lit "the slow Fox") in
     (lit "quick" ∈ WordMatcher.removed d
      <-> lit "quick" ∈ ascii_toLowerCase <$> words_of (lit "The quick fox")
          /\ lit "quick" ∉ ascii_toLowerCase <$> words_of (lit "the slow Fox")).
Proof.
  split; [exact ascii_toLowerCase_idempotent |].
  exact (proj1 (proj2 (analyzeDifference_partition ascii_toLowerCase
                         ascii_toLowerCase_idempotent
                         (lit "The quick fox") (lit "the slow Fox") (lit "quick")))).
Defined.

(** ** Similarity of two words *)

Section SimilarityFacts.
Import WordMatcher.
Variable toLowerCase : jsstring -> jsstring.
Variable levenshteinDistance : jsstring -> jsstring -> nat.

Lemma commonPrefix_comm (w1 w2 : jsstring) : commonPrefix w1 w2 = commonPrefix w2 w1.
Proof.
  revert w2. induction w1 as [| c1 w1 IH]; intros [| c2 w2]; cbn; try reflexivity.
  destruct (decide (c1 = c2)) as [-> | Hne].
  - rewrite !bool_decide_eq_true_2 by reflexivity. f_equal. apply IH.
  - rewrite !bool_decide_eq_false_2 by congruence. reflexivity.
Qed.

Lemma commonPrefix_le (w1 w2 : jsstring) :
  commonPrefix w1 w2 <= Nat.min (length w1) (length w2).
Proof.
  revert w2. induction w1 as [| c1 w1 IH]; intros [| c2 w2]; cbn; try lia.
  case_bool_decide; [| lia]. specialize (IH w2). lia.
Qed.

(** Two words that agree on as many leading positions as both are long
    are equal. *)
Lemma commonPrefix_full (w1 w2 : jsstring) :
  commonPrefix w1 w2 = Nat.max (length w1) (length w2) -> w1 = w2.
Proof.
  revert w2. induction w1 as [| c1 w1 IH]; intros [| c2 w2]; cbn; try (reflexivity || lia).
  case_bool_decide as Hc; [| lia]. intros H. subst c2. f_equal. apply IH. lia.
Qed.

(** [s.includes(t)] finds [t] inside [s]. *)
Lemma str_includes_inv (s t : jsstring) :
  str_includes s t = true -> exists a b, s = a ++ t ++ b.
Proof.
  induction s as [| c s IH]; cbn [str_includes]; intros H.
  - apply orb_true_iff in H as [H | H]; [| discriminate].
    apply bool_decide_eq_true_1 in H. destruct H as [b ->]. exists [], b. reflexivity.
  - apply orb_true_iff in H as [H | H].
    + apply bool_decide_eq_true_1 in H. destruct H as [b ->]. exists [], b. reflexivity.
    + destruct (IH H) as (a & b & ->). exists (c :: a), b. reflexivity.
Qed.

Lemma str_includes_length (s t : jsstring) :
  str_includes s t = true -> length t <= length s /\ (length t = length s -> s = t).
Proof.
  intros H. destruct (str_includes_inv s t H) as (a & b & ->).
  rewrite !length_app. split; [lia |]. intros Hlen.
  destruct a; [| cbn in Hlen; lia]. destruct b; [| cbn in Hlen; lia].
  cbn. rewrite app_nil_r. reflexivity.
Qed.

Lemma of_nat_ratio (a b : nat) :
  0 < b -> a <= b ->
  exists q, div (of_nat a) (of_nat b) = Num q /\ (0 <= q)%Q /\ (q <= 1)%Q
            /\ ((q == 1)%Q -> a = b).
Proof.
  intros Hb Hab. rewrite div_of_nat by exact Hb. eexists. split; [reflexivity |].
  assert (Hbq : (0 < inject_Z (Z.of_nat b))%Q) by (apply of_nat_pos; exact Hb).
  assert (Haq : (0 <= inject_Z (Z.of_nat a))%Q).
  { change 0%Q with (inject_Z 0). rewrite <- Zle_Qle. lia. }
  assert (Hle : (inject_Z (Z.of_nat a) <= inject_Z (Z.of_nat b))%Q).
  { rewrite <- Zle_Qle. lia. }
  split; [apply Qle_shift_div_l; [exact Hbq | lra] |].
  split; [apply Qle_shift_div_r; [exact Hbq | lra] |].
  intros H1.
  assert (E : (inject_Z (Z.of_nat a) == inject_Z (Z.of_nat b))%Q).
  { assert (Hne : ~ (inject_Z (Z.of_nat b) == 0)%Q) by lra.
    rewrite <- (Qmult_div_r (inject_Z (Z.of_nat a)) (inject_Z (Z.of_nat b)) Hne) at 1.
    rewrite H1. ring. }
  rewrite inject_Z_injective in E. lia.
Qed.

Lemma calculateSemanticSimilarity_comm (word1 word2 : jsstring) :
  calculateSemanticSimilarity toLowerCase word1 word2
  = calculateSemanticSimilarity toLowerCase word2 word1.
Proof.
  unfold calculateSemanticSimilarity.
  set (w1 := toLowerCase word1). set (w2 := toLowerCase word2).
  destruct (decide (w1 = w2)) as [E | E].
  - rewrite (bool_decide_eq_true_2 (w1 = w2)), (bool_decide_eq_true_2 (w2 = w1))
      by congruence.
    reflexivity.
  - rewrite (bool_decide_eq_false_2 (w1 = w2)), (bool_decide_eq_false_2 (w2 = w1))
      by congruence.
    rewrite (orb_comm (str_includes w2 w1)), (Nat.min_comm (length w2)),
      (Nat.max_comm (length w2)), (commonPrefix_comm w2 w1).
    reflexivity.
Qed.

Lemma calculateSemanticSimilarity_finite (word1 word2 : jsstring) :
  exists q, calculateSemanticSimilarity toLowerCase word1 word2 = Num q.
Proof.
  unfold calculateSemanticSimilarity.
  set (w1 := toLowerCase word1). set (w2 := toLowerCase word2).
  case_bool_decide as E; [eauto |].
  assert (Hpos : 0 < Nat.max (length w1) (length w2)).
  { destruct w1, w2; cbn; try lia. congruence. }
  destruct (str_includes w1 w2 || str_includes w2 w1).
  - rewrite div_of_nat by exact Hpos. eauto.
  - case_bool_decide; [rewrite div_of_nat by exact Hpos |]; eauto.
Qed.

(** X14: the semantic similarity does not depend on the order of the two
    words, is a number between 0 and 1, and is 1 exactly for words that are
    equal up to case. *)
Theorem calculateSemanticSimilarity_spec (word1 word2 : jsstring) :
  calculateSemanticSimilarity toLowerCase word1 word2
  = calculateSemanticSimilarity toLowerCase word2 word1
  /\ exists q, calculateSemanticSimilarity toLowerCase word1 word2 = Num q
       /\ (0 <= q)%Q /\ (q <= 1)%Q
       /\ ((q == 1)%Q <-> toLowerCase word1 = toLowerCase word2).
Proof.
  split; [apply calculateSemanticSimilarity_comm |].
  unfold calculateSemanticSimilarity.
  set (w1 := toLowerCase word1). set (w2 := toLowerCase word2).
  destruct (decide (w1 = w2)) as [E | E].
  - rewrite bool_decide_eq_true_2 by exact E. exists 1%Q.
    split; [reflexivity |]. split; [lra |]. split; [lra |].
    split; [intros _; exact E | intros _; reflexivity].
  - rewrite bool_decide_eq_false_2 by exact E.
    assert (Hpos : 0 < Nat.max (length w1) (length w2)).
    { destruct w1, w2; cbn; try lia. congruence. }
    destruct (str_includes w1 w2 || str_includes w2 w1) eqn:Hinc.
    + destruct (of_nat_ratio (Nat.min (length w1) (length w2))
                  (Nat.max (length w1) (length w2)) Hpos ltac:(lia))
        as (q & -> & H0 & H1 & Heq).
      exists q. split; [reflexivity |]. split; [exact H0 |]. split; [exact H1 |].
      split; [| contradiction]. intros Hq. specialize (Heq Hq).
      apply orb_true_iff in Hinc as [Hinc | Hinc];
        apply str_includes_length in Hinc as [_ Hsame].
      * apply Hsame. lia.
      * symmetry. apply Hsame. lia.
    + pose proof (commonPrefix_le w1 w2) as Hcp.
      case_bool_decide as H3.
      * destruct (of_nat_ratio (commonPrefix w1 w2)
                    (Nat.max (length w1) (length w2)) Hpos ltac:(lia))
          as (q & -> & H0 & H1 & Heq).
        exists q. split; [reflexivity |]. split; [exact H0 |]. split; [exact H1 |].
        split; [| contradiction]. intros Hq. apply commonPrefix_full, Heq, Hq.
      * exists 0%Q. split; [reflexivity |]. split; [lra |]. split; [lra |].
        split; [intros Hq; lra | contradiction].
Qed.

(** The similarity of two words is a number, whatever the distance the
    library reports. *)
Lemma calculateWordSimilarity_finite (word1 word2 : jsstring) :
  exists q, calculateWordSimilarity toLowerCase levenshteinDistance word1 word2 = Num q.
Proof.
  unfold calculateWordSimilarity.
  destruct (calculateSemanticSimilarity_finite word1 word2) as (q & ->).
  unfold calculateLevenshteinSimilarity. case_bool_decide as Hlen.
  - eexists. reflexivity.
  - rewrite div_of_nat by lia. eexists. reflexivity.
Qed.

Abbreviation sim := (calculateWordSimilarity toLowerCase levenshteinDistance).

Lemma gt_Num (a b : Q) : gt (Num a) (Num b) = true <-> (b < a)%Q.
Proof.
  unfold gt, lt. rewrite negb_true_iff. split.
  - intros H. apply Qnot_le_lt. intros Hle. apply Qle_bool_iff in Hle. congruence.
  - intros H. destruct (Qle_bool a b) eqn:E; [| reflexivity].
    apply Qle_bool_iff in E. lra.
Qed.

Lemma gt_Num_false (a b : Q) : gt (Num a) (Num b) = false <-> (a <= b)%Q.
Proof.
  unfold gt, lt. rewrite negb_false_iff. apply Qle_bool_iff.
Qed.

Lemma best_step_of {T : Type} (text : T -> jsstring) (threshold : num)
    (srcWord : jsstring) (seen : list T) (best : option T * num) (t : T) :
  best_of sim text threshold srcWord seen best ->
  best_of sim text threshold srcWord (seen ++ [t])
    (best_step toLowerCase levenshteinDistance text threshold srcWord best t).
Proof.
  intros ((m & Hm) & Hmax & Hbest). unfold best_step.
  destruct (calculateWordSimilarity_finite srcWord (text t)) as [s Hs].
  destruct best as [b bm]. cbn [fst snd] in *. subst bm.
  assert (Hm0 : (0 <= m)%Q).
  { destruct b as [t0 |].
    - destruct Hbest as (_ & _ & _ & Hpos). apply gt_Num in Hpos. lra.
    - injection Hbest as ->. lra. }
  destruct (gt (sim srcWord (text t)) (Num m) && ge (sim srcWord (text t)) threshold)
    eqn:Hnew.
  - apply andb_true_iff in Hnew as [Hgt Hge]. rewrite Hs in Hgt.
    apply gt_Num in Hgt.
    split; [exists s; exact Hs |]. cbn [fst snd]. split.
    + intros t' Ht' Hge'. rewrite Hs.
      destruct (calculateWordSimilarity_finite srcWord (text t')) as [s' Hs'].
      rewrite Hs'. apply gt_Num_false.
      apply elem_of_app in Ht' as [Ht' | Ht'].
      * specialize (Hmax t' Ht' Hge'). rewrite Hs' in Hmax.
        apply gt_Num_false in Hmax. lra.
      * apply list_elem_of_singleton in Ht'. subst t'.
        rewrite Hs in Hs'. injection Hs' as <-. lra.
    + split; [apply elem_of_app; right; apply list_elem_of_singleton; reflexivity |].
      split; [reflexivity |]. split; [exact Hge |].
      rewrite Hs. apply gt_Num. lra.
  - split; [exists m; reflexivity |]. cbn [fst snd]. split.
    + intros t' Ht' Hge'. apply elem_of_app in Ht' as [Ht' | Ht'].
      * apply Hmax; assumption.
      * apply list_elem_of_singleton in Ht'. subst t'.
        rewrite Hge', andb_true_r in Hnew. exact Hnew.
    + destruct b as [t0 |]; [| exact Hbest].
      destruct Hbest as (Hin & Hrest). split; [| exact Hrest].
      apply elem_of_app. left. exact Hin.
Qed.

Lemma best_match_of {T : Type} (text : T -> jsstring) (threshold : num)
    (srcWord : jsstring) (targetWords : list T) :
  best_of sim text threshold srcWord targetWords
    (best_match toLowerCase levenshteinDistance text threshold srcWord targetWords).
Proof.
  unfold best_match.
  assert (H : forall ts seen best,
             best_of sim text threshold srcWord seen best ->
             best_of sim text threshold srcWord (seen ++ ts)
               (foldl (best_step toLowerCase levenshteinDistance text threshold srcWord)
                  best ts)).
  { induction ts as [| t ts IH]; intros seen best Hb; cbn [foldl].
    - rewrite app_nil_r. exact Hb.
    - replace (seen ++ t :: ts) with ((seen ++ [t]) ++ ts)
        by (rewrite <- app_assoc; reflexivity).
      apply IH, best_step_of, Hb. }
  apply (H targetWords [] (None, Num 0)).
  split; [exists 0%Q; reflexivity |]. split; [| reflexivity].
  intros t Ht. apply elem_of_nil in Ht. contradiction.
Qed.

(** X15: every match pairs a source word with a target word whose
    similarity reaches the threshold, is positive, and is not exceeded by
    any target word that reaches the threshold; the matches follow the
    order of the source words, at most one for each. *)
Theorem findSimilarMatches_spec (sourceWords targetWords : list jsstring)
    (threshold : num) :
  let matches :=
    findSimilarMatches toLowerCase levenshteinDistance sourceWords targetWords threshold in
  Forall (good_match sim sourceWords targetWords threshold) matches
  /\ sm_source <$> matches `sublist_of` sourceWords.
Proof.
  cbn. unfold findSimilarMatches.
  set (step := fun (matches : list SimilarMatch) (srcWord : jsstring) => _).
  assert (H : forall srcs done acc,
             sourceWords = done ++ srcs ->
             Forall (good_match sim sourceWords targetWords threshold) acc ->
             sm_source <$> acc `sublist_of` done ->
             Forall (good_match sim sourceWords targetWords threshold) (foldl step acc srcs)
             /\ sm_source <$> foldl step acc srcs `sublist_of` sourceWords).
  { induction srcs as [| src srcs IH]; intros done acc Hsplit Hacc Hsub; cbn [foldl].
    - rewrite app_nil_r in Hsplit. subst done. auto.
    - assert (Hsplit' : sourceWords = (done ++ [src]) ++ srcs)
        by (rewrite <- app_assoc; exact Hsplit).
      apply (IH (done ++ [src]) _ Hsplit').
      + unfold step.
        pose proof (best_match_of id threshold src targetWords) as (_ & Hmax & Hbest).
        destruct (best_match toLowerCase levenshteinDistance id threshold src targetWords)
          as [[t0 |] m]; cbn [fst snd] in *; [| exact Hacc].
        destruct (truthy t0); [| exact Hacc].
        apply Forall_app. split; [exact Hacc |]. constructor; [| constructor].
        destruct Hbest as (Hin & Hm & Hge & Hpos).
        unfold good_match. cbn [sm_source sm_target sm_similarity].
        split; [rewrite Hsplit; apply elem_of_app; right; left |].
        split; [exact Hin |]. split; [exact Hm |]. split; [exact Hge |].
        split; [exact Hpos | exact Hmax].
      + unfold step.
        destruct (best_match toLowerCase levenshteinDistance id threshold src targetWords)
          as [[t0 |] m]; [| apply sublist_inserts_r; exact Hsub].
        destruct (truthy t0); [| apply sublist_inserts_r; exact Hsub].
        rewrite fmap_app. apply sublist_app; [exact Hsub | reflexivity]. }
  apply (H sourceWords [] []); [reflexivity | constructor | constructor].
Qed.

Lemma detailed_step_classified (exactMatches : list jsstring)
    (targetWords : list TextProcessor.Word)
    (acc : list IndexedWord * list IndexedWord * list DetailedMorph)
    (word : TextProcessor.Word) (index : nat) :
  let acc' :=
    detailed_step toLowerCase levenshteinDistance exactMatches targetWords acc word index in
  classified acc' ≡ₚ classified acc ++ [mkIndexed word index]
  /\ (Forall (good_morph sim targetWords) acc.2 -> Forall (good_morph sim targetWords) acc'.2).
Proof.
  destruct acc as [[kept removed] morphed]. unfold detailed_step, classified.
  destruct (set_has exactMatches (toLowerCase (TextProcessor.text word))).
  - cbn [fst snd]. split; [| auto].
    rewrite <- !app_assoc. apply Permutation_app_head.
    rewrite (app_assoc removed). apply Permutation_app_comm.
  - pose proof (best_match_of TextProcessor.text (Num (6 # 10))
                  (TextProcessor.text word) targetWords) as (_ & _ & Hbest).
    destruct (best_match toLowerCase levenshteinDistance TextProcessor.text
                (Num (6 # 10)) (TextProcessor.text word) targetWords)
      as [[t0 |] m]; cbn [fst snd] in *.
    + split.
      * rewrite fmap_app. cbn. rewrite !app_assoc. reflexivity.
      * intros Hm. apply Forall_app. split; [exact Hm |].
        constructor; [| constructor].
        destruct Hbest as (Hin & Hsim & Hge & _).
        unfold good_morph. cbn. auto.
    + split; [| auto].
      rewrite <- !app_assoc. do 2 apply Permutation_app_head.
      apply Permutation_app_comm.
Qed.

Lemma detailed_loop (exactMatches : list jsstring)
    (sourceWords targetWords : list TextProcessor.Word)
    (ws : list TextProcessor.Word) (i : nat)
    (acc : list IndexedWord * list IndexedWord * list DetailedMorph) :
  (forall j, ws !! j = sourceWords !! (i + j)) ->
  let acc' :=
    forEach_indexed (detailed_step toLowerCase levenshteinDistance exactMatches targetWords)
      ws i acc in
  originalIndex <$> classified acc'
    ≡ₚ (originalIndex <$> classified acc) ++ seq i (length ws)
  /\ (Forall (fun iw => sourceWords !! originalIndex iw = Some (iw_word iw))
        (classified acc) ->
      Forall (fun iw => sourceWords !! originalIndex iw = Some (iw_word iw))
        (classified acc'))
  /\ (Forall (good_morph sim targetWords) acc.2 -> Forall (good_morph sim targetWords) acc'.2).
Proof.
  revert i acc. induction ws as [| w ws IH]; intros i acc Hws; cbn [forEach_indexed].
  - cbn. rewrite app_nil_r. auto.
  - destruct (detailed_step_classified exactMatches targetWords acc w i) as [Hperm Hmorph].
    destruct (IH (S i) (detailed_step toLowerCase levenshteinDistance exactMatches
                          targetWords acc w i)) as (Hidx & Hvalid & Hgood).
    { intros j. replace (S i + j) with (i + S j) by lia. rewrite <- Hws. reflexivity. }
    split; [| split].
    + rewrite Hidx, Hperm, fmap_app. cbn. rewrite <- app_assoc. reflexivity.
    + intros Hacc. apply Hvalid. rewrite Hperm. apply Forall_app. split; [exact Hacc |].
      constructor; [| constructor]. cbn. rewrite <- (Nat.add_0_r i), <- Hws. reflexivity.
    + intros Hacc. apply Hgood, Hmorph, Hacc.
Qed.

(** X16: the detailed path puts every source word, with its index, in
    exactly one of kept, removed and morphed; a morph leads to a target word
    whose similarity with the source word is 0.6 or more; and the added
    words are target words, in order, whose lower-case text is neither that
    of a kept word nor that of a morph target. *)
Theorem analyzeDetailedDifference_spec (sourceWords targetWords : list TextProcessor.Word) :
  let d := analyzeDetailedDifference toLowerCase levenshteinDistance
             sourceWords targetWords in
  let all := d_kept d ++ d_removed d ++ (dm_from <$> d_morphed d) in
  originalIndex <$> all ≡ₚ seq 0 (length sourceWords)
  /\ Forall (fun iw => sourceWords !! originalIndex iw = Some (iw_word iw)) all
  /\ length (d_kept d) + length (d_removed d) + length (d_morphed d) = length sourceWords
  /\ Forall (good_morph sim targetWords) (d_morphed d)
  /\ d_added d `sublist_of` targetWords
  /\ Forall (fun w =>
               forall k, k ∈ d_kept d ->
                 toLowerCase (TextProcessor.text w)
                 <> toLowerCase (TextProcessor.text (iw_word k)))
       (d_added d)
  /\ Forall (fun w =>
               forall m, m ∈ d_morphed d ->
                 toLowerCase (TextProcessor.text w)
                 <> toLowerCase (TextProcessor.text (dm_to m)))
       (d_added d).
Proof.
  unfold analyzeDetailedDifference.
  set (exactMatches := findExactMatches toLowerCase _ _).
  pose proof (detailed_loop exactMatches sourceWords targetWords sourceWords 0 ([], [], [])
                ltac:(intros j; reflexivity)) as (Hidx & Hvalid & Hgood).
  destruct (forEach_indexed
              (detailed_step toLowerCase levenshteinDistance exactMatches targetWords)
              sourceWords 0 ([], [], [])) as [[kept removed] morphed].
  unfold classified in *. cbn [fst snd d_kept d_removed d_morphed d_added app] in *.
  split; [exact Hidx |].
  split; [apply Hvalid; constructor |].
  split.
  { apply Permutation_length in Hidx. cbn [app fmap list_fmap] in Hidx.
    rewrite !length_fmap, !length_app, !length_fmap, length_seq in Hidx. lia. }
  split; [apply Hgood; constructor |].
  split; [apply sublist_filter |].
  split.
  - apply Forall_forall. intros w Hw k Hk Heq.
    apply list_elem_of_filter in Hw as [Hw _].
    apply andb_true_iff in Hw as [Hw _]. apply negb_true_iff in Hw.
    apply bool_decide_eq_false_1 in Hw. apply Hw.
    apply (elem_of_new_Set toLowerCase), list_elem_of_fmap. exists k. split; [exact Heq | exact Hk].
  - apply Forall_forall. intros w Hw m Hm Heq.
    apply list_elem_of_filter in Hw as [Hw _].
    apply andb_true_iff in Hw as [_ Hw]. apply negb_true_iff in Hw.
    apply bool_decide_eq_false_1 in Hw. apply Hw.
    apply (elem_of_new_Set toLowerCase), list_elem_of_fmap. exists m. split; [exact Heq | exact Hm].
Qed.

End SimilarityFacts.

(** ** The re-projection: removed and morphed words *)

Section Removed.
Import WordMatcher App.
Variable toLowerCase : jsstring -> jsstring.

Lemma findIndex_from_Some {A : Type} (p : A -> bool) (l : list A) (i k : nat) :
  findIndex_from p l i = Some k ->
  i <= k
  /\ (exists x, l !! (k - i) = Some x /\ p x = true)
  /\ forall j y, j < k - i -> l !! j = Some y -> p y = false.
Proof.
  revert i. induction l as [| x l IH]; intros i; cbn; [discriminate |].
  destruct (p x) eqn:Hp.
  - intros [= <-]. rewrite Nat.sub_diag. split; [lia |].
    split; [exists x; auto |]. intros j y Hj. lia.
  - intros H. destruct (IH _ H) as (Hle & (y & Hy & Hpy) & Hbefore).
    split; [lia |]. split.
    + exists y. split; [| exact Hpy].
      replace (k - i) with (S (k - S i)) by lia. exact Hy.
    + intros j z Hj Hz. destruct j as [| j]; cbn in Hz.
      * inversion Hz; subst. exact Hp.
      * apply (Hbefore j z); [lia | exact Hz].
Qed.

Lemma transform_morph_refs (fromWords toWords : list jsstring)
    (ms : list Morph) (acc : list MorphRef) (P : MorphRef -> Prop) :
  (forall m fromIdx toIdx,
     m ∈ ms ->
     findIndex (fun w => bool_decide (toLowerCase w = toLowerCase (source m))) fromWords
     = Some fromIdx ->
     findIndex (fun w => bool_decide (toLowerCase w = toLowerCase (target m))) toWords
     = Some toIdx ->
     P (mkMorphRef (mkRef (default [] (fromWords !! fromIdx)) fromIdx)
                   (mkRef (default [] (toWords !! toIdx)) toIdx) (similarity m))) ->
  Forall P acc ->
  Forall P (foldl (transform_morph toLowerCase fromWords toWords) acc ms)
  /\ length (foldl (transform_morph toLowerCase fromWords toWords) acc ms)
     <= length acc + length ms.
Proof.
  revert acc. induction ms as [| m ms IH]; intros acc HP Hacc; cbn [foldl].
  - split; [exact Hacc | cbn; lia].
  - assert (Hstep : Forall P (transform_morph toLowerCase fromWords toWords acc m)
                    /\ length (transform_morph toLowerCase fromWords toWords acc m)
                       <= S (length acc)).
    { unfold transform_morph.
      destruct (negb _ || negb _); [split; [exact Hacc | lia] |].
      destruct (findIndex _ fromWords) as [fromIdx |] eqn:Ef; [| split; [exact Hacc | lia]].
      destruct (findIndex _ toWords) as [toIdx |] eqn:Et; [| split; [exact Hacc | lia]].
      split.
      - apply Forall_app. split; [exact Hacc |]. constructor; [| constructor].
        apply (HP m); [left | exact Ef | exact Et].
      - rewrite length_app. cbn. lia. }
    destruct Hstep as [Hf Hl].
    destruct (IH (transform_morph toLowerCase fromWords toWords acc m)) as [IH1 IH2].
    + intros m' f t Hm'. apply HP. right. exact Hm'.
    + exact Hf.
    + split; [exact IH1 |]. cbn [length]. lia.
Qed.

Lemma findIndex_first (ws : list jsstring) (w : jsstring) (k : nat) :
  findIndex (fun x => bool_decide (toLowerCase x = toLowerCase w)) ws = Some k ->
  first_occurrence toLowerCase ws (mkRef (default [] (ws !! k)) k) w.
Proof.
  intros H. apply findIndex_from_Some in H as (_ & (x & Hx & Hp) & Hbefore).
  rewrite Nat.sub_0_r in Hx, Hbefore. unfold first_occurrence. cbn [index word].
  rewrite Hx. cbn. apply bool_decide_eq_true in Hp. split; [reflexivity |].
  split; [exact Hp |]. intros j y Hj Hy E.
  specialize (Hbefore j y Hj Hy). apply bool_decide_eq_false in Hbefore. contradiction.
Qed.

(** X17: the removed references of [transformDiffData] are taken from the
    words of the source text: for a lower-case word that is no inherited
    property name, as many of its occurrences as the diff's removed list
    counts, or all when the text has fewer; no index twice; every reference
    the word at its index. Every morphed reference comes from an entry of
    the diff's morphed list, keeps its similarity, and points at the first
    word of the source and of the target that is the entry's word up to
    case. *)
Theorem transformDiffData_removed_morphed
    (diffData : TransitionDiff) (fromText toText : jsstring) :
  let t := transformDiffData toLowerCase diffData fromText toText in
  let fromWords := words_of fromText in
  let toWords := words_of toText in
  (forall w, w ∉ Object_prototype_keys ->
     assigned toLowerCase w (t_removed t)
     = Nat.min (occurrences toLowerCase w (removed diffData))
         (occurrences toLowerCase w fromWords))
  /\ NoDup (index <$> t_removed t)
  /\ Forall (fun r => fromWords !! index r = Some (word r)) (t_removed t)
  /\ Forall (fun r => exists m, m ∈ morphed diffData
                       /\ m_similarity r = similarity m
                       /\ first_occurrence toLowerCase fromWords (from r) (source m)
                       /\ first_occurrence toLowerCase toWords (to r) (target m))
       (t_morphed t)
  /\ length (t_morphed t) <= length (morphed diffData).
Proof.
  cbn zeta. unfold transformDiffData. cbn [t_removed t_morphed].
  split; [intros w Hw; apply match_words_kept, Hw |].
  split.
  { destruct (walk_NoDup toLowerCase [] (words_of fromText) 0
                (mkWalk (wordCounts toLowerCase (removed diffData)) ∅ []))
      as [Hnd _].
    - cbn. apply NoDup_nil_2.
    - cbn. intros r Hr. apply elem_of_nil in Hr. contradiction.
    - exact Hnd. }
  split; [apply walk_refs; cbn; auto |].
  destruct (transform_morph_refs (words_of fromText) (words_of toText)
              (morphed diffData) []
              (fun r => exists m, m ∈ morphed diffData
                       /\ m_similarity r = similarity m
                       /\ first_occurrence toLowerCase (words_of fromText) (from r) (source m)
                       /\ first_occurrence toLowerCase (words_of toText) (to r) (target m)))
    as [Hf Hl].
  - intros m fromIdx toIdx Hm Ef Et. exists m. cbn [m_similarity from to].
    split; [exact Hm |]. split; [reflexivity |].
    split; apply findIndex_first; assumption.
  - constructor.
  - split; [exact Hf | exact Hl].
Qed.

End Removed.

(** ** The fast path end to end *)

Section Pipeline.
Import WordMatcher App.
Variable toLowerCase : jsstring -> jsstring.
Hypothesis toLowerCase_idempotent :
  forall s, toLowerCase (toLowerCase s) = toLowerCase s.

(** In a list of distinct lower-case words a word is counted once. *)
Lemma occurrences_NoDup (w : jsstring) (l : list jsstring) :
  NoDup l -> Forall (fun x => toLowerCase x = x) l ->
  (w ∈ l -> occurrences toLowerCase w l = 1)
  /\ (w ∉ l -> occurrences toLowerCase w l = 0).
Proof.
  unfold occurrences. induction 1 as [| x l Hx Hnd IH]; intros Hfix.
  - split; [intros H; apply elem_of_nil in H; contradiction | reflexivity].
  - apply Forall_cons in Hfix as [Hfx Hfix]. destruct (IH Hfix) as [IH1 IH0].
    split.
    + intros Hw. rewrite filter_cons. apply elem_of_cons in Hw as [-> | Hw].
      * destruct (decide (toLowerCase x = x)); [| contradiction].
        cbn. rewrite IH0 by exact Hx. reflexivity.
      * destruct (decide (toLowerCase x = w)) as [E | E].
        { rewrite Hfx in E. subst x. contradiction. }
        apply IH1, Hw.
    + intros Hw. rewrite filter_cons. apply not_elem_of_cons in Hw as [Hne Hw].
      destruct (decide (toLowerCase x = w)) as [E | E].
      { rewrite Hfx in E. congruence. }
      apply IH0, Hw.
Qed.

Lemma occurrences_pos (w : jsstring) (l : list jsstring) :
  w ∈ toLowerCase <$> l <-> 0 < occurrences toLowerCase w l.
Proof.
  unfold occurrences. induction l as [| x l IH].
  - cbn. split; [intros H; apply elem_of_nil in H; contradiction | lia].
  - rewrite fmap_cons, filter_cons, elem_of_cons.
    destruct (decide (toLowerCase x = w)) as [E | E]; cbn [length].
    + split; [lia | auto].
    + rewrite <- IH. split; [intros [H | H]; [congruence | exact H] | auto].
Qed.

(** The added walk starts from the indices the kept walk used. *)
Lemma match_words_added (keptList addedList rendered : list jsstring) (w : jsstring) :
  w ∉ Object_prototype_keys ->
  let keptWalk := match_words toLowerCase keptList rendered ∅ in
  assigned toLowerCase w (out (match_words toLowerCase addedList rendered (used keptWalk)))
  = Nat.min (occurrences toLowerCase w addedList)
      (occurrences toLowerCase w rendered - assigned toLowerCase w (out keptWalk)).
Proof.
  intros Hw keptWalk. unfold match_words at 1.
  destruct (wordCounts_count toLowerCase addedList w Hw) as [Hnum Hc].
  rewrite walk_assigned by assumption.
  cbn [counts used out]. rewrite Hc, Nat2Z.id.
  pose proof (walk_available toLowerCase w rendered 0
                (mkWalk (wordCounts toLowerCase keptList) ∅ [])) as Hav.
  cbn [used out] in Hav. rewrite available_empty in Hav.
  fold (match_words toLowerCase keptList rendered ∅) in Hav.
  fold keptWalk in Hav. cbn in Hav. cbn. lia.
Qed.

(** X18: the diff of the fast path re-projected on the two texts: a
    lower-case word that is no inherited property name gets exactly one
    kept reference when both texts have it, exactly one added reference
    when only the target has it, exactly one removed reference when only
    the source has it, and no reference of the category otherwise, however
    often the texts repeat the word. *)
Theorem fastPath_one_reference_per_word (sourceText targetText : jsstring)
    (w : jsstring) :
  w ∉ Object_prototype_keys ->
  let d := analyzeDifference toLowerCase sourceText targetText in
  let t := transformDiffData toLowerCase d sourceText targetText in
  let source := toLowerCase <$> words_of sourceText in
  let target := toLowerCase <$> words_of targetText in
  (w ∈ source -> w ∈ target ->
     assigned toLowerCase w (t_kept t) = 1
     /\ assigned toLowerCase w (t_added t) = 0
     /\ assigned toLowerCase w (t_removed t) = 0)
  /\ (w ∈ source -> w ∉ target ->
      assigned toLowerCase w (t_kept t) = 0
      /\ assigned toLowerCase w (t_added t) = 0
      /\ assigned toLowerCase w (t_removed t) = 1)
  /\ (w ∉ source -> w ∈ target ->
      assigned toLowerCase w (t_kept t) = 0
      /\ assigned toLowerCase w (t_added t) = 1
      /\ assigned toLowerCase w (t_removed t) = 0)
  /\ (w ∉ source -> w ∉ target ->
      assigned toLowerCase w (t_kept t) = 0
      /\ assigned toLowerCase w (t_added t) = 0
      /\ assigned toLowerCase w (t_removed t) = 0).
Proof.
  intros Hw. cbn zeta.
  set (source := toLowerCase <$> words_of sourceText).
  set (target := toLowerCase <$> words_of targetText).
  assert (Hs : toLowerCase <$> source = source).
  { unfold source. rewrite <- list_fmap_compose. apply list_fmap_ext.
    intros i x _. apply toLowerCase_idempotent. }
  assert (Ht : toLowerCase <$> target = target).
  { unfold target. rewrite <- list_fmap_compose. apply list_fmap_ext.
    intros i x _. apply toLowerCase_idempotent. }
  assert (Hfixs : forall x, x ∈ source -> toLowerCase x = x).
  { intros x Hx. apply list_elem_of_fmap in Hx as (y & -> & _).
    apply toLowerCase_idempotent. }
  assert (Hfixt : forall x, x ∈ target -> toLowerCase x = x).
  { intros x Hx. apply list_elem_of_fmap in Hx as (y & -> & _).
    apply toLowerCase_idempotent. }
  unfold transformDiffData, analyzeDifference.
  cbn [t_kept t_added t_removed kept added removed].
  fold source. fold target.
  set (E := findExactMatches toLowerCase source target).
  assert (HE : forall x, x ∈ E <-> x ∈ source /\ x ∈ target).
  { intros x. unfold E. rewrite elem_of_findExactMatches, Hs, Ht. reflexivity. }
  pose proof (occurrences_NoDup w E (NoDup_findExactMatches toLowerCase source target))
    as [Hk1 Hk0].
  { apply Forall_forall. intros x Hx. apply HE in Hx as [Hx _]. apply Hfixs, Hx. }
  pose proof (occurrences_NoDup w (unmatched E source) (NoDup_unmatched id E source))
    as [Hr1 Hr0].
  { apply Forall_forall. intros x Hx. apply (elem_of_unmatched toLowerCase) in Hx as [Hx _].
    apply Hfixs, Hx. }
  pose proof (occurrences_NoDup w (unmatched E target) (NoDup_unmatched id E target))
    as [Ha1 Ha0].
  { apply Forall_forall. intros x Hx. apply (elem_of_unmatched toLowerCase) in Hx as [Hx _].
    apply Hfixt, Hx. }
  rewrite HE in Hk1, Hk0.
  rewrite !(elem_of_unmatched toLowerCase), HE in Hr1, Hr0, Ha1, Ha0.
  pose proof (match_words_kept toLowerCase E (words_of targetText) w Hw) as Hkept.
  pose proof (match_words_kept toLowerCase (unmatched E source) (words_of sourceText) w Hw)
    as Hremoved.
  pose proof (match_words_added E (unmatched E target) (words_of targetText) w Hw) as Hadded.
  cbn zeta in Hadded.
  pose proof (occurrences_pos w (words_of sourceText)) as Hps. fold source in Hps.
  pose proof (occurrences_pos w (words_of targetText)) as Hpt. fold target in Hpt.
  rewrite Hkept, Hremoved, Hadded, Hkept.
  split; [| split; [| split]]; intros Hin_s Hin_t; (split; [| split]).
  all: try (rewrite Hk1 by tauto); try (rewrite Hk0 by tauto);
       try (rewrite Hr1 by tauto); try (rewrite Hr0 by tauto);
       try (rewrite Ha1 by tauto); try (rewrite Ha0 by tauto).
  all: try (apply Hps in Hin_s); try (apply Hpt in Hin_t).
  all: try (assert (occurrences toLowerCase w (words_of sourceText) = 0)
              by (destruct (occurrences toLowerCase w (words_of sourceText)) eqn:E0;
                  [reflexivity | exfalso; apply Hin_s, Hps; lia])).
  all: try (assert (occurrences toLowerCase w (words_of targetText) = 0)
              by (destruct (occurrences toLowerCase w (words_of targetText)) eqn:E0;
                  [reflexivity | exfalso; apply Hin_t, Hpt; lia])).
  all: lia.
Qed.

End Pipeline.

(** ** The state manager *)

Section StateFacts.
Import StateManager.

Lemma setLevel_level_ok {Arg : Type} (parseInt : Arg -> option Z) (level : Arg)
    (st : AppState) :
  level_ok st -> level_ok (setLevel parseInt level st).1.2.
Proof.
  intros Hok. unfold setLevel.
  destruct (parseInt level) as [n |]; cbn; [| exact Hok].
  case_bool_decide as Hn; cbn; [| exact Hok].
  case_bool_decide; cbn; [exact Hok | exact Hn].
Qed.

Lemma call_level_ok (c : Call) (st : AppState) : level_ok st -> level_ok (call c st).
Proof.
  intros Hok. destruct c; cbn [call]; try exact Hok.
  - apply setLevel_level_ok, Hok.
  - apply setLevel_level_ok, Hok.
  - destruct text; exact Hok.
  - unfold setAnimating. cbn. destruct (negb _); exact Hok.
  - unfold addEventListener.
    destruct (listeners_get (listeners st) event); [| destruct callback; exact Hok | exact Hok].
    destruct callback; exact Hok.
  - unfold removeEventListener.
    destruct (listeners_get (listeners st) event); [| exact Hok | exact Hok].
    destruct callback; exact Hok.
  - unfold level_ok. cbn. constructor.
Qed.

Lemma call_listeners (c : Call) (st : AppState) :
  match c with
  | CAddEventListener _ _ | CRemoveEventListener _ _ => True
  | _ => listeners (call c st) = listeners st
  end.
Proof.
  destruct c; cbn [call]; try exact I; try reflexivity.
  - unfold setLevel. destruct (parseInt_string level); cbn; [| reflexivity].
    case_bool_decide; cbn; [| reflexivity]. case_bool_decide; reflexivity.
  - unfold setLevel. destruct (parseInt_number level); cbn; [| reflexivity].
    case_bool_decide; cbn; [| reflexivity]. case_bool_decide; reflexivity.
  - destruct text; reflexivity.
  - unfold setAnimating. cbn. destruct (negb _); reflexivity.
Qed.

(** X19: whatever calls are made on the state manager, in whatever order and
    with whatever arguments, the current level stays one of 0, 1, 2 and 3;
    and the registered listeners change only by [addEventListener] and
    [removeEventListener]: [resetState] keeps them. *)
Theorem level_invariant (cs : list Call) :
  level_ok (calls cs initialState)
  /\ (Forall (fun c => match c with
                       | CAddEventListener _ _ | CRemoveEventListener _ _ => False
                       | _ => True
                       end) cs ->
      forall st, listeners (calls cs st) = listeners st).
Proof.
  split.
  - assert (H : forall st, level_ok st -> level_ok (calls cs st)).
    { induction cs as [| c cs IH]; intros st Hok; [exact Hok |].
      apply IH, call_level_ok, Hok. }
    apply H. unfold level_ok. cbn. constructor.
  - induction 1 as [| c cs Hc _ IH]; intros st; [reflexivity |].
    unfold calls in *. cbn [foldl]. rewrite IH.
    pose proof (call_listeners c st) as Hl. destruct c; try contradiction; exact Hl.
Qed.

(** X20: a text stored with [setText] is what [getText] reads at that level,
    except that an empty text reads as none; the other levels, the current
    level and the original text are as before, and the text listeners are
    told the level and the text. A text that is no string is refused and
    nothing changes. *)
Theorem setText_getText (level : Z) (text : jsstring) (m : option jsstring)
    (st : AppState) :
  let '(ok, st', notices) := setText level (TString text) m st in
  ok = true
  /\ getText level st' = (if bool_decide (text = []) then None else Some text)
  /\ (forall other, other <> level -> getText other st' = getText other st)
  /\ currentLevel st' = currentLevel st
  /\ originalText st' = originalText st
  /\ getMetadata level st' = (match m with Some _ => m | None => getMetadata level st end)
  /\ notices = [mkNotice (TextChange level text) (textChange (listeners st))]
  /\ setText level TOther m st = (false, st, []).
Proof.
  cbn. repeat split.
  - unfold getText. cbn. rewrite lookup_insert_eq. destruct text; reflexivity.
  - intros other Hne. unfold getText. cbn. rewrite lookup_insert_ne by congruence.
    reflexivity.
  - unfold getMetadata. cbn. destruct m; [apply lookup_insert_eq | reflexivity].
Qed.

(** X21: [setAnimating] leaves the flag as asked and tells the listeners
    exactly when the flag changes; asking again for the same value tells
    nobody. *)
Theorem setAnimating_notifies_on_change (animating : bool) (st : AppState) :
  let '(st', notices) := setAnimating animating st in
  isAnimating st' = animating
  /\ (notices = [] <-> isAnimating st = animating)
  /\ (isAnimating st <> animating ->
      notices = [mkNotice (AnimationStateChange animating)
                   (animationStateChange (listeners st))])
  /\ (setAnimating animating st').2 = [].
Proof.
  unfold setAnimating. cbn.
  destruct (isAnimating st) eqn:E, animating; cbn; rewrite ?E; cbn;
    repeat split; try congruence; try discriminate; intros; congruence.
Qed.

Lemma event_names_distinct :
  lit "levelChange" <> lit "textChange"
  /\ lit "levelChange" <> lit "animationStateChange"
  /\ lit "textChange" <> lit "animationStateChange".
Proof. repeat split; discriminate. Qed.

Lemma remove_first_app_fresh (id : nat) (callbacks : list nat) :
  id ∉ callbacks -> remove_first id (callbacks ++ [id]) = callbacks.
Proof.
  induction callbacks as [| c callbacks IH]; cbn; intros Hid.
  - rewrite bool_decide_eq_true_2 by reflexivity. reflexivity.
  - apply not_elem_of_cons in Hid as [Hne Hid].
    rewrite bool_decide_eq_false_2 by congruence. rewrite IH by exact Hid. reflexivity.
Qed.

Lemma listeners_get_set (l : Listeners) (event : jsstring) (old new : list nat) :
  listeners_get l event = Slot old ->
  listeners_get (listeners_set l event new) event = Slot new
  /\ listeners_set (listeners_set l event new) event old = l.
Proof.
  unfold listeners_get, listeners_set. destruct l as [a b c]. cbn.
  repeat case_bool_decide; cbn; intros Hs; try discriminate;
    inversion Hs; subst; split; reflexivity.
Qed.

(** X22: registering a function under one of the three event names puts it
    last among the callbacks of that event, so that the next notification
    reaches it, and removing it again leaves the state as it was before
    (the function not being registered there already). *)
Theorem addEventListener_then_remove (event : jsstring) (id : nat)
    (callbacks : list nat) (st : AppState) :
  listeners_get (listeners st) event = Slot callbacks ->
  id ∉ callbacks ->
  exists st',
    addEventListener event (Fn id) st = Done st'
    /\ listeners_get (listeners st') event = Slot (callbacks ++ [id])
    /\ removeEventListener event (Fn id) st' = Done st.
Proof.
  intros Hslot Hfresh. unfold addEventListener. rewrite Hslot.
  eexists. split; [reflexivity |].
  destruct (listeners_get_set (listeners st) event callbacks (callbacks ++ [id]) Hslot)
    as [Hget Hset].
  split; [exact Hget |].
  unfold removeEventListener. cbn [listeners with_listeners]. rewrite Hget.
  rewrite remove_first_app_fresh by exact Hfresh. rewrite Hset.
  destruct st; reflexivity.
Qed.

(** X23: an event name that is none of the three but names a property every
    object inherits ([toString], [constructor], ...) passes the check of
    the event: adding a function under it throws, and so does removing;
    any other unknown name, and a callback that is no function, leave the
    state as it was. *)
Theorem addEventListener_unknown_event (event : jsstring) (callback : CallbackArg)
    (st : AppState) :
  event ∉ [lit "levelChange"; lit "textChange"; lit "animationStateChange"] ->
  (event ∈ App.Object_prototype_keys ->
     (forall id, addEventListener event (Fn id) st = Throws)
     /\ addEventListener event NotFn st = Done st
     /\ removeEventListener event callback st = Throws)
  /\ (event ∉ App.Object_prototype_keys ->
      addEventListener event callback st = Done st
      /\ removeEventListener event callback st = Done st).
Proof.
  intros Hev.
  apply not_elem_of_cons in Hev as [H1 Hev].
  apply not_elem_of_cons in Hev as [H2 Hev].
  apply not_elem_of_cons in Hev as [H3 _].
  unfold addEventListener, removeEventListener, listeners_get.
  rewrite !(bool_decide_eq_false_2 _ H1), !(bool_decide_eq_false_2 _ H2),
    !(bool_decide_eq_false_2 _ H3).
  split; intros Hk.
  - rewrite !(bool_decide_eq_true_2 _ Hk). repeat split.
  - rewrite !(bool_decide_eq_false_2 _ Hk). repeat split.
Qed.

End StateFacts.

(** ** Gestures *)

Section GestureFacts.
Import StateManager Gestures.
#[local] Open Scope Q_scope.

Lemma levelToScale_range (level : Q) :
  0 <= level -> level <= 3 -> minScale <= levelToScale level /\ levelToScale level <= maxScale.
Proof.
  intros H0 H3. unfold levelToScale, minScale, maxScale.
  assert (E : (5 # 10) + (3 - level) / 3 * (2 - (5 # 10)) == 2 - level * (1 # 2)) by field.
  rewrite E. split; lra.
Qed.

Lemma rawLevel_levelToScale (level : Q) :
  0 <= level -> level <= 3 -> rawLevel (levelToScale level) == level.
Proof.
  intros H0 H3. destruct (levelToScale_range level H0 H3) as [Hlo Hhi].
  unfold rawLevel. rewrite (Q.min_r maxScale (levelToScale level)) by exact Hhi.
  rewrite Q.max_r by exact Hlo.
  unfold levelToScale, minScale, maxScale. field.
Qed.

(** X24: [levelToScale] is the inverse of the mapping of scales to levels:
    at the scale of a level between 0 and 3 the continuous level is that
    level, and for a whole level [scaleToLevel] answers it whatever the
    current level. *)
Theorem scaleToLevel_levelToScale (n : Z) (level : Q) (current : Z) :
  (0 <= n <= 3)%Z -> 0 <= level -> level <= 3 ->
  rawLevel (levelToScale level) == level
  /\ scaleToLevel (levelToScale (inject_Z n)) current = n.
Proof.
  intros Hn H0 H3. split; [apply rawLevel_levelToScale; assumption |].
  apply scaleToLevel_at_integer, rawLevel_levelToScale.
  - change 0 with (inject_Z 0). rewrite <- Zle_Qle. lia.
  - change 3 with (inject_Z 3). rewrite <- Zle_Qle. lia.
Qed.

Lemma parseInt_number_small (n : Z) :
  (0 <= n <= 3)%Z -> parseInt_number n = Some n.
Proof.
  intros Hn. unfold parseInt_number.
  destruct (Z.abs n <? 10 ^ 21)%Z eqn:E; [reflexivity |].
  apply Z.ltb_ge in E. assert (10 ^ 21 > 3)%Z by (vm_compute; reflexivity). lia.
Qed.

Lemma setLevel_number_step (n : Z) (st : AppState) :
  (0 <= n <= 3)%Z -> n <> currentLevel st ->
  setLevel parseInt_number n st
  = (true, set_currentLevel n st,
     [mkNotice (LevelChange (currentLevel st) n) (levelChange (listeners st))]).
Proof.
  intros Hn Hne. unfold setLevel. rewrite parseInt_number_small by exact Hn.
  cbn [valid_level].
  rewrite bool_decide_eq_true_2.
  2:{ assert (n = 0 \/ n = 1 \/ n = 2 \/ n = 3)%Z as [-> | [-> | [-> | ->]]] by lia;
        repeat constructor. }
  cbn [negb]. rewrite bool_decide_eq_false_2 by congruence. reflexivity.
Qed.

(** X25: a click on "+" at a level from 0 to 3: during the cooldown of the
    buttons and at level 3 nothing happens; otherwise the cooldown starts,
    and unless an animation is running the level goes up by one and the
    level listeners are told the old and the new level once. *)
Theorem handleLevelUp_spec (buttonCooldown : bool) (st : AppState) :
  (0 <= currentLevel st <= 3)%Z ->
  let '(cooldown, st', notices) := handleLevelUp buttonCooldown st in
  if buttonCooldown || (currentLevel st =? 3)%Z
  then cooldown = buttonCooldown /\ st' = st /\ notices = []
  else cooldown = true
       /\ if isAnimating st then st' = st /\ notices = []
          else st' = set_currentLevel (currentLevel st + 1) st
               /\ notices = [mkNotice (LevelChange (currentLevel st) (currentLevel st + 1))
                               (levelChange (listeners st))].
Proof.
  intros Hl. unfold handleLevelUp, getLevel.
  destruct buttonCooldown; cbn [orb]; [repeat split |].
  destruct (currentLevel st =? 3)%Z eqn:E3.
  - apply Z.eqb_eq in E3. rewrite E3. cbn. repeat split.
  - apply Z.eqb_neq in E3.
    rewrite Z.min_r by lia.
    rewrite (proj2 (Z.eqb_neq (currentLevel st + 1) (currentLevel st))) by lia.
    cbn [negb]. unfold changeLevelWithAnimation, getLevel.
    destruct (isAnimating st); [repeat split |].
    rewrite (proj2 (Z.eqb_neq (currentLevel st + 1) (currentLevel st))) by lia.
    rewrite setLevel_number_step by lia. repeat split.
Qed.

(** X26: a click on "-" at a level from 0 to 3: during the cooldown and at
    level 0 nothing happens; otherwise the cooldown starts, and unless an
    animation is running the level goes down by one and the level
    listeners are told once. After the cooldown a "-" undoes a "+". *)
Theorem handleLevelDown_spec (buttonCooldown : bool) (st : AppState) :
  (0 <= currentLevel st <= 3)%Z ->
  (let '(cooldown, st', notices) := handleLevelDown buttonCooldown st in
   if buttonCooldown || (currentLevel st =? 0)%Z
   then cooldown = buttonCooldown /\ st' = st /\ notices = []
   else cooldown = true
        /\ if isAnimating st then st' = st /\ notices = []
           else st' = set_currentLevel (currentLevel st - 1) st
                /\ notices = [mkNotice (LevelChange (currentLevel st) (currentLevel st - 1))
                                (levelChange (listeners st))])
  /\ (isAnimating st = false -> (currentLevel st < 3)%Z ->
      (handleLevelDown false (handleLevelUp false st).1.2).1.2 = st).
Proof.
  intros Hl.
  assert (Hdown : forall st0 cd, (0 <= currentLevel st0 <= 3)%Z ->
    handleLevelDown cd st0
    = if cd || (currentLevel st0 =? 0)%Z then (cd, st0, [])
      else if isAnimating st0 then (true, st0, [])
      else (true, set_currentLevel (currentLevel st0 - 1) st0,
            [mkNotice (LevelChange (currentLevel st0) (currentLevel st0 - 1))
               (levelChange (listeners st0))])).
  { intros st0 cd H0. unfold handleLevelDown, getLevel.
    destruct cd; cbn [orb]; [reflexivity |].
    destruct (currentLevel st0 =? 0)%Z eqn:E0.
    - apply Z.eqb_eq in E0. rewrite E0. reflexivity.
    - apply Z.eqb_neq in E0. rewrite Z.max_r by lia.
      rewrite (proj2 (Z.eqb_neq (currentLevel st0 - 1) (currentLevel st0))) by lia.
      cbn [negb]. unfold changeLevelWithAnimation, getLevel.
      destruct (isAnimating st0); [reflexivity |].
      rewrite (proj2 (Z.eqb_neq (currentLevel st0 - 1) (currentLevel st0))) by lia.
      rewrite setLevel_number_step by lia. reflexivity. }
  split.
  - rewrite (Hdown st buttonCooldown Hl).
    destruct (buttonCooldown || (currentLevel st =? 0)%Z); [repeat split |].
    destruct (isAnimating st); repeat split.
  - intros Han Hlt. unfold handleLevelUp, getLevel. cbn [orb].
    rewrite Z.min_r by lia.
    rewrite (proj2 (Z.eqb_neq (currentLevel st + 1) (currentLevel st))) by lia.
    cbn [negb]. unfold changeLevelWithAnimation, getLevel. rewrite Han.
    rewrite (proj2 (Z.eqb_neq (currentLevel st + 1) (currentLevel st))) by lia.
    rewrite setLevel_number_step by lia. cbn [fst snd].
    rewrite Hdown by (cbn; lia). cbn [orb set_currentLevel currentLevel isAnimating].
    rewrite (proj2 (Z.eqb_neq (currentLevel st + 1) 0)) by lia. rewrite Han.
    cbn [fst snd]. destruct st; unfold set_currentLevel; cbn in *. f_equal. lia.
Qed.

End GestureFacts.

(** ** The animator: which words are animated *)

Section SamplingFacts.
Import Animator.
Variable visible : nat -> bool.
Variable shuffle : list nat -> list nat.
(** A shuffle only reorders. *)
Hypothesis shuffle_Permutation : forall l, shuffle l ≡ₚ l.

(** X27: [filterAndSampleWords] at a rate of 1 or more returns the indices
    of the visible words, in their order; at a rate from 0 up to 1 it
    returns as many as the floor of the rounded product of their number and
    the rate, which is the floor or the ceiling of the exact product, each
    taken from the visible ones without repeating one more often than it is
    listed. *)
Theorem filterAndSampleWords_spec (wordIndices : list nat) (samplingRate : Q) :
  (0 <= samplingRate)%Q -> (Z.of_nat (length wordIndices) < 2 ^ 53)%Z ->
  let shown := filter (fun index => visible index = true) wordIndices in
  let result := filterAndSampleWords visible shuffle wordIndices samplingRate in
  ((1 <= samplingRate)%Q -> result = shown)
  /\ ((samplingRate < 1)%Q ->
      Z.of_nat (length result)
      = Qfloor (round64 (inject_Z (Z.of_nat (length shown)) * samplingRate))
      /\ (Qfloor (inject_Z (Z.of_nat (length shown)) * samplingRate)
          <= Z.of_nat (length result)
          <= Qceiling (inject_Z (Z.of_nat (length shown)) * samplingRate))%Z
      /\ exists rest, result ++ rest ≡ₚ shown).
Proof.
  intros H0 Hsize. cbn zeta.
  unfold filterAndSampleWords, onlyAnimateInViewport, samplingEnabled.
  cbn [andb].
  set (shown := filter (fun index => visible index = true) wordIndices).
  assert (Hshown : (Z.of_nat (length shown) < 2 ^ 53)%Z).
  { pose proof (length_filter (fun index => visible index = true) wordIndices).
    unfold shown. lia. }
  split.
  - intros H1. apply Qle_bool_iff in H1. rewrite H1. reflexivity.
  - intros H1.
    assert (E : Qle_bool 1 samplingRate = false).
    { apply not_true_iff_false. rewrite Qle_bool_iff. lra. }
    rewrite E. cbn [negb].
    destruct (share_count (length shown) samplingRate Hshown H0 ltac:(lra)) as (-> & Hb).
    assert (Hlen : length (shuffle shown) = length shown)
      by (apply Permutation_length, shuffle_Permutation).
    rewrite slice_num_count by (rewrite Hlen; exact Hb).
    set (k := Qfloor (round64 (inject_Z (Z.of_nat (length shown)) * samplingRate))) in *.
    assert (Hn : (0 <= inject_Z (Z.of_nat (length shown)))%Q).
    { change 0%Q with (inject_Z 0). rewrite <- Zle_Qle. lia. }
    assert (Hf0 : (0 <= Qfloor (inject_Z (Z.of_nat (length shown)) * samplingRate))%Z).
    { change 0%Z with (Qfloor 0). apply Qfloor_resp_le. nra. }
    assert (Hc1 : (Qceiling (inject_Z (Z.of_nat (length shown)) * samplingRate)
                   <= Z.of_nat (length shown))%Z).
    { rewrite <- (Qceiling_Z (Z.of_nat (length shown))) at 2. apply Qceiling_resp_le. nra. }
    assert (Hfc : (Qfloor (inject_Z (Z.of_nat (length shown)) * samplingRate)
                   <= Qceiling (inject_Z (Z.of_nat (length shown)) * samplingRate))%Z).
    { rewrite Zle_Qle.
      pose proof (Qfloor_le (inject_Z (Z.of_nat (length shown)) * samplingRate)).
      pose proof (Qle_ceiling (inject_Z (Z.of_nat (length shown)) * samplingRate)). lra. }
    destruct (Qfloor_round64 (inject_Z (Z.of_nat (length shown)) * samplingRate))
      as [Hs _]; [lia | lia |].
    fold k in Hs.
    split; [rewrite length_take, Hlen; lia |].
    split; [rewrite length_take, Hlen; lia |].
    exists (drop (Z.to_nat k) (shuffle shown)).
    rewrite take_drop. apply shuffle_Permutation.
Qed.

End SamplingFacts.

(** The rounding shows in the count: of 90 visible words the rate 0.7, which
    the timeline passes for kept words, samples 62, the product 90 * 0.7
    being 62.99999999999999. *)
Example filterAndSampleWords_rounded :
  length (Animator.filterAndSampleWords (fun _ => true) reverse (seq 0 90)
            (round64 (7 # 10))) = 62
  /\ Qfloor (inject_Z 90 * (7 # 10)) = 63%Z.
Proof. vm_compute. split; reflexivity. Qed.

(** ** The further properties at concrete inputs *)

(** Two scored words and their normalised scores. *)
Lemma normalizeTFIDF_range_witness :
  let fox := Tfidf.mkItem (lit "fox") (Num (1 # 2)) (Num (2 # 3)) (Num (1 # 3)) 1 None in
  let dog := Tfidf.mkItem (lit "dog") (Num (1 # 4)) (Num (2 # 3)) (Num (1 # 6)) 1 None in
  Forall (fun kv => exists t, Tfidf.tfidf kv.2 = Num t
                              /\ (- 2 ^ 1022 <= t)%Q /\ (t <= 2 ^ 1022)%Q)
    [(lit "fox", fox); (lit "dog", dog)]
  /\ Forall2 normalized_entry [(lit "fox", fox); (lit "dog", dog)]
       (Tfidf.normalizeTFIDF [(lit "fox", fox); (lit "dog", dog)]).
Proof.
  intros fox dog.
  assert (H : Forall (fun kv => exists t, Tfidf.tfidf kv.2 = Num t
                                          /\ (- 2 ^ 1022 <= t)%Q /\ (t <= 2 ^ 1022)%Q)
                [(lit "fox", fox); (lit "dog", dog)]).
  { repeat constructor.
    - exists (1 # 3)%Q. split; [reflexivity |]. split; vm_compute; discriminate.
    - exists (1 # 6)%Q. split; [reflexivity |]. split; vm_compute; discriminate. }
  split; [exact H | exact (normalizeTFIDF_range _ H)].
Defined.

(** A fifth of two keywords is one keyword. *)
Lemma extractTopKeywords_spec_witness :
  let fox := Tfidf.mkItem (lit "fox") (Num (1 # 2)) (Num (2 # 3)) (Num (1 # 3)) 1 None in
  let dog := Tfidf.mkItem (lit "dog") (Num (1 # 4)) (Num (2 # 3)) (Num (1 # 6)) 1 None in
  Forall (fun kv => finite (Tfidf.tfidf kv.2)) [(lit "dog", dog); (lit "fox", fox)]
  /\ Z.of_nat (length (Tfidf.extractTopKeywords [(lit "dog", dog); (lit "fox", fox)] None 20))
     = Qceiling (round64 (inject_Z (Z.of_nat 2) * round64 (20 / 100))).
Proof.
  intros fox dog.
  assert (H : Forall (fun kv => finite (Tfidf.tfidf kv.2))
                [(lit "dog", dog); (lit "fox", fox)]) by (repeat constructor).
  split; [exact H |].
  destruct (extractTopKeywords_spec [(lit "dog", dog); (lit "fox", fox)] None 20 H)
    as (_ & _ & Hp).
  apply Hp; [left; reflexivity | vm_compute; discriminate | vm_compute; discriminate
            | vm_compute; reflexivity].
Defined.

(** The statistics of two priorities. *)
Lemma calculatePriorityStats_spec_witness :
  let w (t : string) (p : Q) :=
    PriorityCalculator.mkPrioritized
      (PriorityCalculator.mkEnriched
         (TextProcessor.mkWord (lit t) 0 0 0 TextProcessor.NOUN) (Num 0) (Num 0))
      (Num p) PriorityCalculator.Middle in
  Forall (fun x => exists p, PriorityCalculator.priority x = Num p
                             /\ (0 <= p)%Q /\ (p <= 1)%Q)
    [w "fox"%string (3 # 4)%Q; w "dog"%string (1 # 4)%Q]
  /\ (Z.of_nat 2 < 2 ^ 53)%Z
  /\ PriorityCalculator.stats_count
       (PriorityCalculator.calculatePriorityStats
          [w "fox"%string (3 # 4)%Q; w "dog"%string (1 # 4)%Q]) = 2.
Proof.
  intros w.
  assert (H : Forall (fun x => exists p, PriorityCalculator.priority x = Num p
                                         /\ (0 <= p)%Q /\ (p <= 1)%Q)
                [w "fox"%string (3 # 4)%Q; w "dog"%string (1 # 4)%Q]).
  { repeat constructor.
    - exists (3 # 4)%Q. split; [reflexivity |]. split; vm_compute; discriminate.
    - exists (1 # 4)%Q. split; [reflexivity |]. split; vm_compute; discriminate. }
  assert (Hs : (Z.of_nat 2 < 2 ^ 53)%Z) by (vm_compute; reflexivity).
  split; [exact H |]. split; [exact Hs |].
  exact (proj1 (calculatePriorityStats_spec _ H Hs)).
Defined.

(** Half of two words is one core keyword. *)
Lemma identifyCoreKeywords_spec_witness :
  let w (t : string) (p : Q) :=
    PriorityCalculator.mkPrioritized
      (PriorityCalculator.mkEnriched
         (TextProcessor.mkWord (lit t) 0 0 0 TextProcessor.NOUN) (Num 0) (Num 0))
      (Num p) PriorityCalculator.Middle in
  Forall (fun x => finite (PriorityCalculator.priority x))
    [w "dog"%string (1 # 4)%Q; w "fox"%string (3 # 4)%Q]
  /\ (0 <= 50)%Q /\ (50 <= 100)%Q /\ (Z.of_nat 2 < 2 ^ 53)%Z
  /\ Z.of_nat (length (PriorityCalculator.identifyCoreKeywords
                         [w "dog"%string (1 # 4)%Q; w "fox"%string (3 # 4)%Q] 50))
     = Qceiling (round64 (inject_Z (Z.of_nat 2) * round64 (50 / 100))).
Proof.
  intros w.
  assert (H : Forall (fun x => finite (PriorityCalculator.priority x))
                [w "dog"%string (1 # 4)%Q; w "fox"%string (3 # 4)%Q])
    by (repeat constructor).
  assert (H0 : (0 <= 50)%Q) by (vm_compute; discriminate).
  assert (H1 : (50 <= 100)%Q) by (vm_compute; discriminate).
  assert (Hs : (Z.of_nat 2 < 2 ^ 53)%Z) by (vm_compute; reflexivity).
  split; [exact H |]. split; [exact H0 |]. split; [exact H1 |]. split; [exact Hs |].
  exact (proj1 (identifyCoreKeywords_spec _ 50 H H0 H1 Hs)).
Defined.

(** The scale of level 2 is read as level 2 from level 0. *)
Lemma scaleToLevel_levelToScale_witness :
  (0 <= 2 <= 3)%Z /\ (0 <= 2)%Q /\ (2 <= 3)%Q
  /\ Gestures.scaleToLevel (Gestures.levelToScale (inject_Z 2)) 0 = 2%Z.
Proof.
  assert (Hn : (0 <= 2 <= 3)%Z) by lia.
  assert (H0 : (0 <= 2)%Q) by (vm_compute; discriminate).
  assert (H3 : (2 <= 3)%Q) by (vm_compute; discriminate).
  split; [exact Hn |]. split; [exact H0 |]. split; [exact H3 |].
  exact (proj2 (scaleToLevel_levelToScale 2 2 0 Hn H0 H3)).
Defined.

(** The first click on "+" after loading. *)
Lemma handleLevelUp_spec_witness :
  (0 <= StateManager.currentLevel initialState <= 3)%Z
  /\ let '(cooldown, st', notices) := Gestures.handleLevelUp false initialState in
     cooldown = true /\ StateManager.currentLevel st' = 1%Z
     /\ notices = [StateManager.mkNotice (StateManager.LevelChange 0 1) []].
Proof.
  assert (H : (0 <= StateManager.currentLevel initialState <= 3)%Z) by (cbn; lia).
  split; [exact H |].
  pose proof (handleLevelUp_spec false initialState H) as Hs.
  destruct (Gestures.handleLevelUp false initialState) as [[cooldown st'] notices].
  cbn in Hs. destruct Hs as (Hc & Hst & Hn).
  split; [exact Hc |]. split; [rewrite Hst; reflexivity | exact Hn].
Defined.

(** A click on "-" at level 2. *)
Lemma handleLevelDown_spec_witness :
  (0 <= StateManager.currentLevel (StateManager.set_currentLevel 2 initialState) <= 3)%Z
  /\ let '(cooldown, st', notices) :=
       Gestures.handleLevelDown false (StateManager.set_currentLevel 2 initialState) in
     cooldown = true /\ StateManager.currentLevel st' = 1%Z.
Proof.
  assert (H : (0 <= StateManager.currentLevel
                      (StateManager.set_currentLevel 2 initialState) <= 3)%Z)
    by (cbn; lia).
  split; [exact H |].
  pose proof (proj1 (handleLevelDown_spec false
                       (StateManager.set_currentLevel 2 initialState) H)) as Hs.
  cbn in Hs |- *. destruct Hs as (Hc & Hst & Hn).
  split; [exact Hc | rewrite Hst; reflexivity].
Defined.

(** A first listener of level changes, added and removed. *)
Lemma addEventListener_then_remove_witness :
  StateManager.listeners_get (StateManager.listeners initialState) (lit "levelChange")
  = StateManager.Slot []
  /\ (7 ∉ ([] : list nat))
  /\ exists st',
       StateManager.addEventListener (lit "levelChange") (StateManager.Fn 7) initialState
       = StateManager.Done st'
       /\ StateManager.listeners_get (StateManager.listeners st') (lit "levelChange")
          = StateManager.Slot ([] ++ [7])
       /\ StateManager.removeEventListener (lit "levelChange") (StateManager.Fn 7) st'
          = StateManager.Done initialState.
Proof.
  assert (Hslot : StateManager.listeners_get (StateManager.listeners initialState)
                    (lit "levelChange") = StateManager.Slot [])
    by (vm_compute; reflexivity).
  assert (Hfresh : 7 ∉ ([] : list nat)) by apply not_elem_of_nil.
  split; [exact Hslot |]. split; [exact Hfresh |].
  exact (addEventListener_then_remove (lit "levelChange") 7 [] initialState Hslot Hfresh).
Defined.

(** A listener for the event "toString". *)
Lemma addEventListener_unknown_event_witness :
  (lit "toString" ∉ [lit "levelChange"; lit "textChange"; lit "animationStateChange"])
  /\ StateManager.addEventListener (lit "toString") (StateManager.Fn 1) initialState
     = StateManager.Throws.
Proof.
  assert (Hev : lit "toString"
                ∉ [lit "levelChange"; lit "textChange"; lit "animationStateChange"]).
  { apply (bool_decide_eq_false_1 _). vm_compute. reflexivity. }
  assert (Hk : lit "toString" ∈ App.Object_prototype_keys).
  { apply (bool_decide_eq_true_1 _). vm_compute. reflexivity. }
  split; [exact Hev |].
  exact (proj1 (proj1 (addEventListener_unknown_event (lit "toString")
                         (StateManager.Fn 1) initialState Hev) Hk) 1).
Defined.

(** Half of four visible words, shuffled by reversal. *)
Lemma filterAndSampleWords_spec_witness :
  (forall l : list nat, reverse l ≡ₚ l) /\ (0 <= 1 # 2)%Q /\ (Z.of_nat 4 < 2 ^ 53)%Z
  /\ Z.of_nat (length (Animator.filterAndSampleWords (fun _ => true) reverse
                         [0; 1; 2; 3] (1 # 2)))
     = Qfloor (round64 (inject_Z (Z.of_nat (length (filter (fun index : nat => true = true)
                                                      [0; 1; 2; 3]))) * (1 # 2))).
Proof.
  assert (Hperm : forall l : list nat, reverse l ≡ₚ l) by (intros l; apply reverse_Permutation).
  assert (H0 : (0 <= 1 # 2)%Q) by (vm_compute; discriminate).
  assert (H1 : (1 # 2 < 1)%Q) by (vm_compute; reflexivity).
  assert (Hs : (Z.of_nat 4 < 2 ^ 53)%Z) by (vm_compute; reflexivity).
  split; [exact Hperm |]. split; [exact H0 |]. split; [exact Hs |].
  exact (proj1 (proj2 (filterAndSampleWords_spec (fun _ => true) reverse Hperm
                         [0; 1; 2; 3] (1 # 2) H0 Hs) H1)).
Defined.

(** "fox" is in both texts and gets one kept reference. *)
Lemma fastPath_one_reference_per_word_witness :
  (forall s, ascii_toLowerCase (ascii_toLowerCase s) = ascii_toLowerCase s)
  /\ (lit "fox" ∉ App.Object_prototype_keys)
  /\ assigned ascii_toLowerCase (lit "fox")
       (App.t_kept
          (App.transformDiffData ascii_toLowerCase
             (WordMatcher.analyzeDifference ascii_toLowerCase
                (lit "The quick fox") (lit "the slow Fox fox"))
             (lit "The quick fox") (lit "the slow Fox fox"))) = 1.
Proof.
  assert (Hw : lit "fox" ∉ App.Object_prototype_keys).
  { apply (bool_decide_eq_false_1 _). vm_compute. reflexivity. }
  assert (Hs : lit "fox" ∈ ascii_toLowerCase <$> words_of (lit "The quick fox")).
  { apply (bool_decide_eq_true_1 _). vm_compute. reflexivity. }
  assert (Ht : lit "fox" ∈ ascii_toLowerCase <$> words_of (lit "the slow Fox fox")).
  { apply (bool_decide_eq_true_1 _). vm_compute. reflexivity. }
  split; [exact ascii_toLowerCase_idempotent |]. split; [exact Hw |].
  exact (proj1 (proj1 (fastPath_one_reference_per_word ascii_toLowerCase
                         ascii_toLowerCase_idempotent
                         (lit "The quick fox") (lit "the slow Fox fox") (lit "fox") Hw)
                  Hs Ht)).
Defined.
